(** * memtrace_x86: buffered memory-reference tracing

    A shallow embedding of [api/samples/memtrace_x86.c].  The client inserts,
    before every application memory reference, an inlined sequence that fills
    a per-thread buffer of [mem_ref_t] records, and jumps to a shared code
    cache that calls [memtrace] when the buffer is full.

    The development has three layers:
    - the data the client declares ([mem_ref_t], [per_thread_t]) laid out in a
      thread-private memory, and the C functions over it ([memtrace],
      [event_thread_init], [event_thread_exit]);
    - the instrumentation pass ([event_bb_insert], [instrument_mem],
      [code_cache_init]), which builds lists of meta instructions;
    - an interpreter for those meta instructions, so that what the inserted
      code does at run time is derived from what the pass emits. *)

From Stdlib Require Import ZArith List Bool Lia Permutation.
Import ListNotations.
Local Open Scope Z_scope.

(** ** Machine words *)

(** What the client takes from its build and from the host framework. *)
Record config := {
  (** [X64]: pointers are 8 bytes wide, otherwise 4. *)
  X64 : bool;
  (** [#define MAX_NUM_MEM_REFS 8192] in the source; kept as a parameter so
      that small buffers can be run. *)
  MAX_NUM_MEM_REFS : Z;
  (** the static [code_cache] pointer, written once by [code_cache_init]. *)
  code_cache : Z;
  (** address at which the encoder places the label instruction [n]. *)
  label_pc : nat -> Z;
  (** what [drutil_insert_get_mem_addr] leaves in its scratch register. *)
  scratch_junk : Z
}.

Definition ptr_bytes (c : config) : Z := if X64 c then 8 else 4.
Definition ptr_modulus (c : config) : Z := 2 ^ (8 * ptr_bytes c).

(** A pointer-sized value, reduced to its unsigned representative. *)
Definition wrap (c : config) (v : Z) : Z := v mod ptr_modulus c.

(** [(int)] and [%d]: the signed 32-bit representative. *)
Definition to_int (v : Z) : Z := (v + 2 ^ 31) mod 2 ^ 32 - 2 ^ 31.

(** [uint64] arithmetic. *)
Definition to_uint64 (v : Z) : Z := v mod 2 ^ 64.

(** ** Registers, operands, application instructions *)

Inductive reg_id_t :=
| DR_REG_NULL | DR_REG_XAX | DR_REG_XCX | DR_REG_XDX | DR_REG_XBX
| DR_REG_XSP | DR_REG_XBP | DR_REG_XSI | DR_REG_XDI.

Definition reg_eqb (a b : reg_id_t) : bool :=
  match a, b with
  | DR_REG_NULL, DR_REG_NULL | DR_REG_XAX, DR_REG_XAX
  | DR_REG_XCX, DR_REG_XCX | DR_REG_XDX, DR_REG_XDX
  | DR_REG_XBX, DR_REG_XBX | DR_REG_XSP, DR_REG_XSP
  | DR_REG_XBP, DR_REG_XBP | DR_REG_XSI, DR_REG_XSI
  | DR_REG_XDI, DR_REG_XDI => true
  | _, _ => false
  end.

Inductive dr_spill_slot_t := SPILL_SLOT_1 | SPILL_SLOT_2 | SPILL_SLOT_3.

Definition slot_eqb (a b : dr_spill_slot_t) : bool :=
  match a, b with
  | SPILL_SLOT_1, SPILL_SLOT_1 | SPILL_SLOT_2, SPILL_SLOT_2
  | SPILL_SLOT_3, SPILL_SLOT_3 => true
  | _, _ => false
  end.

Inductive opnd_size_t := OPSZ_1 | OPSZ_2 | OPSZ_4 | OPSZ_8 | OPSZ_PTR | OPSZ_lea.

Inductive opnd_t :=
| opnd_create_reg (r : reg_id_t)
| opnd_create_immed_int (v : Z) (sz : opnd_size_t)
| opnd_create_base_disp (base index : reg_id_t) (scale disp : Z)
                        (sz : opnd_size_t)
| opnd_create_instr (label : nat)
| opnd_create_pc (pc : Z).

Definition OPND_CREATE_MEMPTR (r : reg_id_t) (disp : Z) : opnd_t :=
  opnd_create_base_disp r DR_REG_NULL 0 disp OPSZ_PTR.
Definition OPND_CREATE_MEM32 (r : reg_id_t) (disp : Z) : opnd_t :=
  opnd_create_base_disp r DR_REG_NULL 0 disp OPSZ_4.
Definition OPND_CREATE_INT32 (v : Z) : opnd_t :=
  opnd_create_immed_int (to_int v) OPSZ_4.

(** Host query: the operand denotes a memory location. *)
Definition opnd_is_memory_reference (o : opnd_t) : bool :=
  match o with
  | opnd_create_base_disp _ _ _ _ _ => true
  | _ => false
  end.

(** An application instruction as the client sees it through the host's
    queries.  [instr_reads_memory] and [instr_writes_memory] are answers of
    the host of their own: they are not derived from the operand list (on
    x86 an [lea] has a base+disp source and reads no memory).
    [mem_size_in_bytes] is [drutil_opnd_mem_size_in_bytes(ref, instr)] and
    [app_effect] is what executing the instruction does to the registers. *)
Record instr_t := {
  instr_get_app_pc : Z;
  instr_reads_memory : bool;
  instr_writes_memory : bool;
  instr_srcs : list opnd_t;
  instr_dsts : list opnd_t;
  mem_size_in_bytes : opnd_t -> Z;
  app_effect : (reg_id_t -> Z) -> reg_id_t -> Z
}.

Definition NULL : Z := 0.

Definition instr_num_srcs (i : instr_t) : nat := length (instr_srcs i).
Definition instr_num_dsts (i : instr_t) : nat := length (instr_dsts i).
Definition instr_get_src (i : instr_t) (pos : nat) : opnd_t :=
  nth pos (instr_srcs i) (opnd_create_reg DR_REG_NULL).
Definition instr_get_dst (i : instr_t) (pos : nat) : opnd_t :=
  nth pos (instr_dsts i) (opnd_create_reg DR_REG_NULL).
Definition drutil_opnd_mem_size_in_bytes (ref : opnd_t) (i : instr_t) : Z :=
  mem_size_in_bytes i ref.

(** ** Layout of the client's structures *)

(** A C structure places each member at the next multiple of its alignment
    and rounds its size up to the largest alignment. *)
Record member := { m_size : Z; m_align : Z }.

Definition align_up (off a : Z) : Z := (off + a - 1) / a * a.

Fixpoint member_offsets (off : Z) (ms : list member) : list Z :=
  match ms with
  | [] => []
  | m :: rest =>
      let o := align_up off (m_align m) in
      o :: member_offsets (o + m_size m) rest
  end.

Fixpoint members_end (off : Z) (ms : list member) : Z :=
  match ms with
  | [] => off
  | m :: rest => members_end (align_up off (m_align m) + m_size m) rest
  end.

Definition sizeof_struct (ms : list member) : Z :=
  align_up (members_end 0 ms) (fold_right Z.max 1 (map m_align ms)).

Definition c_bool : member := {| m_size := 1; m_align := 1 |}.
Definition c_ptr (c : config) : member :=
  {| m_size := ptr_bytes c; m_align := ptr_bytes c |}.
Definition c_file_t : member := {| m_size := 4; m_align := 4 |}.
Definition c_uint64 (c : config) : member :=
  {| m_size := 8; m_align := ptr_bytes c |}.

(** [typedef struct _mem_ref_t { bool write; void *addr; size_t size;
    app_pc pc; } mem_ref_t;] *)
Inductive mem_ref_field := f_write | f_addr | f_size | f_pc.

Definition mem_ref_fields : list mem_ref_field :=
  [f_write; f_addr; f_size; f_pc].

Definition mem_ref_members (c : config) : list member :=
  [c_bool; c_ptr c; c_ptr c; c_ptr c].

Definition mem_ref_index (f : mem_ref_field) : nat :=
  match f with f_write => 0 | f_addr => 1 | f_size => 2 | f_pc => 3 end%nat.

Definition offsetof_mem_ref_t (c : config) (f : mem_ref_field) : Z :=
  nth (mem_ref_index f) (member_offsets 0 (mem_ref_members c)) 0.

Definition sizeof_mem_ref_t (c : config) : Z :=
  sizeof_struct (mem_ref_members c).

(** The value a [mem_ref_t] holds. *)
Record mem_ref_t := { write : bool; addr : Z; size : Z; pc : Z }.

(** [#define MEM_BUF_SIZE (sizeof(mem_ref_t) * MAX_NUM_MEM_REFS)] *)
Definition MEM_BUF_SIZE (c : config) : Z :=
  sizeof_mem_ref_t c * MAX_NUM_MEM_REFS c.

(** [typedef struct { char *buf_ptr; char *buf_base; ptr_int_t buf_end;
    void *cache; file_t log; uint64 num_refs; } per_thread_t;] *)
Inductive per_thread_field :=
| buf_ptr | buf_base | buf_end | cache | log | num_refs.

Definition per_thread_members (c : config) : list member :=
  [c_ptr c; c_ptr c; c_ptr c; c_ptr c; c_file_t; c_uint64 c].

Definition per_thread_index (f : per_thread_field) : nat :=
  match f with
  | buf_ptr => 0 | buf_base => 1 | buf_end => 2
  | cache => 3 | log => 4 | num_refs => 5
  end%nat.

Definition offsetof_per_thread_t (c : config) (f : per_thread_field) : Z :=
  nth (per_thread_index f) (member_offsets 0 (per_thread_members c)) 0.

Definition sizeof_per_thread_t (c : config) : Z :=
  sizeof_struct (per_thread_members c).

(** ** Thread-private state *)

(** Memory is a map from the address of a member to the value stored in it:
    the client only reads and writes whole members of its two structures. *)
Definition memory := Z -> Z.

Definition load (m : memory) (a : Z) : Z := m a.
Definition store (m : memory) (a v : Z) : memory :=
  fun a' => if a' =? a then v else m a'.
(** [memset(p, v, n)]; the client only calls it with [v = 0]. *)
Definition memset (m : memory) (p v n : Z) : memory :=
  fun a => if (p <=? a) && (a <? p + n) then v else m a.

(** A line of the readable trace: the format header, or
    [<instr address>,<(r)ead/(w)rite>,<data size>,<data address>].  A line
    holds the arguments handed to [dr_fprintf]; how they are rendered as
    text is the host's. *)
Inductive line :=
| Format_header
| Ref_line (ipc : Z) (w : bool) (sz : Z) (a : Z).

(** One call of [dr_fprintf]: the file, the line, and whether it was written. *)
Record io_event := { io_file : Z; io_line : line; io_ok : bool }.

Record thread_t := {
  regs : reg_id_t -> Z;          (* the application's registers *)
  slots : dr_spill_slot_t -> Z;  (* the host's spill slots *)
  tls_field : Z;                 (* drmgr tls field [tls_index] *)
  mem : memory;                  (* what dr_thread_alloc hands out *)
  io : list io_event;            (* calls of dr_fprintf, oldest first *)
  faults : list bool;            (* coming writes: [true] fails *)
  heap_next : Z;                 (* next block of dr_thread_alloc *)
  next_file : Z                  (* next handle of log_file_open *)
}.

Definition set_reg (s : thread_t) (r : reg_id_t) (v : Z) : thread_t :=
  {| regs := fun r' => if reg_eqb r' r then v else regs s r';
     slots := slots s; tls_field := tls_field s; mem := mem s; io := io s;
     faults := faults s; heap_next := heap_next s; next_file := next_file s |}.

Definition set_slot (s : thread_t) (k : dr_spill_slot_t) (v : Z) : thread_t :=
  {| regs := regs s;
     slots := fun k' => if slot_eqb k' k then v else slots s k';
     tls_field := tls_field s; mem := mem s; io := io s;
     faults := faults s; heap_next := heap_next s; next_file := next_file s |}.

Definition set_mem (s : thread_t) (m : memory) : thread_t :=
  {| regs := regs s; slots := slots s; tls_field := tls_field s; mem := m;
     io := io s; faults := faults s; heap_next := heap_next s;
     next_file := next_file s |}.

Definition set_regs (s : thread_t) (rs : reg_id_t -> Z) : thread_t :=
  {| regs := rs; slots := slots s; tls_field := tls_field s; mem := mem s;
     io := io s; faults := faults s; heap_next := heap_next s;
     next_file := next_file s |}.

Definition drmgr_get_tls_field (s : thread_t) : Z := tls_field s.
Definition drmgr_set_tls_field (s : thread_t) (p : Z) : thread_t :=
  {| regs := regs s; slots := slots s; tls_field := p; mem := mem s;
     io := io s; faults := faults s; heap_next := heap_next s;
     next_file := next_file s |}.

(** Host allocator: consecutive blocks, never reused. *)
Definition dr_thread_alloc (s : thread_t) (n : Z) : Z * thread_t :=
  (heap_next s,
   {| regs := regs s; slots := slots s; tls_field := tls_field s;
      mem := mem s; io := io s; faults := faults s;
      heap_next := heap_next s + n; next_file := next_file s |}).

Definition log_file_open (s : thread_t) : Z * thread_t :=
  (next_file s,
   {| regs := regs s; slots := slots s; tls_field := tls_field s;
      mem := mem s; io := io s; faults := faults s;
      heap_next := heap_next s; next_file := next_file s + 1 |}).

(** [dr_fprintf(f, ...)] returns the number of characters written, or -1.
    The next entry of [faults] decides; none left means the write succeeds. *)
Definition dr_fprintf (s : thread_t) (f : Z) (l : line) : thread_t * Z :=
  let failed := match faults s with b :: _ => b | [] => false end in
  ({| regs := regs s; slots := slots s; tls_field := tls_field s;
      mem := mem s;
      io := io s ++ [{| io_file := f; io_line := l; io_ok := negb failed |}];
      faults := tl (faults s);
      heap_next := heap_next s; next_file := next_file s |},
   if failed then -1 else 1).

(** What a file holds: the lines that were written to it, oldest first. *)
Fixpoint written (f : Z) (evs : list io_event) : list line :=
  match evs with
  | [] => []
  | e :: rest =>
      if (io_file e =? f) && io_ok e then io_line e :: written f rest
      else written f rest
  end.

Definition file_contents (s : thread_t) (f : Z) : list line :=
  written f (io s).

(** ** The client's functions over a thread *)

Section Client.

Variable c : config.

(** [p->f] for [per_thread_t *p], and the assignment to it. *)
Definition get_field (s : thread_t) (p : Z) (f : per_thread_field) : Z :=
  load (mem s) (p + offsetof_per_thread_t c f).

Definition set_field (s : thread_t) (p : Z) (f : per_thread_field) (v : Z)
  : thread_t :=
  set_mem s (store (mem s) (p + offsetof_per_thread_t c f) v).

(** [p->f] for [mem_ref_t *p]. *)
Definition get_ref_field (s : thread_t) (p : Z) (f : mem_ref_field) : Z :=
  load (mem s) (p + offsetof_mem_ref_t c f).

Definition read_mem_ref (s : thread_t) (p : Z) : mem_ref_t :=
  {| write := negb (get_ref_field s p f_write =? 0);
     addr := get_ref_field s p f_addr;
     size := get_ref_field s p f_size;
     pc := get_ref_field s p f_pc |}.

(** [dr_fprintf(data->log, PFX",%c,%d,"PFX"\n", mem_ref->pc,
    mem_ref->write ? 'w' : 'r', mem_ref->size, mem_ref->addr)] *)
Definition print_mem_ref (s : thread_t) (data mem_ref : Z) : thread_t :=
  fst (dr_fprintf s (get_field s data log)
         (Ref_line (get_ref_field s mem_ref f_pc)
                   (negb (get_ref_field s mem_ref f_write =? 0))
                   (get_ref_field s mem_ref f_size)
                   (get_ref_field s mem_ref f_addr))).

(** [for (i = 0; i < num_refs; i++) { dr_fprintf(...); ++mem_ref; }] *)
Fixpoint memtrace_loop (n : nat) (data mem_ref : Z) (s : thread_t)
  {struct n} : thread_t :=
  match n with
  | O => s
  | S n' =>
      memtrace_loop n' data (mem_ref + sizeof_mem_ref_t c)
                    (print_mem_ref s data mem_ref)
  end.

(** [static void memtrace(void *drcontext)], with READABLE_TRACE defined. *)
Definition memtrace (s : thread_t) : thread_t :=
  let data := drmgr_get_tls_field s in
  let mem_ref := get_field s data buf_base in
  let num_refs' :=
    to_int ((get_field s data buf_ptr - mem_ref) / sizeof_mem_ref_t c) in
  let s := fst (dr_fprintf s (get_field s data log) Format_header) in
  let s := memtrace_loop (Z.to_nat num_refs') data mem_ref s in
  let s :=
    set_mem s (memset (mem s) (get_field s data buf_base) 0 (MEM_BUF_SIZE c)) in
  let s :=
    set_field s data num_refs
              (to_uint64 (get_field s data num_refs + num_refs')) in
  set_field s data buf_ptr (get_field s data buf_base).

(** [static void clean_call(void)] *)
Definition clean_call (s : thread_t) : thread_t := memtrace s.

(** [static void event_thread_init(void *drcontext)] *)
Definition event_thread_init (s : thread_t) : thread_t :=
  let '(data, s) := dr_thread_alloc s (sizeof_per_thread_t c) in
  let s := drmgr_set_tls_field s data in
  let '(b, s) := dr_thread_alloc s (MEM_BUF_SIZE c) in
  let s := set_field s data buf_base b in
  let s := set_field s data buf_ptr (get_field s data buf_base) in
  let s :=
    set_field s data buf_end
              (wrap c (- (get_field s data buf_base + MEM_BUF_SIZE c))) in
  let s := set_field s data num_refs 0 in
  let '(f, s) := log_file_open s in
  set_field s data log f.

(** The process-wide state: the static [num_refs] and [mutex]. *)
Record global_t := {
  g_num_refs : Z;
  g_mutex : option nat       (* the thread that holds the mutex *)
}.

Definition dr_mutex_lock (t : nat) (g : global_t) : option global_t :=
  match g_mutex g with
  | None => Some {| g_num_refs := g_num_refs g; g_mutex := Some t |}
  | Some _ => None
  end.

Definition dr_mutex_unlock (t : nat) (g : global_t) : option global_t :=
  match g_mutex g with
  | Some t' =>
      if Nat.eqb t' t
      then Some {| g_num_refs := g_num_refs g; g_mutex := None |}
      else None
  | None => None
  end.

(** [num_refs += data->num_refs;] *)
Definition add_num_refs (g : global_t) (v : Z) : global_t :=
  {| g_num_refs := to_uint64 (g_num_refs g + v); g_mutex := g_mutex g |}.

(** [static void event_thread_exit(void *drcontext)] run by thread [t], when
    no other thread holds the mutex.  The closing of the log and the two
    [dr_thread_free] leave nothing to observe. *)
Definition event_thread_exit (t : nat) (g : global_t) (s : thread_t)
  : option (global_t * thread_t) :=
  let s := memtrace s in
  let data := drmgr_get_tls_field s in
  match dr_mutex_lock t g with
  | None => None
  | Some g =>
      let g := add_num_refs g (get_field s data num_refs) in
      match dr_mutex_unlock t g with
      | None => None
      | Some g => Some (g, s)
      end
  end.

End Client.

(** ** The instrumentation pass *)

(** The instructions the client inserts.  The host's insertion routines
    ([dr_save_reg], [drutil_insert_get_mem_addr], ...) each count as one
    instruction with the effect the routine documents. *)
Inductive instr :=
| I_save_reg (r : reg_id_t) (slot : dr_spill_slot_t)
| I_restore_reg (r : reg_id_t) (slot : dr_spill_slot_t)
| I_get_mem_addr (ref : opnd_t) (dst scratch : reg_id_t)
| I_read_tls_field (r : reg_id_t)
| I_mov_immed_ptrsz (val : Z) (dst : opnd_t)
| I_clean_call (callee : thread_t -> thread_t)
| INSTR_CREATE_mov_ld (d s : opnd_t)
| INSTR_CREATE_mov_st (d s : opnd_t)
| INSTR_CREATE_mov_imm (d s : opnd_t)
| INSTR_CREATE_lea (d s : opnd_t)
| INSTR_CREATE_jecxz (t : opnd_t)
| INSTR_CREATE_jmp (t : opnd_t)
| INSTR_CREATE_jmp_ind (t : opnd_t)
| INSTR_CREATE_label (id : nat).

(** An instruction list is seen from the instruction [where] in front of
    which the client inserts: the list holds what precedes [where], in
    program order, so that inserting before [where] adds at its end. *)
Definition instrlist_t := list instr.

Definition instrlist_meta_preinsert (ilist : instrlist_t) (i : instr)
  : instrlist_t := ilist ++ [i].

Definition dr_save_reg (ilist : instrlist_t) r slot : instrlist_t :=
  instrlist_meta_preinsert ilist (I_save_reg r slot).
Definition dr_restore_reg (ilist : instrlist_t) r slot : instrlist_t :=
  instrlist_meta_preinsert ilist (I_restore_reg r slot).
Definition drutil_insert_get_mem_addr (ilist : instrlist_t) ref dst scratch
  : instrlist_t :=
  instrlist_meta_preinsert ilist (I_get_mem_addr ref dst scratch).
Definition drmgr_insert_read_tls_field (ilist : instrlist_t) r
  : instrlist_t :=
  instrlist_meta_preinsert ilist (I_read_tls_field r).
Definition instrlist_insert_mov_immed_ptrsz (val : Z) (dst : opnd_t)
  (ilist : instrlist_t) : instrlist_t :=
  instrlist_meta_preinsert ilist (I_mov_immed_ptrsz val dst).
Definition dr_insert_clean_call (ilist : instrlist_t)
  (callee : thread_t -> thread_t) : instrlist_t :=
  instrlist_meta_preinsert ilist (I_clean_call callee).

(** [for (i = first; i < first + count; i++) body] *)
Fixpoint for_loop {A : Type} (i : nat) (count : nat) (body : nat -> A -> A)
  (a : A) : A :=
  match count with
  | O => a
  | S k => for_loop (S i) k body (body i a)
  end.

Section Instrument.

Variable c : config.

(** [static void instrument_mem(void *drcontext, instrlist_t *ilist,
    instr_t *where, int pos, bool write)].  [next_label] numbers the label
    instructions created so far; the two labels made here take the next two
    numbers. *)
Definition instrument_mem (ilist : instrlist_t) (where_ : instr_t)
  (pos : nat) (write : bool) (next_label : nat) : instrlist_t * nat :=
  let reg1 := DR_REG_XBX in
  let reg2 := DR_REG_XCX in
  let ilist := dr_save_reg ilist reg1 SPILL_SLOT_2 in
  let ilist := dr_save_reg ilist reg2 SPILL_SLOT_3 in
  let ref :=
    if write then instr_get_dst where_ pos else instr_get_src where_ pos in
  let ilist := drutil_insert_get_mem_addr ilist ref reg1 reg2 in
  let ilist := drmgr_insert_read_tls_field ilist reg2 in
  (* Load data->buf_ptr into reg2 *)
  let opnd1 := opnd_create_reg reg2 in
  let opnd2 := OPND_CREATE_MEMPTR reg2 (offsetof_per_thread_t c buf_ptr) in
  let ilist := instrlist_meta_preinsert ilist (INSTR_CREATE_mov_ld opnd1 opnd2) in
  (* Move write/read to write field *)
  let opnd1 := OPND_CREATE_MEM32 reg2 (offsetof_mem_ref_t c f_write) in
  let opnd2 := OPND_CREATE_INT32 (Z.b2z write) in
  let ilist := instrlist_meta_preinsert ilist (INSTR_CREATE_mov_imm opnd1 opnd2) in
  (* Store address in memory ref *)
  let opnd1 := OPND_CREATE_MEMPTR reg2 (offsetof_mem_ref_t c f_addr) in
  let opnd2 := opnd_create_reg reg1 in
  let ilist := instrlist_meta_preinsert ilist (INSTR_CREATE_mov_st opnd1 opnd2) in
  (* Store size in memory ref *)
  let opnd1 := OPND_CREATE_MEMPTR reg2 (offsetof_mem_ref_t c f_size) in
  let opnd2 := OPND_CREATE_INT32 (drutil_opnd_mem_size_in_bytes ref where_) in
  let ilist := instrlist_meta_preinsert ilist (INSTR_CREATE_mov_st opnd1 opnd2) in
  (* Store pc in memory ref *)
  let pc := instr_get_app_pc where_ in
  let opnd1 := OPND_CREATE_MEMPTR reg2 (offsetof_mem_ref_t c f_pc) in
  let ilist := instrlist_insert_mov_immed_ptrsz pc opnd1 ilist in
  (* Increment reg value by pointer size using lea instr *)
  let opnd1 := opnd_create_reg reg2 in
  let opnd2 :=
    opnd_create_base_disp reg2 DR_REG_NULL 0 (sizeof_mem_ref_t c) OPSZ_lea in
  let ilist := instrlist_meta_preinsert ilist (INSTR_CREATE_lea opnd1 opnd2) in
  (* Update the data->buf_ptr *)
  let ilist := drmgr_insert_read_tls_field ilist reg1 in
  let opnd1 := OPND_CREATE_MEMPTR reg1 (offsetof_per_thread_t c buf_ptr) in
  let opnd2 := opnd_create_reg reg2 in
  let ilist := instrlist_meta_preinsert ilist (INSTR_CREATE_mov_st opnd1 opnd2) in
  (* lea [reg2 - buf_end] => reg2 *)
  let opnd1 := opnd_create_reg reg1 in
  let opnd2 := OPND_CREATE_MEMPTR reg1 (offsetof_per_thread_t c buf_end) in
  let ilist := instrlist_meta_preinsert ilist (INSTR_CREATE_mov_ld opnd1 opnd2) in
  let opnd1 := opnd_create_reg reg2 in
  let opnd2 := opnd_create_base_disp reg1 reg2 1 0 OPSZ_lea in
  let ilist := instrlist_meta_preinsert ilist (INSTR_CREATE_lea opnd1 opnd2) in
  (* jecxz call *)
  let call := next_label in
  let opnd1 := opnd_create_instr call in
  let ilist := instrlist_meta_preinsert ilist (INSTR_CREATE_jecxz opnd1) in
  (* jump restore to skip clean call *)
  let restore := S next_label in
  let opnd1 := opnd_create_instr restore in
  let ilist := instrlist_meta_preinsert ilist (INSTR_CREATE_jmp opnd1) in
  (* clean call *)
  let ilist := instrlist_meta_preinsert ilist (INSTR_CREATE_label call) in
  (* mov restore DR_REG_XCX *)
  let opnd1 := opnd_create_reg reg2 in
  let opnd2 := opnd_create_instr restore in
  let ilist := instrlist_meta_preinsert ilist (INSTR_CREATE_mov_imm opnd1 opnd2) in
  (* jmp code_cache *)
  let opnd1 := opnd_create_pc (code_cache c) in
  let ilist := instrlist_meta_preinsert ilist (INSTR_CREATE_jmp opnd1) in
  (* restore %reg *)
  let ilist := instrlist_meta_preinsert ilist (INSTR_CREATE_label restore) in
  let ilist := dr_restore_reg ilist reg1 SPILL_SLOT_2 in
  let ilist := dr_restore_reg ilist reg2 SPILL_SLOT_3 in
  (ilist, S (S next_label)).

(** [static dr_emit_flags_t event_bb_insert(..., instrlist_t *bb,
    instr_t *instr, ...)] *)
Definition event_bb_insert (bb : instrlist_t) (instr : instr_t)
  (next_label : nat) : instrlist_t * nat :=
  if instr_get_app_pc instr =? NULL then (bb, next_label)
  else
    let st := (bb, next_label) in
    let st :=
      if instr_reads_memory instr then
        for_loop 0 (instr_num_srcs instr)
          (fun i st =>
             if opnd_is_memory_reference (instr_get_src instr i)
             then instrument_mem (fst st) instr i false (snd st)
             else st) st
      else st in
    let st :=
      if instr_writes_memory instr then
        for_loop 0 (instr_num_dsts instr)
          (fun i st =>
             if opnd_is_memory_reference (instr_get_dst instr i)
             then instrument_mem (fst st) instr i true (snd st)
             else st) st
      else st in
    st.

(** [static void code_cache_init(void)]: the instructions encoded at
    [code_cache].  The list is built around [where], the indirect jump. *)
Definition code_cache_init : list instr :=
  let where_ := INSTR_CREATE_jmp_ind (opnd_create_reg DR_REG_XCX) in
  let ilist := dr_insert_clean_call [] (clean_call c) in
  ilist ++ [where_].

End Instrument.

(** ** Running the inserted code *)

Section Run.

Variable c : config.

Definition reg_get (rs : reg_id_t -> Z) (r : reg_id_t) : Z :=
  match r with DR_REG_NULL => 0 | _ => rs r end.

(** The address a base+disp operand denotes under the registers [rs]. *)
Definition opnd_compute_address (rs : reg_id_t -> Z) (o : opnd_t) : option Z :=
  match o with
  | opnd_create_base_disp b i sc d _ =>
      Some (wrap c (reg_get rs b + reg_get rs i * sc + d))
  | _ => None
  end.

(** One instruction that is not a transfer of control. *)
Definition exec_instr (i : instr) (s : thread_t) : option thread_t :=
  match i with
  | I_save_reg r k => Some (set_slot s k (regs s r))
  | I_restore_reg r k => Some (set_reg s r (slots s k))
  | I_get_mem_addr ref dst scratch =>
      match opnd_compute_address (regs s) ref with
      | Some a => Some (set_reg (set_reg s scratch (scratch_junk c)) dst a)
      | None => None
      end
  | I_read_tls_field r => Some (set_reg s r (tls_field s))
  | I_mov_immed_ptrsz v d =>
      match opnd_compute_address (regs s) d with
      | Some a => Some (set_mem s (store (mem s) a (wrap c v)))
      | None => None
      end
  | I_clean_call callee => Some (set_regs (callee s) (regs s))
  | INSTR_CREATE_mov_ld (opnd_create_reg d) src =>
      match opnd_compute_address (regs s) src with
      | Some a => Some (set_reg s d (load (mem s) a))
      | None => None
      end
  | INSTR_CREATE_mov_st dst (opnd_create_reg r) =>
      match opnd_compute_address (regs s) dst with
      | Some a => Some (set_mem s (store (mem s) a (regs s r)))
      | None => None
      end
  | INSTR_CREATE_mov_st dst (opnd_create_immed_int v _) =>
      match opnd_compute_address (regs s) dst with
      | Some a => Some (set_mem s (store (mem s) a (wrap c v)))
      | None => None
      end
  | INSTR_CREATE_mov_imm (opnd_create_base_disp b i sc d OPSZ_4)
                         (opnd_create_immed_int v _) =>
      match opnd_compute_address (regs s)
              (opnd_create_base_disp b i sc d OPSZ_4) with
      | Some a => Some (set_mem s (store (mem s) a (v mod 2 ^ 32)))
      | None => None
      end
  | INSTR_CREATE_mov_imm (opnd_create_reg r) (opnd_create_immed_int v _) =>
      Some (set_reg s r (wrap c v))
  | INSTR_CREATE_mov_imm (opnd_create_reg r) (opnd_create_instr l) =>
      Some (set_reg s r (label_pc c l))
  | INSTR_CREATE_lea (opnd_create_reg d) src =>
      match opnd_compute_address (regs s) src with
      | Some a => Some (set_reg s d a)
      | None => None
      end
  | INSTR_CREATE_label _ => Some s
  | _ => None
  end.

(** The code cache: straight-line code closed by an indirect jump; the
    result is the state and the address jumped to. *)
Fixpoint run_code_cache (il : list instr) (s : thread_t)
  : option (thread_t * Z) :=
  match il with
  | [] => None
  | INSTR_CREATE_jmp_ind (opnd_create_reg r) :: _ => Some (s, regs s r)
  | i :: rest =>
      match exec_instr i s with
      | Some s' => run_code_cache rest s'
      | None => None
      end
  end.

(** The code in front of an application instruction.  Every transfer of
    control in it goes forward, to a label of the list or through the code
    cache and back: [target] is the address being jumped to, if any, and
    instructions are skipped until the label placed there.  Falling off the
    list while still looking for a label gives [None]. *)
Fixpoint run (il : list instr) (target : option Z) (s : thread_t)
  : option thread_t :=
  match il with
  | [] => match target with None => Some s | Some _ => None end
  | i :: rest =>
      match target with
      | Some a =>
          match i with
          | INSTR_CREATE_label l =>
              if label_pc c l =? a then run rest None s
              else run rest target s
          | _ => run rest target s
          end
      | None =>
          match i with
          | INSTR_CREATE_jecxz (opnd_create_instr l) =>
              if regs s DR_REG_XCX =? 0
              then run rest (Some (label_pc c l)) s
              else run rest None s
          | INSTR_CREATE_jmp (opnd_create_instr l) =>
              run rest (Some (label_pc c l)) s
          | INSTR_CREATE_jmp (opnd_create_pc p) =>
              if p =? code_cache c then
                match run_code_cache (code_cache_init c) s with
                | Some (s', a) => run rest (Some a) s'
                | None => None
                end
              else None
          | _ =>
              match exec_instr i s with
              | Some s' => run rest None s'
              | None => None
              end
          end
      end
  end.

(** An application instruction executes after the code inserted in front of
    it; the instruction itself only changes the registers here. *)
Definition exec_app (i : instr_t) (s : thread_t) : thread_t :=
  set_regs s (app_effect i (regs s)).

(** A thread executes a sequence of application instructions, each with the
    instrumentation [event_bb_insert] put in front of it. *)
Fixpoint thread_run (prog : list instr_t) (next_label : nat) (s : thread_t)
  : option thread_t :=
  match prog with
  | [] => Some s
  | i :: rest =>
      let '(il, n) := event_bb_insert c [] i next_label in
      match run il None s with
      | Some s' => thread_run rest n (exec_app i s')
      | None => None
      end
  end.

End Run.

(** ** What a thread has recorded *)

Section Views.

Variable c : config.

(** The [n] records stored from [p] on, oldest first. *)
Fixpoint read_refs (s : thread_t) (p : Z) (n : nat) {struct n}
  : list mem_ref_t :=
  match n with
  | O => []
  | S k => read_mem_ref c s p :: read_refs s (p + sizeof_mem_ref_t c) k
  end.

(** The number of records between [data->buf_base] and [data->buf_ptr]. *)
Definition pending_count (s : thread_t) : Z :=
  let data := tls_field s in
  (get_field c s data buf_ptr - get_field c s data buf_base)
  / sizeof_mem_ref_t c.

(** The records between [buf_base] and [buf_ptr]. *)
Definition pending (s : thread_t) : list mem_ref_t :=
  read_refs s (get_field c s (tls_field s) buf_base)
            (Z.to_nat (pending_count s)).

Definition ref_line (r : mem_ref_t) : line :=
  Ref_line (pc r) (write r) (size r) (addr r).

Fixpoint line_refs (ls : list line) : list mem_ref_t :=
  match ls with
  | [] => []
  | Format_header :: rest => line_refs rest
  | Ref_line p w sz a :: rest =>
      {| write := w; addr := a; size := sz; pc := p |} :: line_refs rest
  end.

(** The thread's log file, and the records written to it. *)
Definition thread_log (s : thread_t) : list line :=
  file_contents s (get_field c s (tls_field s) log).

Definition log_refs (s : thread_t) : list mem_ref_t :=
  line_refs (thread_log s).

(** Everything recorded so far: what reached the log, then what is still
    in the buffer. *)
Definition recorded (s : thread_t) : list mem_ref_t :=
  log_refs s ++ pending s.

(** Calls of [memtrace]: each one starts by printing the format header to
    the thread's log, whether the write succeeds or not. *)
Fixpoint header_calls (f : Z) (evs : list io_event) : nat :=
  match evs with
  | [] => O
  | e :: rest =>
      match io_line e with
      | Format_header =>
          if io_file e =? f then S (header_calls f rest)
          else header_calls f rest
      | _ => header_calls f rest
      end
  end.

Definition flush_calls (s : thread_t) : nat :=
  header_calls (get_field c s (tls_field s) log) (io s).

(** The memory references an application instruction makes when it executes
    under the registers [rs]: its memory-reference sources if the host says
    it reads memory, then its memory-reference destinations if the host says
    it writes memory; none for an instruction without application address. *)
Definition access (i : instr_t) (rs : reg_id_t -> Z) (w : bool) (o : opnd_t)
  : list mem_ref_t :=
  match opnd_compute_address c rs o with
  | Some a =>
      [{| write := w; addr := a;
          size := drutil_opnd_mem_size_in_bytes o i;
          pc := instr_get_app_pc i |}]
  | None => []
  end.

Definition accesses (i : instr_t) (rs : reg_id_t -> Z) : list mem_ref_t :=
  if instr_get_app_pc i =? NULL then []
  else
    (if instr_reads_memory i
     then flat_map (access i rs false) (instr_srcs i) else [])
    ++
    (if instr_writes_memory i
     then flat_map (access i rs true) (instr_dsts i) else []).

(** The references of a run of application instructions, in program order. *)
Fixpoint run_accesses (prog : list instr_t) (rs : reg_id_t -> Z)
  : list mem_ref_t :=
  match prog with
  | [] => []
  | i :: rest => accesses i rs ++ run_accesses rest (app_effect i rs)
  end.

(** Number of memory-reference operands of an instruction. *)
Definition memory_operands (i : instr_t) : list opnd_t :=
  filter opnd_is_memory_reference (instr_srcs i)
  ++ filter opnd_is_memory_reference (instr_dsts i).

End Views.

(** ** Well-formed configurations and threads *)

(** The buffer holds at least one record and its record count fits the
    [int] of [memtrace]; distinct labels are encoded at distinct addresses. *)
Record config_ok (c : config) : Prop := {
  cap_pos : 0 < MAX_NUM_MEM_REFS c;
  cap_int : MAX_NUM_MEM_REFS c < 2 ^ 31;
  labels_inj : forall a b, label_pc c a = label_pc c b -> a = b
}.

(** The host gives sizes that fit a 32-bit immediate and addresses that fit
    a pointer, and what an instruction does to the registers depends on
    their contents only. *)
Record instr_ok (c : config) (i : instr_t) : Prop := {
  pc_range : 0 <= instr_get_app_pc i < ptr_modulus c;
  size_range : forall o, 0 <= mem_size_in_bytes i o < 2 ^ 31;
  effect_ext : forall rs rs',
    (forall x, rs' x = rs x) ->
    forall x, app_effect i rs' x = app_effect i rs x
}.

(** A thread between [event_thread_init] and [event_thread_exit], with [k]
    records in its buffer: the two blocks lie apart inside the address
    space, [buf_end] is the negated end of the buffer, and [buf_ptr] is [k]
    records past [buf_base]. *)
Record thread_ok (c : config) (s : thread_t) (k : Z) : Prop := {
  ok_data : 0 <= tls_field s;
  ok_data_end : tls_field s + sizeof_per_thread_t c <= ptr_modulus c;
  ok_base : 0 <= get_field c s (tls_field s) buf_base;
  ok_buf_end :
    get_field c s (tls_field s) buf_base + MEM_BUF_SIZE c < ptr_modulus c;
  ok_apart :
    tls_field s + sizeof_per_thread_t c <= get_field c s (tls_field s) buf_base
    \/ get_field c s (tls_field s) buf_base + MEM_BUF_SIZE c <= tls_field s;
  ok_end :
    get_field c s (tls_field s) buf_end =
    wrap c (- (get_field c s (tls_field s) buf_base + MEM_BUF_SIZE c));
  ok_count : 0 <= k <= MAX_NUM_MEM_REFS c;
  ok_ptr :
    get_field c s (tls_field s) buf_ptr =
    get_field c s (tls_field s) buf_base + k * sizeof_mem_ref_t c
}.

(** ** Basic facts: layout, words, memory *)

Lemma ptr_bytes_cases c : ptr_bytes c = 4 \/ ptr_bytes c = 8.
Proof. unfold ptr_bytes; destruct (X64 c); auto. Qed.

Lemma ptr_modulus_cases c :
  (ptr_bytes c = 4 /\ ptr_modulus c = 2 ^ 32)
  \/ (ptr_bytes c = 8 /\ ptr_modulus c = 2 ^ 64).
Proof. unfold ptr_modulus, ptr_bytes; destruct (X64 c); auto. Qed.

Lemma ptr_modulus_pos c : 0 < ptr_modulus c.
Proof. destruct (ptr_modulus_cases c) as [[_ ->]|[_ ->]]; reflexivity. Qed.

Lemma sizeof_mem_ref_t_eq c : sizeof_mem_ref_t c = 4 * ptr_bytes c.
Proof.
  unfold sizeof_mem_ref_t, mem_ref_members, c_ptr, ptr_bytes.
  destruct (X64 c); reflexivity.
Qed.

Lemma offsetof_mem_ref_t_eq c f :
  offsetof_mem_ref_t c f = Z.of_nat (mem_ref_index f) * ptr_bytes c.
Proof.
  unfold offsetof_mem_ref_t, mem_ref_members, c_ptr, ptr_bytes.
  destruct (X64 c), f; reflexivity.
Qed.

Lemma offsetof_per_thread_t_eq c f :
  offsetof_per_thread_t c f =
  match f with
  | num_refs => if X64 c then 40 else 20
  | _ => Z.of_nat (per_thread_index f) * ptr_bytes c
  end.
Proof.
  unfold offsetof_per_thread_t, per_thread_members, c_ptr, c_uint64, ptr_bytes.
  destruct (X64 c), f; reflexivity.
Qed.

Lemma sizeof_per_thread_t_eq c :
  sizeof_per_thread_t c = if X64 c then 48 else 28.
Proof.
  unfold sizeof_per_thread_t, per_thread_members, c_ptr, c_uint64, ptr_bytes.
  destruct (X64 c); reflexivity.
Qed.

(** Every member of [per_thread_t] lies inside the structure, and two
    different members lie at different offsets. *)
Lemma offsetof_per_thread_t_range c f :
  0 <= offsetof_per_thread_t c f < sizeof_per_thread_t c.
Proof.
  rewrite offsetof_per_thread_t_eq, sizeof_per_thread_t_eq.
  unfold ptr_bytes; destruct (X64 c), f; simpl; lia.
Qed.

Lemma offsetof_per_thread_t_inj c f g :
  offsetof_per_thread_t c f = offsetof_per_thread_t c g -> f = g.
Proof.
  rewrite !offsetof_per_thread_t_eq.
  unfold ptr_bytes; destruct (X64 c), f, g; simpl; intros; lia || reflexivity.
Qed.

Lemma offsetof_mem_ref_t_range c f :
  0 <= offsetof_mem_ref_t c f < sizeof_mem_ref_t c.
Proof.
  rewrite offsetof_mem_ref_t_eq, sizeof_mem_ref_t_eq.
  unfold ptr_bytes; destruct (X64 c), f; simpl; lia.
Qed.

Lemma offsetof_mem_ref_t_inj c f g :
  offsetof_mem_ref_t c f = offsetof_mem_ref_t c g -> f = g.
Proof.
  rewrite !offsetof_mem_ref_t_eq.
  unfold ptr_bytes; destruct (X64 c), f, g; simpl; intros; lia || reflexivity.
Qed.

Lemma sizeof_mem_ref_t_pos c : 0 < sizeof_mem_ref_t c.
Proof. pose proof (offsetof_mem_ref_t_range c f_write); lia. Qed.

Lemma wrap_small c v : 0 <= v < ptr_modulus c -> wrap c v = v.
Proof. intros; unfold wrap; apply Z.mod_small; assumption. Qed.

Lemma wrap_range c v : 0 <= wrap c v < ptr_modulus c.
Proof. unfold wrap; apply Z.mod_pos_bound, ptr_modulus_pos. Qed.

Lemma to_int_small v : - 2 ^ 31 <= v < 2 ^ 31 -> to_int v = v.
Proof. intros; unfold to_int; rewrite Z.mod_small; lia. Qed.

Lemma load_store_same m a v : load (store m a v) a = v.
Proof. unfold load, store; rewrite Z.eqb_refl; reflexivity. Qed.

Lemma load_store_other m a v b : b <> a -> load (store m a v) b = load m b.
Proof.
  intros H; unfold load, store.
  destruct (Z.eqb_spec b a); [contradiction | reflexivity].
Qed.

Lemma load_memset_in m p v n a :
  p <= a < p + n -> load (memset m p v n) a = v.
Proof.
  intros H; unfold load, memset.
  destruct (Z.leb_spec p a), (Z.ltb_spec a (p + n)); simpl; lia || reflexivity.
Qed.

Lemma load_memset_out m p v n a :
  a < p \/ p + n <= a -> load (memset m p v n) a = load m a.
Proof.
  intros H; unfold load, memset.
  destruct (Z.leb_spec p a), (Z.ltb_spec a (p + n)); simpl; lia || reflexivity.
Qed.

(** ** What [memtrace] does *)

Lemma clean_call_eq c s : clean_call c s = memtrace c s.
Proof. reflexivity. Qed.

(** The calls of [dr_fprintf] that print the lines [ls] to [f] under the
    write outcomes [fl]. *)
Fixpoint emit (f : Z) (ls : list line) (fl : list bool) : list io_event :=
  match ls with
  | [] => []
  | l :: rest =>
      {| io_file := f; io_line := l; io_ok := negb (hd false fl) |}
      :: emit f rest (tl fl)
  end.

Lemma hd_faults (fl : list bool) :
  match fl with b :: _ => b | [] => false end = hd false fl.
Proof. destruct fl; reflexivity. Qed.

Lemma written_app f a b : written f (a ++ b) = written f a ++ written f b.
Proof.
  induction a as [|e a IH]; simpl; [reflexivity|].
  destruct ((io_file e =? f) && io_ok e); simpl; rewrite IH; reflexivity.
Qed.

Lemma written_emit_ok f ls : written f (emit f ls []) = ls.
Proof.
  induction ls as [|l ls IH]; simpl; [reflexivity|].
  rewrite Z.eqb_refl; simpl; rewrite IH; reflexivity.
Qed.

Lemma written_emit_other f g ls fl : g <> f -> written g (emit f ls fl) = [].
Proof.
  intros H; revert fl; induction ls as [|l ls IH]; intros fl; simpl;
    [reflexivity|].
  destruct (Z.eqb_spec f g); [congruence|]. simpl; apply IH.
Qed.

Lemma header_calls_app f a b :
  header_calls f (a ++ b) = (header_calls f a + header_calls f b)%nat.
Proof.
  induction a as [|e a IH]; simpl; [reflexivity|].
  destruct (io_line e); [destruct (io_file e =? f)|]; simpl; rewrite IH;
    reflexivity.
Qed.

Lemma header_calls_emit_refs f rs fl :
  header_calls f (emit f (map ref_line rs) fl) = O.
Proof.
  revert fl; induction rs as [|r rs IH]; intros fl; simpl; auto.
Qed.

Lemma line_refs_app a b : line_refs (a ++ b) = line_refs a ++ line_refs b.
Proof.
  induction a as [|l a IH]; simpl; [reflexivity|].
  destruct l; simpl; rewrite IH; reflexivity.
Qed.

Lemma line_refs_ref_line rs : line_refs (map ref_line rs) = rs.
Proof.
  induction rs as [|r rs IH]; simpl; [reflexivity|].
  rewrite IH; destruct r; reflexivity.
Qed.

Section Memtrace_facts.

Variable c : config.

Lemma read_refs_ext s s' p n :
  (forall a, p <= a < p + Z.of_nat n * sizeof_mem_ref_t c ->
             load (mem s') a = load (mem s) a) ->
  read_refs c s' p n = read_refs c s p n.
Proof.
  revert p; induction n as [|n IH]; intros p H; simpl; [reflexivity|].
  pose proof (sizeof_mem_ref_t_pos c) as HS.
  assert (HE : Z.of_nat (S n) * sizeof_mem_ref_t c =
               Z.of_nat n * sizeof_mem_ref_t c + sizeof_mem_ref_t c) by lia.
  assert (HN : 0 <= Z.of_nat n * sizeof_mem_ref_t c)
    by (apply Z.mul_nonneg_nonneg; lia).
  rewrite HE in H.
  f_equal.
  - unfold read_mem_ref, get_ref_field.
    pose proof (offsetof_mem_ref_t_range c f_write).
    pose proof (offsetof_mem_ref_t_range c f_addr).
    pose proof (offsetof_mem_ref_t_range c f_size).
    pose proof (offsetof_mem_ref_t_range c f_pc).
    rewrite !H by lia. reflexivity.
  - apply IH. intros a Ha. apply H. lia.
Qed.

Lemma read_refs_length s p n : length (read_refs c s p n) = n.
Proof. revert p; induction n; intros; simpl; auto. Qed.

Lemma read_refs_snoc s p n :
  read_refs c s p (S n) =
  read_refs c s p n
  ++ [read_mem_ref c s (p + Z.of_nat n * sizeof_mem_ref_t c)].
Proof.
  revert p; induction n as [|n IH]; intros p.
  - simpl. rewrite Z.add_0_r. reflexivity.
  - change (read_refs c s p (S (S n))) with
      (read_mem_ref c s p :: read_refs c s (p + sizeof_mem_ref_t c) (S n)).
    rewrite IH. cbn [read_refs app]. do 4 f_equal.
    rewrite (Nat2Z.inj_succ n). lia.
Qed.

(** The loop of [memtrace] only prints: one call per record, in order. *)
Lemma memtrace_loop_frame n data p s :
  regs (memtrace_loop c n data p s) = regs s
  /\ slots (memtrace_loop c n data p s) = slots s
  /\ tls_field (memtrace_loop c n data p s) = tls_field s
  /\ mem (memtrace_loop c n data p s) = mem s
  /\ heap_next (memtrace_loop c n data p s) = heap_next s
  /\ next_file (memtrace_loop c n data p s) = next_file s.
Proof.
  revert p s; induction n as [|n IH]; intros p s; cbn [memtrace_loop];
    [tauto|].
  apply (IH (p + sizeof_mem_ref_t c) (print_mem_ref c s data p)).
Qed.

Lemma print_mem_ref_io s data p :
  io (print_mem_ref c s data p) =
  io s ++ emit (get_field c s data log) [ref_line (read_mem_ref c s p)]
               (faults s)
  /\ faults (print_mem_ref c s data p) = tl (faults s).
Proof.
  unfold print_mem_ref; simpl. rewrite hd_faults. split; reflexivity.
Qed.

Lemma emit_app f a b fl :
  emit f (a ++ b) fl = emit f a fl ++ emit f b (skipn (length a) fl).
Proof.
  revert fl; induction a as [|l a IH]; intros fl; simpl; [reflexivity|].
  rewrite IH. do 3 f_equal. destruct fl; [destruct (length a)|]; reflexivity.
Qed.

Lemma memtrace_loop_io n data p s :
  io (memtrace_loop c n data p s) =
  io s ++ emit (get_field c s data log)
               (map ref_line (read_refs c s p n)) (faults s)
  /\ faults (memtrace_loop c n data p s) = skipn n (faults s).
Proof.
  revert p s; induction n as [|n IH]; intros p s;
    cbn [memtrace_loop read_refs map skipn].
  - cbn [emit]. rewrite app_nil_r; auto.
  - destruct (IH (p + sizeof_mem_ref_t c) (print_mem_ref c s data p))
      as [IH1 IH2].
    rewrite IH1, IH2.
    destruct (print_mem_ref_io s data p) as [E1 E2]. rewrite E1, E2.
    rewrite <- app_assoc.
    rewrite (read_refs_ext s (print_mem_ref c s data p)) by reflexivity.
    split.
    + reflexivity.
    + destruct (faults s); [destruct n|]; reflexivity.
Qed.

End Memtrace_facts.

Section Memtrace_spec.

Variable c : config.
Hypothesis Hc : config_ok c.

Lemma MEM_BUF_SIZE_pos : 0 < MEM_BUF_SIZE c.
Proof.
  unfold MEM_BUF_SIZE. pose proof (sizeof_mem_ref_t_pos c).
  pose proof (cap_pos c Hc). nia.
Qed.

Lemma pending_count_ok s k : thread_ok c s k -> pending_count c s = k.
Proof.
  intros H. unfold pending_count. rewrite (ok_ptr c s k H).
  replace (get_field c s (tls_field s) buf_base + k * sizeof_mem_ref_t c
           - get_field c s (tls_field s) buf_base)
    with (k * sizeof_mem_ref_t c) by lia.
  apply Z.div_mul. pose proof (sizeof_mem_ref_t_pos c); lia.
Qed.

Lemma pending_ok s k :
  thread_ok c s k ->
  pending c s =
  read_refs c s (get_field c s (tls_field s) buf_base) (Z.to_nat k).
Proof. intros H. unfold pending. rewrite (pending_count_ok s k H). reflexivity. Qed.

(** A member of the thread's structure lies outside its buffer. *)
Lemma field_outside_buffer s k f :
  thread_ok c s k ->
  tls_field s + offsetof_per_thread_t c f
  < get_field c s (tls_field s) buf_base
  \/ get_field c s (tls_field s) buf_base + MEM_BUF_SIZE c
     <= tls_field s + offsetof_per_thread_t c f.
Proof.
  intros H. pose proof (offsetof_per_thread_t_range c f).
  destruct (ok_apart c s k H); [left | right]; lia.
Qed.

Lemma field_distinct (D : Z) f g :
  f <> g -> D + offsetof_per_thread_t c f <> D + offsetof_per_thread_t c g.
Proof.
  intros H E. apply H. apply (offsetof_per_thread_t_inj c). lia.
Qed.

(** The memory [memtrace] leaves behind. *)
Lemma memtrace_mem s k :
  thread_ok c s k ->
  mem (memtrace c s) =
  store
    (store (memset (mem s) (get_field c s (tls_field s) buf_base) 0
                   (MEM_BUF_SIZE c))
           (tls_field s + offsetof_per_thread_t c num_refs)
           (to_uint64 (get_field c s (tls_field s) num_refs + k)))
    (tls_field s + offsetof_per_thread_t c buf_ptr)
    (get_field c s (tls_field s) buf_base).
Proof.
  intros H. unfold memtrace, drmgr_get_tls_field.
  rewrite (pending_count_ok s k H : _ / _ = k).
  rewrite (to_int_small k)
    by (pose proof (ok_count c s k H); pose proof (cap_int c Hc); lia).
  set (s1 := fst (dr_fprintf s _ Format_header)).
  set (sL := memtrace_loop c _ _ _ s1).
  destruct (memtrace_loop_frame c (Z.to_nat k) (tls_field s)
              (get_field c s (tls_field s) buf_base) s1)
    as (_ & _ & _ & EM & _ & _).
  fold sL in EM. change (mem s1) with (mem s) in EM.
  unfold set_field, get_field; cbn [mem set_mem]. rewrite EM.
  f_equal; [f_equal; f_equal|].
  - rewrite load_memset_out by (apply (field_outside_buffer s k _ H)).
    reflexivity.
  - rewrite load_store_other by (apply field_distinct; discriminate).
    rewrite load_memset_out by (apply (field_outside_buffer s k _ H)).
    reflexivity.
Qed.


Lemma memtrace_frame s :
  regs (memtrace c s) = regs s /\ slots (memtrace c s) = slots s
  /\ tls_field (memtrace c s) = tls_field s
  /\ heap_next (memtrace c s) = heap_next s
  /\ next_file (memtrace c s) = next_file s.
Proof.
  unfold memtrace, drmgr_get_tls_field, set_field.
  cbn [regs slots tls_field heap_next next_file set_mem].
  match goal with
  | |- context [memtrace_loop c ?n ?d ?p ?s1] =>
      destruct (memtrace_loop_frame c n d p s1) as (E1 & E2 & E3 & _ & E4 & E5)
  end.
  rewrite E1, E2, E3, E4, E5. repeat split; reflexivity.
Qed.

Lemma memtrace_io s k :
  thread_ok c s k ->
  io (memtrace c s) =
  io s ++ emit (get_field c s (tls_field s) log)
               (Format_header :: map ref_line (pending c s)) (faults s)
  /\ faults (memtrace c s) = skipn (S (Z.to_nat k)) (faults s).
Proof.
  intros H. unfold memtrace, drmgr_get_tls_field, set_field.
  cbn [io faults set_mem].
  rewrite (pending_count_ok s k H : _ / _ = k).
  rewrite (to_int_small k)
    by (pose proof (ok_count c s k H); pose proof (cap_int c Hc); lia).
  match goal with
  | |- context [memtrace_loop c ?n ?d ?p ?s1] =>
      destruct (memtrace_loop_io c n d p s1) as (E1 & E2)
  end.
  rewrite E1, E2. rewrite (pending_ok s k H).
  cbn [dr_fprintf fst io faults emit]. rewrite hd_faults, <- app_assoc.
  split.
  - do 2 f_equal.
    rewrite (read_refs_ext c s) by reflexivity. reflexivity.
  - destruct (faults s); [destruct (Z.to_nat k)|]; reflexivity.
Qed.

(** Members of the thread's structure after [memtrace]. *)
Lemma memtrace_fields s k :
  thread_ok c s k ->
  forall f,
    get_field c (memtrace c s) (tls_field s) f =
    match f with
    | buf_ptr => get_field c s (tls_field s) buf_base
    | num_refs => to_uint64 (get_field c s (tls_field s) num_refs + k)
    | _ => get_field c s (tls_field s) f
    end.
Proof.
  intros H f. unfold get_field at 1. rewrite (memtrace_mem s k H).
  destruct f;
    repeat (first
      [ rewrite load_store_same
      | rewrite load_store_other by (apply field_distinct; discriminate)
      | rewrite load_memset_out by (apply (field_outside_buffer s k _ H)) ]);
    reflexivity.
Qed.

Lemma memtrace_zeroed s k a :
  thread_ok c s k ->
  get_field c s (tls_field s) buf_base <= a
  < get_field c s (tls_field s) buf_base + MEM_BUF_SIZE c ->
  load (mem (memtrace c s)) a = 0.
Proof.
  intros H Ha. rewrite (memtrace_mem s k H).
  pose proof (field_outside_buffer s k buf_ptr H).
  pose proof (field_outside_buffer s k num_refs H).
  rewrite !load_store_other by lia.
  apply load_memset_in; assumption.
Qed.

Lemma memtrace_ok s k : thread_ok c s k -> thread_ok c (memtrace c s) 0.
Proof.
  intros H. destruct (memtrace_frame s) as (_ & _ & ET & _).
  pose proof (memtrace_fields s k H) as F.
  destruct H as [H1 H2 H3 H4 H5 H6 H7 H8].
  constructor; rewrite ?ET, ?(F buf_base), ?(F buf_end), ?(F buf_ptr);
    try assumption; lia.
Qed.

End Memtrace_spec.

(** ** What the inserted code does *)

(** [instrument_mem] only adds instructions, at the insertion point. *)
Lemma instrument_mem_app c il i pos w n :
  instrument_mem c il i pos w n =
  (il ++ fst (instrument_mem c [] i pos w n), S (S n)).
Proof.
  unfold instrument_mem, dr_save_reg, dr_restore_reg,
    drutil_insert_get_mem_addr, drmgr_insert_read_tls_field,
    instrlist_insert_mov_immed_ptrsz, instrlist_meta_preinsert.
  cbn [fst app]. rewrite <- !app_assoc. reflexivity.
Qed.

(** The stores of the inlined code: the four members of the record at [p]. *)
Definition write_ref (c : config) (m : memory) (p : Z) (r : mem_ref_t)
  : memory :=
  store
    (store
       (store
          (store m (p + offsetof_mem_ref_t c f_write) (Z.b2z (write r)))
          (p + offsetof_mem_ref_t c f_addr) (addr r))
       (p + offsetof_mem_ref_t c f_size) (size r))
    (p + offsetof_mem_ref_t c f_pc) (pc r).

Section Fast_path.

Variable c : config.
Hypothesis Hc : config_ok c.

Arguments wrap : simpl never.
Arguments offsetof_per_thread_t : simpl never.
Arguments offsetof_mem_ref_t : simpl never.
Arguments sizeof_mem_ref_t : simpl never.
Arguments Z.add : simpl never.
Arguments Z.mul : simpl never.
Arguments Z.eqb : simpl never.
Arguments Z.pow : simpl never.
Arguments Z.modulo : simpl never.
Arguments to_int : simpl never.
Arguments store : simpl never.
Arguments load : simpl never.
Arguments clean_call : simpl never.

Lemma wrap_field s k f :
  thread_ok c s k ->
  wrap c (tls_field s + 0 * 0 + offsetof_per_thread_t c f) =
  tls_field s + offsetof_per_thread_t c f.
Proof.
  intros H. rewrite Z.mul_0_l, Z.add_0_r. apply wrap_small.
  pose proof (offsetof_per_thread_t_range c f).
  pose proof (ok_data c s k H). pose proof (ok_data_end c s k H). lia.
Qed.

Lemma buffer_bounds s k :
  thread_ok c s k ->
  0 <= k * sizeof_mem_ref_t c <= MEM_BUF_SIZE c.
Proof.
  intros H. pose proof (ok_count c s k H). unfold MEM_BUF_SIZE.
  pose proof (sizeof_mem_ref_t_pos c). nia.
Qed.

Lemma wrap_ref s k f :
  thread_ok c s k -> k < MAX_NUM_MEM_REFS c ->
  wrap c (get_field c s (tls_field s) buf_ptr + 0 * 0
          + offsetof_mem_ref_t c f) =
  get_field c s (tls_field s) buf_ptr + offsetof_mem_ref_t c f.
Proof.
  intros H Hk. rewrite Z.mul_0_l, Z.add_0_r. apply wrap_small.
  rewrite (ok_ptr c s k H).
  pose proof (offsetof_mem_ref_t_range c f).
  pose proof (ok_base c s k H). pose proof (ok_buf_end c s k H).
  pose proof (buffer_bounds s k H).
  assert ((k + 1) * sizeof_mem_ref_t c <= MEM_BUF_SIZE c)
    by (unfold MEM_BUF_SIZE; pose proof (sizeof_mem_ref_t_pos c); nia).
  lia.
Qed.

Lemma wrap_next s k :
  thread_ok c s k -> k < MAX_NUM_MEM_REFS c ->
  wrap c (get_field c s (tls_field s) buf_ptr + 0 * 0 + sizeof_mem_ref_t c) =
  get_field c s (tls_field s) buf_ptr + sizeof_mem_ref_t c.
Proof.
  intros H Hk. rewrite Z.mul_0_l, Z.add_0_r. apply wrap_small.
  rewrite (ok_ptr c s k H).
  pose proof (ok_base c s k H). pose proof (ok_buf_end c s k H).
  pose proof (buffer_bounds s k H). pose proof (sizeof_mem_ref_t_pos c).
  assert ((k + 1) * sizeof_mem_ref_t c <= MEM_BUF_SIZE c)
    by (unfold MEM_BUF_SIZE; nia).
  lia.
Qed.

Lemma imm_bool (w : bool) : to_int (Z.b2z w) mod 2 ^ 32 = Z.b2z w.
Proof. destruct w; reflexivity. Qed.

Lemma imm_size i o :
  instr_ok c i ->
  wrap c (to_int (drutil_opnd_mem_size_in_bytes o i)) =
  drutil_opnd_mem_size_in_bytes o i.
Proof.
  intros H. unfold drutil_opnd_mem_size_in_bytes.
  pose proof (size_range c i H o).
  rewrite to_int_small by lia. apply wrap_small.
  destruct (ptr_modulus_cases c) as [[_ ->]|[_ ->]]; lia.
Qed.

Lemma load_write_ref_out m p r a :
  a < p \/ p + sizeof_mem_ref_t c <= a ->
  load (write_ref c m p r) a = load m a.
Proof.
  intros H. unfold write_ref.
  pose proof (offsetof_mem_ref_t_range c f_write).
  pose proof (offsetof_mem_ref_t_range c f_addr).
  pose proof (offsetof_mem_ref_t_range c f_size).
  pose proof (offsetof_mem_ref_t_range c f_pc).
  rewrite !load_store_other by lia. reflexivity.
Qed.

Lemma load_write_ref_in m p r f :
  load (write_ref c m p r) (p + offsetof_mem_ref_t c f) =
  match f with
  | f_write => Z.b2z (write r)
  | f_addr => addr r
  | f_size => size r
  | f_pc => pc r
  end.
Proof.
  unfold write_ref.
  assert (D : forall g, f <> g ->
            p + offsetof_mem_ref_t c f <> p + offsetof_mem_ref_t c g).
  { intros g Hg E. apply Hg. apply (offsetof_mem_ref_t_inj c). lia. }
  destruct f;
    repeat (first [ rewrite load_store_same
                  | rewrite load_store_other by (apply D; discriminate) ]);
    reflexivity.
Qed.

(** The record at [buf_ptr] lies inside the buffer, hence apart from the
    thread's structure. *)
Lemma slot_in_buffer s k :
  thread_ok c s k -> k < MAX_NUM_MEM_REFS c ->
  get_field c s (tls_field s) buf_base
  <= get_field c s (tls_field s) buf_ptr
  /\ get_field c s (tls_field s) buf_ptr + sizeof_mem_ref_t c
     <= get_field c s (tls_field s) buf_base + MEM_BUF_SIZE c.
Proof.
  intros H Hk. rewrite (ok_ptr c s k H).
  pose proof (buffer_bounds s k H). pose proof (sizeof_mem_ref_t_pos c).
  assert ((k + 1) * sizeof_mem_ref_t c <= MEM_BUF_SIZE c)
    by (unfold MEM_BUF_SIZE; nia).
  lia.
Qed.

Lemma field_outside_slot s k f :
  thread_ok c s k -> k < MAX_NUM_MEM_REFS c ->
  tls_field s + offsetof_per_thread_t c f
  < get_field c s (tls_field s) buf_ptr
  \/ get_field c s (tls_field s) buf_ptr + sizeof_mem_ref_t c
     <= tls_field s + offsetof_per_thread_t c f.
Proof.
  intros H Hk. pose proof (slot_in_buffer s k H Hk).
  destruct (field_outside_buffer c s k f H); [left | right]; lia.
Qed.

Lemma run_exec i rest s :
  match i with
  | INSTR_CREATE_jecxz _ | INSTR_CREATE_jmp _ => False
  | _ => True
  end ->
  run c (i :: rest) None s =
  match exec_instr c i s with
  | Some s' => run c rest None s'
  | None => None
  end.
Proof. destruct i; intros H; try contradiction; reflexivity. Qed.

(** One step of symbolic execution, the new state kept as a record of
    its components. *)
Ltac step :=
  rewrite run_exec by exact I;
  cbn [exec_instr opnd_compute_address];
  cbn [reg_get set_reg set_slot set_mem regs slots tls_field mem io faults
       heap_next next_file reg_eqb slot_eqb].

(** The inlined code up to the test: the record is stored at [buf_ptr],
    [buf_ptr] moves one record on, and XCX holds [buf_end + buf_ptr]. *)
Lemma fill_run s k i pos (w : bool) n ref a rest :
  thread_ok c s k -> k < MAX_NUM_MEM_REFS c -> instr_ok c i ->
  ref = (if w then instr_get_dst i pos else instr_get_src i pos) ->
  opnd_compute_address c (regs s) ref = Some a ->
  exists sA,
    run c (firstn 14 (fst (instrument_mem c [] i pos w n)) ++ rest) None s
    = run c rest None sA
    /\ regs sA DR_REG_XCX =
       wrap c (get_field c s (tls_field s) buf_end
               + (get_field c s (tls_field s) buf_ptr + sizeof_mem_ref_t c))
    /\ slots sA SPILL_SLOT_2 = regs s DR_REG_XBX
    /\ slots sA SPILL_SLOT_3 = regs s DR_REG_XCX
    /\ (forall r, r <> DR_REG_XBX -> r <> DR_REG_XCX -> regs sA r = regs s r)
    /\ tls_field sA = tls_field s /\ io sA = io s /\ faults sA = faults s
    /\ heap_next sA = heap_next s /\ next_file sA = next_file s
    /\ mem sA =
       store
         (write_ref c (mem s) (get_field c s (tls_field s) buf_ptr)
            {| write := w; addr := a;
               size := drutil_opnd_mem_size_in_bytes ref i;
               pc := instr_get_app_pc i |})
         (tls_field s + offsetof_per_thread_t c buf_ptr)
         (get_field c s (tls_field s) buf_ptr + sizeof_mem_ref_t c).
Proof.
  intros H Hk Hi Href Ha. unfold instrument_mem. rewrite <- Href.
  destruct ref as [| |b ix sc d sz| |]; try discriminate Ha.
  injection Ha as Ha.
  unfold dr_save_reg, dr_restore_reg, drutil_insert_get_mem_addr,
    drmgr_insert_read_tls_field, instrlist_insert_mov_immed_ptrsz,
    instrlist_meta_preinsert, OPND_CREATE_MEMPTR, OPND_CREATE_MEM32,
    OPND_CREATE_INT32.
  cbn [fst firstn app].
  eexists. split.
  - do 2 step. step. rewrite Ha.
    step. step. rewrite (wrap_field s k _ H).
    change (load (mem s) (tls_field s + offsetof_per_thread_t c buf_ptr))
      with (get_field c s (tls_field s) buf_ptr).
    step. rewrite (wrap_ref s k _ H Hk), imm_bool.
    step. rewrite (wrap_ref s k _ H Hk).
    step. rewrite (wrap_ref s k _ H Hk), (imm_size i _ Hi).
    step. rewrite (wrap_ref s k _ H Hk).
    rewrite (wrap_small c (instr_get_app_pc i)) by (apply (pc_range c i Hi)).
    step. rewrite (wrap_next s k H Hk).
    step. step. rewrite (wrap_field s k _ H).
    step. rewrite (wrap_field s k _ H).
    change (store (store (store (store (mem s) _ _) _ _) _ _) _ _)
      with (write_ref c (mem s) (get_field c s (tls_field s) buf_ptr)
              {| write := w; addr := a;
                 size := drutil_opnd_mem_size_in_bytes
                           (opnd_create_base_disp b ix sc d sz) i;
                 pc := instr_get_app_pc i |}).
    rewrite load_store_other by (apply field_distinct; discriminate).
    rewrite load_write_ref_out by (apply (field_outside_slot s k _ H Hk)).
    change (load (mem s) (tls_field s + offsetof_per_thread_t c buf_end))
      with (get_field c s (tls_field s) buf_end).
    step. rewrite Z.mul_1_r, !Z.add_0_r.
    reflexivity.
  - cbn [regs slots tls_field mem io faults heap_next next_file set_reg
         set_slot set_mem reg_eqb slot_eqb].
    repeat split.
    intros r Hb Hx. destruct r; try reflexivity; congruence.
Qed.

(** The rest of the inlined code: the test and the call through the code
    cache, then the restoring of the two registers. *)
Lemma run_jecxz l rest s :
  run c (INSTR_CREATE_jecxz (opnd_create_instr l) :: rest) None s =
  if regs s DR_REG_XCX =? 0 then run c rest (Some (label_pc c l)) s
  else run c rest None s.
Proof. reflexivity. Qed.

Lemma run_jmp l rest s :
  run c (INSTR_CREATE_jmp (opnd_create_instr l) :: rest) None s =
  run c rest (Some (label_pc c l)) s.
Proof. reflexivity. Qed.

Lemma run_jmp_code_cache rest s :
  run c (INSTR_CREATE_jmp (opnd_create_pc (code_cache c)) :: rest) None s =
  run c rest (Some (regs s DR_REG_XCX)) (set_regs (clean_call c s) (regs s)).
Proof.
  cbn [run]. rewrite Z.eqb_refl. reflexivity.
Qed.

Lemma run_skip i a rest s :
  match i with INSTR_CREATE_label _ => False | _ => True end ->
  run c (i :: rest) (Some a) s = run c rest (Some a) s.
Proof. destruct i; intros H; try contradiction; reflexivity. Qed.

Lemma run_label l a rest s :
  run c (INSTR_CREATE_label l :: rest) (Some a) s =
  if label_pc c l =? a then run c rest None s else run c rest (Some a) s.
Proof. reflexivity. Qed.

Lemma tail_run sA i pos (w : bool) n :
  run c (skipn 14 (fst (instrument_mem c [] i pos w n))) None sA =
  Some
    (if regs sA DR_REG_XCX =? 0 then
       let sB := set_reg sA DR_REG_XCX (label_pc c (S n)) in
       let sC := set_regs (clean_call c sB) (regs sB) in
       set_reg (set_reg sC DR_REG_XBX (slots sC SPILL_SLOT_2))
               DR_REG_XCX (slots sC SPILL_SLOT_3)
     else
       set_reg (set_reg sA DR_REG_XBX (slots sA SPILL_SLOT_2))
               DR_REG_XCX (slots sA SPILL_SLOT_3)).
Proof.
  unfold instrument_mem, dr_save_reg, dr_restore_reg,
    drutil_insert_get_mem_addr, drmgr_insert_read_tls_field,
    instrlist_insert_mov_immed_ptrsz, instrlist_meta_preinsert.
  cbn [fst skipn app].
  rewrite run_jecxz.
  destruct (regs sA DR_REG_XCX =? 0).
  - rewrite (run_skip (INSTR_CREATE_jmp _)) by exact I.
    rewrite run_label, Z.eqb_refl.
    rewrite run_exec by exact I. cbn [exec_instr].
    rewrite run_jmp_code_cache.
    generalize (clean_call c); intros callee.
    cbn [regs set_reg reg_eqb].
    rewrite run_label, Z.eqb_refl.
    rewrite run_exec by exact I. cbn [exec_instr].
    rewrite run_exec by exact I. cbn [exec_instr].
    reflexivity.
  - rewrite run_jmp, run_label.
    destruct (Z.eqb_spec (label_pc c n) (label_pc c (S n))) as [E|_].
    { apply (labels_inj c Hc) in E. lia. }
    rewrite (run_skip (INSTR_CREATE_mov_imm _ _)) by exact I.
    rewrite (run_skip (INSTR_CREATE_jmp _)) by exact I.
    rewrite run_label, Z.eqb_refl.
    rewrite run_exec by exact I. cbn [exec_instr].
    rewrite run_exec by exact I. cbn [exec_instr].
    reflexivity.
Qed.

End Fast_path.

(** ** One inlined sequence, as seen through the thread's data *)

Section Append.

Variable c : config.
Hypothesis Hc : config_ok c.

(** What the thread's data say depends on its memory and tls field only. *)
Lemma thread_ok_ext s s' k :
  tls_field s' = tls_field s -> mem s' = mem s ->
  thread_ok c s k -> thread_ok c s' k.
Proof.
  intros ET EM [H1 H2 H3 H4 H5 H6 H7 H8].
  unfold get_field in *.
  constructor; unfold get_field; rewrite ?ET, ?EM; assumption.
Qed.

Lemma get_field_ext s s' p f :
  mem s' = mem s -> get_field c s' p f = get_field c s p f.
Proof. intros EM; unfold get_field; rewrite EM; reflexivity. Qed.

Lemma pending_ext s s' :
  tls_field s' = tls_field s -> mem s' = mem s ->
  pending c s' = pending c s.
Proof.
  intros ET EM. unfold pending, pending_count, get_field.
  rewrite ET, EM. apply read_refs_ext. intros; rewrite EM; reflexivity.
Qed.

(** The overflow test of the inlined code: [buf_end + buf_ptr] is zero
    exactly when [buf_ptr] has reached the end of the buffer. *)
Lemma overflow_test (B p : Z) :
  0 <= B -> B + MEM_BUF_SIZE c < ptr_modulus c ->
  B <= p <= B + MEM_BUF_SIZE c ->
  (wrap c (wrap c (- (B + MEM_BUF_SIZE c)) + p) =? 0)
  = (p =? B + MEM_BUF_SIZE c).
Proof.
  intros HB HE Hp. unfold wrap.
  rewrite Z.add_mod_idemp_l by (pose proof (ptr_modulus_pos c); lia).
  replace (- (B + MEM_BUF_SIZE c) + p) with (p - (B + MEM_BUF_SIZE c)) by lia.
  destruct (Z.eqb_spec p (B + MEM_BUF_SIZE c)) as [->|Hne].
  - rewrite Z.sub_diag. reflexivity.
  - pose proof (MEM_BUF_SIZE_pos c Hc).
    replace (p - (B + MEM_BUF_SIZE c))
      with (p - (B + MEM_BUF_SIZE c) + 1 * ptr_modulus c - 1 * ptr_modulus c)
      by lia.
    unfold Z.sub at 1. rewrite <- Z.mul_opp_l, Z.mod_add by lia.
    rewrite Z.mod_small by lia.
    apply Z.eqb_neq. lia.
Qed.

(** After the stores of the inlined code the buffer holds one record more. *)
Lemma fill_views s sA k r :
  thread_ok c s k -> k < MAX_NUM_MEM_REFS c ->
  tls_field sA = tls_field s ->
  mem sA =
    store (write_ref c (mem s) (get_field c s (tls_field s) buf_ptr) r)
          (tls_field s + offsetof_per_thread_t c buf_ptr)
          (get_field c s (tls_field s) buf_ptr + sizeof_mem_ref_t c) ->
  thread_ok c sA (k + 1)
  /\ (forall f, f <> buf_ptr ->
        get_field c sA (tls_field s) f = get_field c s (tls_field s) f)
  /\ pending c sA = pending c s ++ [r].
Proof.
  intros H Hk ET EM.
  assert (F : forall f, f <> buf_ptr ->
            get_field c sA (tls_field s) f = get_field c s (tls_field s) f).
  { intros f Hf. unfold get_field at 1. rewrite EM.
    rewrite load_store_other by (apply field_distinct; assumption).
    rewrite load_write_ref_out by (apply (field_outside_slot c s k _ H Hk)).
    reflexivity. }
  assert (P : get_field c sA (tls_field s) buf_ptr =
              get_field c s (tls_field s) buf_base
              + (k + 1) * sizeof_mem_ref_t c).
  { unfold get_field at 1. rewrite EM, load_store_same.
    rewrite (ok_ptr c s k H). lia. }
  assert (OK : thread_ok c sA (k + 1)).
  { destruct H as [H1 H2 H3 H4 H5 H6 H7 H8].
    constructor; rewrite ?ET, ?(F buf_base), ?(F buf_end) by discriminate;
      try assumption; lia. }
  split; [exact OK|]. split; [exact F|].
  rewrite (pending_ok c sA (k + 1) OK), (pending_ok c s k H).
  rewrite ET, (F buf_base) by discriminate.
  pose proof (ok_count c s k H) as Hk0.
  replace (Z.to_nat (k + 1)) with (S (Z.to_nat k)) by lia.
  rewrite read_refs_snoc. rewrite Z2Nat.id by lia.
  rewrite <- (ok_ptr c s k H).
  f_equal.
  - apply read_refs_ext. intros a Ha. rewrite Z2Nat.id in Ha by lia.
    rewrite <- (ok_ptr c s k H) in Ha. rewrite EM.
    pose proof (field_outside_buffer c s k buf_ptr H).
    pose proof (slot_in_buffer c s k H Hk).
    pose proof (sizeof_mem_ref_t_pos c).
    rewrite load_store_other by lia.
    apply load_write_ref_out. lia.
  - f_equal. unfold read_mem_ref, get_ref_field. rewrite EM.
    pose proof (field_outside_slot c s k buf_ptr H Hk) as Ho.
    pose proof (offsetof_mem_ref_t_range c f_write).
    pose proof (offsetof_mem_ref_t_range c f_addr).
    pose proof (offsetof_mem_ref_t_range c f_size).
    pose proof (offsetof_mem_ref_t_range c f_pc).
    rewrite !load_store_other by lia.
    rewrite !load_write_ref_in.
    destruct r as [w a z p]; destruct w; reflexivity.
Qed.

End Append.

(** What one run of the inlined code for the reference [r] does to a thread
    with [k] records in its buffer.  [full] says that [r] fills the buffer,
    in which case the code cache is entered and [memtrace] runs. *)
Record appended (c : config) (s s' : thread_t) (r : mem_ref_t) (k : Z)
  : Prop := {
  ap_regs : forall x, regs s' x = regs s x;
  ap_tls : tls_field s' = tls_field s;
  ap_static : forall f, f <> buf_ptr -> f <> num_refs ->
     get_field c s' (tls_field s) f = get_field c s (tls_field s) f;
  ap_ok :
    thread_ok c s' (if k + 1 =? MAX_NUM_MEM_REFS c then 0 else k + 1);
  ap_io :
    io s' =
    io s ++
    (if k + 1 =? MAX_NUM_MEM_REFS c
     then emit (get_field c s (tls_field s) log)
               (Format_header :: map ref_line (pending c s ++ [r]))
               (faults s)
     else []);
  ap_faults :
    faults s' =
    if k + 1 =? MAX_NUM_MEM_REFS c
    then skipn (S (Z.to_nat (k + 1))) (faults s) else faults s;
  ap_pending :
    pending c s' =
    if k + 1 =? MAX_NUM_MEM_REFS c then [] else pending c s ++ [r];
  ap_num_refs :
    get_field c s' (tls_field s) num_refs =
    if k + 1 =? MAX_NUM_MEM_REFS c
    then to_uint64 (get_field c s (tls_field s) num_refs + (k + 1))
    else get_field c s (tls_field s) num_refs
}.

Section Block.

Variable c : config.
Hypothesis Hc : config_ok c.

Lemma pending_nil s : thread_ok c s 0 -> pending c s = [].
Proof. intros H. rewrite (pending_ok c s 0 H). reflexivity. Qed.

Theorem instrument_mem_run s k i pos (w : bool) n ref a :
  thread_ok c s k -> k < MAX_NUM_MEM_REFS c -> instr_ok c i ->
  ref = (if w then instr_get_dst i pos else instr_get_src i pos) ->
  opnd_compute_address c (regs s) ref = Some a ->
  exists s',
    run c (fst (instrument_mem c [] i pos w n)) None s = Some s'
    /\ appended c s s'
         {| write := w; addr := a;
            size := drutil_opnd_mem_size_in_bytes ref i;
            pc := instr_get_app_pc i |} k.
Proof.
  intros H Hk Hi Href Ha.
  set (r := {| write := w; addr := a;
               size := drutil_opnd_mem_size_in_bytes ref i;
               pc := instr_get_app_pc i |}).
  rewrite <- (firstn_skipn 14 (fst (instrument_mem c [] i pos w n))).
  destruct (fill_run c s k i pos w n ref a
              (skipn 14 (fst (instrument_mem c [] i pos w n)))
              H Hk Hi Href Ha)
    as (sA & Hrun & Hcx & H2 & H3 & Hrs & ET & EIO & EF & _ & _ & EM).
  fold r in EM.
  rewrite Hrun, (tail_run c Hc). eexists. split; [reflexivity|].
  destruct (fill_views c s sA k r H Hk ET EM) as (OK & F & PE).
  (* the test *)
  rewrite Hcx, (ok_end c s k H).
  rewrite (overflow_test c Hc)
    by (try apply (ok_base c s k H); try apply (ok_buf_end c s k H);
        pose proof (slot_in_buffer c s k H Hk);
        pose proof (sizeof_mem_ref_t_pos c); lia).
  assert (ET' : (get_field c s (tls_field s) buf_ptr + sizeof_mem_ref_t c
                 =? get_field c s (tls_field s) buf_base + MEM_BUF_SIZE c)
                = (k + 1 =? MAX_NUM_MEM_REFS c)).
  { rewrite (ok_ptr c s k H). unfold MEM_BUF_SIZE.
    pose proof (sizeof_mem_ref_t_pos c).
    destruct (Z.eqb_spec (k + 1) (MAX_NUM_MEM_REFS c)) as [E|E].
    - apply Z.eqb_eq. rewrite <- E. lia.
    - apply Z.eqb_neq. intros E'. apply E. nia. }
  rewrite ET'. clear ET'.
  destruct (k + 1 =? MAX_NUM_MEM_REFS c) eqn:EB.
  - (* the buffer is full: memtrace runs in the code cache *)
    cbv zeta. rewrite !clean_call_eq.
    assert (HB :
      tls_field (set_reg sA DR_REG_XCX (label_pc c (S n))) = tls_field s
      /\ mem (set_reg sA DR_REG_XCX (label_pc c (S n))) = mem sA
      /\ io (set_reg sA DR_REG_XCX (label_pc c (S n))) = io s
      /\ faults (set_reg sA DR_REG_XCX (label_pc c (S n))) = faults s
      /\ slots (set_reg sA DR_REG_XCX (label_pc c (S n))) SPILL_SLOT_2
         = regs s DR_REG_XBX
      /\ slots (set_reg sA DR_REG_XCX (label_pc c (S n))) SPILL_SLOT_3
         = regs s DR_REG_XCX
      /\ (forall x, x <> DR_REG_XBX -> x <> DR_REG_XCX ->
            regs (set_reg sA DR_REG_XCX (label_pc c (S n))) x = regs s x)).
    { repeat split; try assumption.
      intros x Hb Hx. cbn [regs set_reg].
      destruct x; cbn [reg_eqb]; try congruence; apply Hrs; assumption. }
    revert HB. generalize (set_reg sA DR_REG_XCX (label_pc c (S n))).
    intros sB (TB & MB & IB & FB & S2 & S3 & RB).
    assert (OKB : thread_ok c sB (k + 1)).
    { apply (thread_ok_ext c sA); [rewrite TB; symmetry; exact ET | exact MB
                                  | exact OK]. }
    destruct (memtrace_frame c sB) as (MR & MS & MT & _ & _).
    destruct (memtrace_io c Hc sB (k + 1) OKB) as (MIO & MF).
    pose proof (memtrace_fields c Hc sB (k + 1) OKB) as MFld.
    pose proof (memtrace_ok c Hc sB (k + 1) OKB) as MOK.
    rewrite TB in MFld.
    revert MR MS MT MIO MF MFld MOK. generalize (memtrace c sB).
    intros sM MR MS MT MIO MF MFld MOK.
    constructor; rewrite ?EB;
      cbn [regs tls_field io faults set_reg set_regs slots].
    + intros x. rewrite MS.
      destruct x; cbn [reg_eqb]; try (rewrite ?S2, ?S3; reflexivity);
        apply RB; discriminate.
    + rewrite MT. exact TB.
    + intros f Hf1 Hf2.
      etransitivity; [|apply (F f Hf1)].
      transitivity (get_field c sM (tls_field s) f); [reflexivity|].
      rewrite MFld.
      destruct f; try congruence; apply (get_field_ext c sA sB _ _ MB).
    + eapply thread_ok_ext; [| |exact MOK]; reflexivity.
    + rewrite MIO, IB, FB, TB.
      rewrite (get_field_ext c sA sB _ _ MB), (F log) by discriminate.
      rewrite (pending_ext c sA sB) by (rewrite ?TB, ?ET; auto).
      rewrite PE. reflexivity.
    + rewrite MF, FB. reflexivity.
    + etransitivity; [|apply (pending_nil sM MOK)].
      apply pending_ext; reflexivity.
    + transitivity (get_field c sM (tls_field s) num_refs); [reflexivity|].
      rewrite MFld, (get_field_ext c sA sB _ _ MB).
      rewrite (F num_refs) by discriminate. reflexivity.
  - (* there is room left *)
    constructor; rewrite ?EB; cbn [regs tls_field io faults set_reg slots].
    + intros x. destruct x; cbn [reg_eqb]; try (rewrite ?H2, ?H3; reflexivity);
        apply Hrs; discriminate.
    + exact ET.
    + intros f Hf1 Hf2. etransitivity; [|apply (F f Hf1)]. reflexivity.
    + eapply thread_ok_ext; [| |exact OK]; reflexivity.
    + rewrite EIO, app_nil_r. reflexivity.
    + exact EF.
    + etransitivity; [|exact PE]. apply pending_ext; reflexivity.
    + etransitivity; [|apply (F num_refs); discriminate]. reflexivity.
Qed.

End Block.

(** ** Sequences of references *)

(** A thread that can take the next reference: no write to its log fails,
    and its buffer has room. *)
Record ready (c : config) (s : thread_t) : Prop := {
  rd_faults : faults s = [];
  rd_ok : thread_ok c s (pending_count c s);
  rd_room : pending_count c s < MAX_NUM_MEM_REFS c;
  rd_num_refs : 0 <= get_field c s (tls_field s) num_refs < 2 ^ 64
}.

(** From [s] to [s'] the thread has recorded the references [rs], in this
    order, and called [memtrace] each time its buffer became full. *)
Record traced (c : config) (s s' : thread_t) (rs : list mem_ref_t)
  : Prop := {
  tr_tls : tls_field s' = tls_field s;
  tr_static : forall f, f <> buf_ptr -> f <> num_refs ->
     get_field c s' (tls_field s) f = get_field c s (tls_field s) f;
  tr_ready : ready c s';
  tr_pending :
    pending_count c s' =
    (pending_count c s + Z.of_nat (length rs)) mod MAX_NUM_MEM_REFS c;
  tr_recorded : recorded c s' = recorded c s ++ rs;
  tr_flushes :
    Z.of_nat (flush_calls c s') =
    Z.of_nat (flush_calls c s)
    + (pending_count c s + Z.of_nat (length rs)) / MAX_NUM_MEM_REFS c;
  tr_num_refs :
    get_field c s' (tls_field s) num_refs =
    to_uint64
      (get_field c s (tls_field s) num_refs
       + MAX_NUM_MEM_REFS c
         * ((pending_count c s + Z.of_nat (length rs))
            / MAX_NUM_MEM_REFS c))
}.

Lemma to_uint64_idem a b : to_uint64 (to_uint64 a + b) = to_uint64 (a + b).
Proof. unfold to_uint64. apply Z.add_mod_idemp_l. discriminate. Qed.

Lemma to_uint64_small a : 0 <= a < 2 ^ 64 -> to_uint64 a = a.
Proof. intros; apply Z.mod_small; assumption. Qed.

Lemma div_step (m k a b : Z) :
  0 < m -> (k + a) / m + ((k + a) mod m + b) / m = (k + a + b) / m.
Proof.
  intros Hm.
  rewrite (Z.div_mod (k + a) m) at 3 by lia.
  rewrite <- Z.add_assoc, (Z.mul_comm m), Z.div_add_l by lia.
  reflexivity.
Qed.

Section Traced.

Variable c : config.
Hypothesis Hc : config_ok c.

Lemma ready_count s : ready c s -> 0 <= pending_count c s.
Proof. intros H. apply (ok_count c s _ (rd_ok c s H)). Qed.

Lemma traced_refl s : ready c s -> traced c s s [].
Proof.
  intros H. pose proof (rd_num_refs c s H) as Hn.
  pose proof (ready_count s H). pose proof (rd_room c s H).
  constructor; cbn [length Z.of_nat]; rewrite ?Z.add_0_r, ?app_nil_r;
    try reflexivity; try assumption.
  - symmetry. apply Z.mod_small. lia.
  - rewrite Z.div_small by lia. lia.
  - rewrite Z.div_small by lia. rewrite Z.mul_0_r, Z.add_0_r.
    symmetry. apply to_uint64_small. assumption.
Qed.

Lemma traced_trans s s1 s2 a b :
  traced c s s1 a -> traced c s1 s2 b -> traced c s s2 (a ++ b).
Proof.
  intros [A1 A2 A3 A4 A5 A6 A7] [B1 B2 B3 B4 B5 B6 B7].
  pose proof (cap_pos c Hc) as Hm.
  rewrite A1 in *.
  constructor; rewrite ?length_app, ?Nat2Z.inj_add, ?Z.add_assoc.
  - congruence.
  - intros f H1 H2. rewrite B2, A2 by assumption. reflexivity.
  - assumption.
  - rewrite B4, A4. rewrite Z.add_mod_idemp_l by lia. reflexivity.
  - rewrite B5, A5, app_assoc. reflexivity.
  - rewrite B6, A6, A4, <- Z.add_assoc. f_equal.
    apply div_step. assumption.
  - rewrite B7, A7, A4, to_uint64_idem. f_equal.
    rewrite <- Z.add_assoc. f_equal.
    rewrite <- Z.mul_add_distr_l. f_equal. apply div_step. assumption.
Qed.

End Traced.

(** ** The code in front of one instruction *)

Section Insert.

Variable c : config.
Hypothesis Hc : config_ok c.

(** Code that runs to its end is followed by the code after it. *)
Lemma run_app il1 il2 t s s1 :
  run c il1 t s = Some s1 -> run c (il1 ++ il2) t s = run c il2 None s1.
Proof.
  revert t s; induction il1 as [|i il1 IH]; intros t s H.
  - destruct t; [discriminate|]. injection H as ->. reflexivity.
  - cbn [app]. destruct t as [a|].
    + destruct i; cbn [run] in H |- *;
        try (apply IH; exact H).
      destruct (label_pc c id =? a); apply IH; exact H.
    + destruct i; cbn [run] in H |- *;
        repeat match goal with
          | H : match ?x with _ => _ end = Some _ |- _ =>
              destruct x eqn:?; try discriminate H
          | H : (if ?x then _ else _) = Some _ |- _ =>
              destruct x eqn:?; try discriminate H
          | p : (_ * _)%type |- _ => destruct p
          | |- match ?x with _ => _ end = _ => destruct x eqn:?
          end;
        try discriminate; try (apply IH; exact H).
Qed.

(** One inlined sequence, seen as one more recorded reference. *)
Lemma traced_one s s' r :
  ready c s -> appended c s s' r (pending_count c s) -> traced c s s' [r].
Proof.
  intros R A. set (k := pending_count c s) in *.
  pose proof (cap_pos c Hc) as Hm.
  pose proof (ready_count c s R) as Hk0. fold k in Hk0.
  pose proof (rd_room c s R) as Hk1. fold k in Hk1.
  pose proof (rd_num_refs c s R) as Hn.
  destruct A as [A1 A2 A3 A4 A5 A6 A7 A8].
  rewrite (rd_faults c s R) in A5, A6.
  assert (LG : get_field c s' (tls_field s') log
               = get_field c s (tls_field s) log)
    by (rewrite A2; apply A3; discriminate).
  revert A4 A5 A6 A7 A8.
  destruct (Z.eqb_spec (k + 1) (MAX_NUM_MEM_REFS c)) as [E|E];
    intros A4 A5 A6 A7 A8;
    pose proof (pending_count_ok c s' _ A4) as PC.
  - constructor; cbn [length]; change (Z.of_nat 1) with 1; fold k;
      rewrite ?PC; try assumption.
    + constructor; rewrite ?PC, ?A2, ?A8; try assumption; try lia.
      unfold to_uint64. apply Z.mod_pos_bound. reflexivity.
    + rewrite E, Z.mod_same by lia. reflexivity.
    + unfold recorded, log_refs, thread_log, file_contents.
      rewrite LG, A5, A7, written_app, written_emit_ok, line_refs_app.
      cbn [line_refs]. rewrite line_refs_ref_line, app_nil_r, app_assoc.
      reflexivity.
    + unfold flush_calls. rewrite LG, A5, header_calls_app.
      cbn [emit header_calls io_line io_file]. rewrite Z.eqb_refl.
      rewrite header_calls_emit_refs, E, Z.div_same by lia. lia.
    + rewrite A8, E, Z.div_same by lia. f_equal. lia.
  - constructor; cbn [length]; change (Z.of_nat 1) with 1; fold k;
      rewrite ?PC; try assumption.
    + constructor; rewrite ?PC, ?A2, ?A8; try assumption; lia.
    + rewrite Z.mod_small by lia. reflexivity.
    + unfold recorded, log_refs, thread_log, file_contents.
      rewrite LG, A5, A7, app_nil_r, app_assoc. reflexivity.
    + unfold flush_calls. rewrite LG, A5, app_nil_r.
      rewrite Z.div_small by lia. lia.
    + rewrite A8, Z.div_small by lia.
      rewrite Z.mul_0_r, Z.add_0_r. symmetry. apply to_uint64_small. exact Hn.
Qed.


Lemma access_ext i rs rs' w o :
  (forall x, rs' x = rs x) -> access c i rs' w o = access c i rs w o.
Proof.
  intros H. unfold access. destruct o; try reflexivity.
  cbn [opnd_compute_address].
  assert (G : forall r, reg_get rs' r = reg_get rs r)
    by (intros r; destruct r; cbn [reg_get]; auto).
  rewrite !G. reflexivity.
Qed.

Lemma flat_map_access_ext i rs rs' w os :
  (forall x, rs' x = rs x) ->
  flat_map (access c i rs' w) os = flat_map (access c i rs w) os.
Proof.
  intros H. induction os as [|o os IH]; cbn [flat_map]; [reflexivity|].
  rewrite IH, (access_ext i rs rs' w o H). reflexivity.
Qed.

Lemma skipn_nth (A : Type) (d : A) (l : list A) (n : nat) :
  (n < length l)%nat -> skipn n l = nth n l d :: skipn (S n) l.
Proof.
  revert n; induction l as [|x l IH]; intros n H; cbn [length] in H.
  - lia.
  - destruct n; [reflexivity|]. cbn [skipn nth]. apply IH. lia.
Qed.

(** The operands of [instr] that the loops of [event_bb_insert] go through,
    and the body of those loops. *)
Definition operands (w : bool) (instr : instr_t) : list opnd_t :=
  if w then instr_dsts instr else instr_srcs instr.

Definition operand (w : bool) (instr : instr_t) (i : nat) : opnd_t :=
  if w then instr_get_dst instr i else instr_get_src instr i.

Definition loop_body (w : bool) (instr : instr_t) (i : nat)
  (st : instrlist_t * nat) : instrlist_t * nat :=
  if opnd_is_memory_reference (operand w instr i)
  then instrument_mem c (fst st) instr i w (snd st)
  else st.

Lemma operands_run instr w :
  instr_ok c instr ->
  forall cnt i0 il n s,
    (i0 + cnt = length (operands w instr))%nat -> ready c s ->
    exists code n',
      for_loop i0 cnt (loop_body w instr) (il, n) = (il ++ code, n')
      /\ exists s',
           run c code None s = Some s'
           /\ (forall x, regs s' x = regs s x)
           /\ traced c s s'
                (flat_map (access c instr (regs s) w)
                          (skipn i0 (operands w instr))).
Proof.
  intros Hi. induction cnt as [|cnt IH]; intros i0 il n s Hlen R.
  - exists [], n. cbn [for_loop]. rewrite app_nil_r. split; [reflexivity|].
    exists s. rewrite skipn_all2 by lia. cbn [flat_map run].
    split; [reflexivity|]. split; [reflexivity|].
    apply (traced_refl c s R).
  - cbn [for_loop].
    rewrite (skipn_nth _ (opnd_create_reg DR_REG_NULL)) by lia.
    assert (EO : nth i0 (operands w instr) (opnd_create_reg DR_REG_NULL)
                 = operand w instr i0)
      by (unfold operands, operand; destruct w; reflexivity).
    rewrite EO. cbn [flat_map]. unfold loop_body at 2. cbn [fst snd].
    destruct (opnd_is_memory_reference (operand w instr i0)) eqn:EM.
    + destruct (operand w instr i0) as [| |b ix sc d sz| |] eqn:ER;
        try discriminate EM.
      rewrite instrument_mem_app.
      destruct (instrument_mem_run c Hc s (pending_count c s) instr i0 w n
                  (opnd_create_base_disp b ix sc d sz)
                  (wrap c (reg_get (regs s) b + reg_get (regs s) ix * sc + d))
                  (rd_ok c s R) (rd_room c s R) Hi (eq_sym ER) eq_refl)
        as (s1 & Hrun1 & A).
      pose proof (traced_one s s1 _ R A) as T1.
      destruct (IH (S i0) (il ++ fst (instrument_mem c [] instr i0 w n))
                  (S (S n)) s1 ltac:(lia) (tr_ready c s s1 _ T1))
        as (code & n' & Hloop & s2 & Hrun2 & Hregs2 & T2).
      exists (fst (instrument_mem c [] instr i0 w n) ++ code), n'.
      split; [rewrite app_assoc; exact Hloop|].
      exists s2. split; [|split].
      * rewrite (run_app _ _ _ _ _ Hrun1). exact Hrun2.
      * intros x. rewrite Hregs2. apply (ap_regs c s s1 _ _ A).
      * rewrite (flat_map_access_ext instr (regs s) (regs s1))
          in T2 by (apply (ap_regs c s s1 _ _ A)).
        unfold access at 1. cbn [opnd_compute_address].
        apply (traced_trans c Hc s s1 s2 _ _ T1 T2).
    + destruct (IH (S i0) il n s ltac:(lia) R)
        as (code & n' & Hloop & s2 & Hrun2 & Hregs2 & T2).
      exists code, n'. split; [exact Hloop|].
      exists s2. split; [exact Hrun2|]. split; [exact Hregs2|].
      unfold access at 1.
      destruct (operand w instr i0); try discriminate EM; exact T2.
Qed.

(** [event_bb_insert] puts its code after what the list already holds. *)
Theorem event_bb_insert_run instr n s :
  instr_ok c instr -> ready c s ->
  exists s',
    run c (fst (event_bb_insert c [] instr n)) None s = Some s'
    /\ (forall x, regs s' x = regs s x)
    /\ traced c s s' (accesses c instr (regs s)).
Proof.
  intros Hi R. unfold event_bb_insert, accesses.
  destruct (instr_get_app_pc instr =? NULL).
  { exists s. cbn [fst run]. split; [reflexivity|]. split; [reflexivity|].
    apply (traced_refl c s R). }
  change (fun (i : nat) (st : instrlist_t * nat) =>
            if opnd_is_memory_reference (instr_get_src instr i)
            then instrument_mem c (fst st) instr i false (snd st) else st)
    with (loop_body false instr).
  change (fun (i : nat) (st : instrlist_t * nat) =>
            if opnd_is_memory_reference (instr_get_dst instr i)
            then instrument_mem c (fst st) instr i true (snd st) else st)
    with (loop_body true instr).
  change (instr_srcs instr) with (skipn 0 (operands false instr)).
  change (instr_dsts instr) with (skipn 0 (operands true instr)).
  change (instr_num_srcs instr) with (length (operands false instr)).
  change (instr_num_dsts instr) with (length (operands true instr)).
  match goal with
  | |- context [for_loop 0 (length (operands true instr)) _ ?st] =>
      assert (S1 : exists code n1 s1,
                 st = (code, n1)
                 /\ run c code None s = Some s1
                 /\ (forall x, regs s1 x = regs s x)
                 /\ traced c s s1
                      (if instr_reads_memory instr
                       then flat_map (access c instr (regs s) false)
                              (skipn 0 (operands false instr))
                       else []))
  end.
  { destruct (instr_reads_memory instr).
    - destruct (operands_run instr false Hi _ 0%nat [] n s eq_refl R)
        as (code & n1 & E & s1 & Hr & Hg & T).
      exists code, n1, s1. split; [exact E|]. split; [exact Hr|].
      split; [exact Hg|exact T].
    - exists [], n, s. split; [reflexivity|]. split; [reflexivity|].
      split; [reflexivity|]. apply (traced_refl c s R). }
  destruct S1 as (code1 & n1 & s1 & E1 & Hr1 & Hg1 & T1). rewrite E1.
  destruct (instr_writes_memory instr).
  - destruct (operands_run instr true Hi _ 0%nat code1 n1 s1 eq_refl
                (tr_ready c s s1 _ T1))
      as (code & n2 & E & s2 & Hr & Hg & T).
    rewrite E. cbn [fst]. exists s2. split; [|split].
    + rewrite (run_app _ _ _ _ _ Hr1). exact Hr.
    + intros x. rewrite Hg. apply Hg1.
    + rewrite (flat_map_access_ext instr (regs s) (regs s1)) in T by exact Hg1.
      apply (traced_trans c Hc s s1 s2 _ _ T1 T).
  - cbn [fst]. exists s1. rewrite app_nil_r.
    split; [exact Hr1|]. split; [exact Hg1|exact T1].
Qed.

End Insert.

(** ** A thread from start to exit *)

(** A thread about to start: the blocks it will be given fit the address
    space, nothing has been printed, and no write will fail. *)
Record fresh (c : config) (s0 : thread_t) : Prop := {
  fr_heap_lo : 0 <= heap_next s0;
  fr_heap_hi :
    heap_next s0 + sizeof_per_thread_t c + MEM_BUF_SIZE c < ptr_modulus c;
  fr_io : io s0 = [];
  fr_faults : faults s0 = []
}.

Section Thread.

Variable c : config.
Hypothesis Hc : config_ok c.

Lemma init_frame s0 :
  regs (event_thread_init c s0) = regs s0
  /\ slots (event_thread_init c s0) = slots s0
  /\ tls_field (event_thread_init c s0) = heap_next s0
  /\ io (event_thread_init c s0) = io s0
  /\ faults (event_thread_init c s0) = faults s0.
Proof. repeat split. Qed.

(** The members of the thread's structure after [event_thread_init]. *)
Lemma init_fields s0 f :
  get_field c (event_thread_init c s0) (heap_next s0) f =
  match f with
  | buf_ptr | buf_base => heap_next s0 + sizeof_per_thread_t c
  | buf_end =>
      wrap c (- (heap_next s0 + sizeof_per_thread_t c + MEM_BUF_SIZE c))
  | num_refs => 0
  | log => next_file s0
  | cache => get_field c s0 (heap_next s0) cache
  end.
Proof.
  unfold event_thread_init, dr_thread_alloc, log_file_open,
    drmgr_set_tls_field, set_field, get_field.
  cbn [mem set_mem heap_next next_file tls_field].
  destruct f;
    repeat (first
      [ rewrite load_store_same
      | rewrite load_store_other by (apply field_distinct; discriminate) ]);
    reflexivity.
Qed.

Lemma init_ok s0 :
  0 <= heap_next s0 ->
  heap_next s0 + sizeof_per_thread_t c + MEM_BUF_SIZE c < ptr_modulus c ->
  thread_ok c (event_thread_init c s0) 0.
Proof.
  intros H0 H1. destruct (init_frame s0) as (_ & _ & ET & _ & _).
  pose proof (MEM_BUF_SIZE_pos c Hc).
  pose proof (offsetof_per_thread_t_range c buf_ptr).
  pose proof (cap_pos c Hc).
  constructor; rewrite ?ET, ?init_fields; lia.
Qed.


(** Changing the registers changes nothing of what the thread has recorded. *)
Lemma ready_set_regs s rs : ready c s -> ready c (set_regs s rs).
Proof.
  intros [R1 R2 R3 R4].
  constructor; try assumption.
  apply (thread_ok_ext c s); [reflexivity | reflexivity | exact R2].
Qed.

Lemma recorded_set_regs s rs : recorded c (set_regs s rs) = recorded c s.
Proof.
  unfold recorded, log_refs, thread_log, file_contents.
  rewrite (pending_ext c s (set_regs s rs)) by reflexivity. reflexivity.
Qed.

Lemma traced_set_regs_r s s' rs l :
  traced c s s' l -> traced c s (set_regs s' rs) l.
Proof.
  intros [T1 T2 T3 T4 T5 T6 T7].
  constructor; try assumption.
  - apply ready_set_regs; assumption.
  - rewrite recorded_set_regs. assumption.
Qed.

Lemma traced_set_regs_l s s' rs l :
  traced c (set_regs s rs) s' l -> traced c s s' l.
Proof.
  intros [T1 T2 T3 T4 T5 T6 T7].
  rewrite recorded_set_regs in T5.
  constructor; assumption.
Qed.

Lemma accesses_ext i rs rs' :
  (forall x, rs' x = rs x) -> accesses c i rs' = accesses c i rs.
Proof.
  intros H. unfold accesses.
  rewrite !(flat_map_access_ext c i rs rs') by exact H. reflexivity.
Qed.

Lemma run_accesses_ext prog :
  Forall (instr_ok c) prog ->
  forall rs rs',
    (forall x, rs' x = rs x) ->
    run_accesses c prog rs' = run_accesses c prog rs.
Proof.
  induction 1 as [|i prog Hi _ IH]; intros rs rs' H; cbn [run_accesses];
    [reflexivity|].
  rewrite (accesses_ext i rs rs' H).
  rewrite (IH (app_effect i rs) (app_effect i rs')
             (effect_ext c i Hi rs rs' H)).
  reflexivity.
Qed.

(** A run of instrumented instructions records the references of the
    application instructions, in program order. *)
Theorem thread_run_traced prog :
  Forall (instr_ok c) prog ->
  forall n s,
    ready c s ->
    exists s',
      thread_run c prog n s = Some s'
      /\ traced c s s' (run_accesses c prog (regs s)).
Proof.
  induction 1 as [|i prog Hi Hp IH]; intros n s R.
  - exists s. split; [reflexivity|]. apply (traced_refl c s R).
  - cbn [thread_run run_accesses].
    destruct (event_bb_insert_run c Hc i n s Hi R) as (s1 & Hr & Hg & T1).
    destruct (event_bb_insert c [] i n) as [il n1]. cbn [fst] in Hr.
    rewrite Hr.
    destruct (IH n1 (exec_app i s1)
                (ready_set_regs s1 _ (tr_ready c s s1 _ T1)))
      as (s2 & Hr2 & T2).
    exists s2. split; [exact Hr2|].
    apply (traced_trans c Hc s s1 s2 _ _ T1).
    apply traced_set_regs_l in T2.
    unfold exec_app in T2. cbn [regs set_regs] in T2.
    rewrite (run_accesses_ext prog Hp (app_effect i (regs s))
               (app_effect i (regs s1))
               (effect_ext c i Hi (regs s) (regs s1) Hg)) in T2.
    exact T2.
Qed.


Lemma init_ready s0 :
  fresh c s0 ->
  ready c (event_thread_init c s0)
  /\ pending_count c (event_thread_init c s0) = 0
  /\ recorded c (event_thread_init c s0) = []
  /\ flush_calls c (event_thread_init c s0) = O
  /\ get_field c (event_thread_init c s0) (heap_next s0) num_refs = 0.
Proof.
  intros [F1 F2 F3 F4].
  pose proof (init_ok s0 F1 F2) as OK.
  pose proof (pending_count_ok c _ _ OK) as PC.
  destruct (init_frame s0) as (_ & _ & ET & EIO & EF).
  assert (N0 : get_field c (event_thread_init c s0) (heap_next s0) num_refs = 0)
    by (rewrite init_fields; reflexivity).
  split; [|split; [exact PC|split; [|split; [|exact N0]]]].
  - constructor; rewrite ?PC, ?ET, ?N0; try assumption.
    + apply (cap_pos c Hc).
    + split; [lia | reflexivity].
  - unfold recorded. rewrite (pending_nil c _ OK), app_nil_r.
    unfold log_refs, thread_log, file_contents. rewrite EIO, F3. reflexivity.
  - unfold flush_calls. rewrite EIO, F3. reflexivity.
Qed.

(** What [memtrace] prints when no write fails. *)
Lemma memtrace_log s k :
  thread_ok c s k -> faults s = [] ->
  thread_log c (memtrace c s) =
  thread_log c s ++ Format_header :: map ref_line (pending c s).
Proof.
  intros OK F. unfold thread_log, file_contents.
  destruct (memtrace_frame c s) as (_ & _ & ET & _ & _).
  destruct (memtrace_io c Hc s k OK) as (EIO & _).
  rewrite ET, (memtrace_fields c Hc s k OK log), EIO, F, written_app.
  rewrite written_emit_ok. reflexivity.
Qed.

Lemma memtrace_flush_calls s k :
  thread_ok c s k ->
  flush_calls c (memtrace c s) = S (flush_calls c s).
Proof.
  intros OK. unfold flush_calls.
  destruct (memtrace_frame c s) as (_ & _ & ET & _ & _).
  destruct (memtrace_io c Hc s k OK) as (EIO & _).
  rewrite ET, (memtrace_fields c Hc s k OK log), EIO, header_calls_app.
  cbn [emit header_calls io_line io_file]. rewrite Z.eqb_refl.
  rewrite header_calls_emit_refs. lia.
Qed.

(** The flush at thread exit: everything recorded is in the log. *)
Lemma memtrace_final s :
  ready c s ->
  log_refs c (memtrace c s) = recorded c s
  /\ flush_calls c (memtrace c s) = S (flush_calls c s)
  /\ get_field c (memtrace c s) (tls_field s) num_refs
     = to_uint64 (get_field c s (tls_field s) num_refs + pending_count c s).
Proof.
  intros [R1 R2 R3 R4]. split; [|split].
  - unfold log_refs. rewrite (memtrace_log s _ R2 R1), line_refs_app.
    cbn [line_refs]. rewrite line_refs_ref_line. reflexivity.
  - apply (memtrace_flush_calls s _ R2).
  - apply (memtrace_fields c Hc s _ R2 num_refs).
Qed.

(** A whole thread: start, run, and what it holds just before exit. *)
Theorem thread_lifetime s0 prog n :
  fresh c s0 -> Forall (instr_ok c) prog ->
  exists s1,
    thread_run c prog n (event_thread_init c s0) = Some s1
    /\ ready c s1
    /\ recorded c s1 = run_accesses c prog (regs s0)
    /\ Z.of_nat (flush_calls c s1)
       = Z.of_nat (length (run_accesses c prog (regs s0)))
         / MAX_NUM_MEM_REFS c
    /\ pending_count c s1
       = Z.of_nat (length (run_accesses c prog (regs s0)))
         mod MAX_NUM_MEM_REFS c
    /\ get_field c s1 (tls_field s1) num_refs
       = to_uint64
           (MAX_NUM_MEM_REFS c
            * (Z.of_nat (length (run_accesses c prog (regs s0)))
               / MAX_NUM_MEM_REFS c)).
Proof.
  intros F Hp.
  destruct (init_ready s0 F) as (R & PC & RC & FC & N0).
  destruct (thread_run_traced prog Hp n _ R) as (s1 & Hr & T).
  destruct (init_frame s0) as (ER & _ & ET & _ & _).
  rewrite ER in T. destruct T as [T1 T2 T3 T4 T5 T6 T7].
  rewrite PC, ?Z.add_0_l in *. rewrite ET in *. rewrite N0 in T7.
  rewrite FC in T6. rewrite RC in T5.
  exists s1. split; [exact Hr|]. split; [exact T3|].
  split; [exact T5|]. split; [exact T6|]. split; [exact T4|].
  rewrite T1. exact T7.
Qed.

(** [event_thread_exit] when the mutex is free. *)
Lemma event_thread_exit_free t g s :
  g_mutex g = None ->
  event_thread_exit c t g s =
  Some ({| g_num_refs :=
             to_uint64 (g_num_refs g
                        + get_field c (memtrace c s)
                            (tls_field (memtrace c s)) num_refs);
           g_mutex := None |},
        memtrace c s).
Proof.
  intros Hg. unfold event_thread_exit, dr_mutex_lock, dr_mutex_unlock,
    add_num_refs, drmgr_get_tls_field.
  rewrite Hg. cbn [g_mutex g_num_refs]. rewrite Nat.eqb_refl. reflexivity.
Qed.


End Thread.

(** ** Sample configuration, thread and instructions *)

(** A 64-bit build with a buffer of two records. *)
Definition cfg2 : config :=
  {| X64 := true; MAX_NUM_MEM_REFS := 2; code_cache := 4096;
     label_pc := fun n => 8192 + Z.of_nat n; scratch_junk := 12345 |}.

(** The source's build: 8192 records. *)
Definition cfg8192 : config :=
  {| X64 := true; MAX_NUM_MEM_REFS := 8192; code_cache := 4096;
     label_pc := fun n => 8192 + Z.of_nat n; scratch_junk := 0 |}.

Definition s_start : thread_t :=
  {| regs := fun r =>
       match r with
       | DR_REG_XAX => 1000 | DR_REG_XBX => 2000 | DR_REG_XCX => 3000
       | _ => 7
       end;
     slots := fun _ => 0; tls_field := 0; mem := fun _ => 99; io := [];
     faults := []; heap_next := 65536; next_file := 3 |}.

Definition mk_instr (p : Z) (r w : bool) (srcs dsts : list opnd_t) (sz : Z)
  : instr_t :=
  {| instr_get_app_pc := p; instr_reads_memory := r;
     instr_writes_memory := w; instr_srcs := srcs; instr_dsts := dsts;
     mem_size_in_bytes := fun _ => sz; app_effect := fun rs => rs |}.

(** [mov 16(%xbx) -> %xax], a load. *)
Definition i_load : instr_t :=
  mk_instr 400 true false
    [opnd_create_base_disp DR_REG_XBX DR_REG_NULL 0 16 OPSZ_4]
    [opnd_create_reg DR_REG_XAX] 4.

(** [mov %xax -> (%xcx,%xax,4)], a store. *)
Definition i_store : instr_t :=
  mk_instr 404 false true
    [opnd_create_reg DR_REG_XAX]
    [opnd_create_base_disp DR_REG_XCX DR_REG_XAX 4 0 OPSZ_8] 8.

(** [lea 16(%xbx) -> %xax]: a base+disp source, no memory read. *)
Definition i_lea : instr_t :=
  mk_instr 408 false false
    [opnd_create_base_disp DR_REG_XBX DR_REG_NULL 0 16 OPSZ_lea]
    [opnd_create_reg DR_REG_XAX] 0.

(** [add %xax (%xbx) -> (%xbx)]: the same location read and written. *)
Definition i_add : instr_t :=
  mk_instr 412 true true
    [opnd_create_reg DR_REG_XAX;
     opnd_create_base_disp DR_REG_XBX DR_REG_NULL 0 0 OPSZ_4]
    [opnd_create_base_disp DR_REG_XBX DR_REG_NULL 0 0 OPSZ_4] 4.

(** [movs]: two memory sources and one memory destination. *)
Definition i_three : instr_t :=
  mk_instr 416 true true
    [opnd_create_base_disp DR_REG_XSI DR_REG_NULL 0 0 OPSZ_4;
     opnd_create_base_disp DR_REG_XBX DR_REG_NULL 0 8 OPSZ_4]
    [opnd_create_base_disp DR_REG_XDI DR_REG_NULL 0 0 OPSZ_4] 4.

(** A load the host gives no application address. *)
Definition i_null : instr_t :=
  mk_instr NULL true true
    [opnd_create_base_disp DR_REG_XBX DR_REG_NULL 0 16 OPSZ_4]
    [opnd_create_base_disp DR_REG_XBX DR_REG_NULL 0 16 OPSZ_4] 4.

Definition s_init : thread_t := event_thread_init cfg2 s_start.

(** The state a run reaches, or the thread as it was when the run stops. *)
Definition after_run (c : config) (prog : list instr_t) (s : thread_t)
  : thread_t :=
  match thread_run c prog 0 s with Some s' => s' | None => s end.

Lemma cfg2_ok : config_ok cfg2.
Proof.
  constructor; [reflexivity | reflexivity |].
  intros a b H. cbv [label_pc cfg2] in H. lia.
Qed.

Lemma cfg8192_ok : config_ok cfg8192.
Proof.
  constructor; [reflexivity | reflexivity |].
  intros a b H. cbv [label_pc cfg8192] in H. lia.
Qed.

Lemma s_start_fresh : fresh cfg2 s_start.
Proof. constructor; [simpl; lia | reflexivity | reflexivity | reflexivity]. Qed.

Lemma s_init_ready : ready cfg2 s_init.
Proof. apply (init_ready cfg2 cfg2_ok s_start s_start_fresh). Qed.

Lemma mk_instr_ok c p r w srcs dsts sz :
  0 <= p < 2 ^ 32 -> 0 <= sz < 2 ^ 31 ->
  instr_ok c (mk_instr p r w srcs dsts sz).
Proof.
  intros Hp Hs. constructor; simpl.
  - destruct (ptr_modulus_cases c) as [[_ ->]|[_ ->]]; lia.
  - intros _. exact Hs.
  - intros rs rs' H x. apply H.
Qed.

(** ** The claims *)

Section Access_facts.

Variable c : config.

Lemma access_memref i rs w o :
  opnd_is_memory_reference o = true ->
  exists a,
    opnd_compute_address c rs o = Some a
    /\ access c i rs w o =
       [{| write := w; addr := a;
           size := drutil_opnd_mem_size_in_bytes o i;
           pc := instr_get_app_pc i |}].
Proof.
  intros H. destruct o; try discriminate H.
  eexists. split; reflexivity.
Qed.

Lemma access_not_memref i rs w o :
  opnd_is_memory_reference o = false -> access c i rs w o = [].
Proof. intros H. destruct o; try discriminate H; reflexivity. Qed.

Lemma flat_map_access_length i rs w ops :
  length (flat_map (access c i rs w) ops) =
  length (filter opnd_is_memory_reference ops).
Proof.
  induction ops as [|o ops IH]; cbn [flat_map filter]; [reflexivity|].
  rewrite length_app, IH.
  destruct (opnd_is_memory_reference o) eqn:E.
  - destruct (access_memref i rs w o E) as (a & _ & ->). reflexivity.
  - rewrite (access_not_memref i rs w o E). reflexivity.
Qed.

Lemma flat_map_access_pc i rs w ops :
  Forall (fun r => pc r = instr_get_app_pc i)
         (flat_map (access c i rs w) ops).
Proof.
  induction ops as [|o ops IH]; cbn [flat_map]; [constructor|].
  apply Forall_app. split; [|exact IH].
  unfold access. destruct (opnd_compute_address c rs o); repeat constructor.
Qed.

Lemma flat_map_access_write i rs w ops :
  Forall (fun r => write r = w) (flat_map (access c i rs w) ops).
Proof.
  induction ops as [|o ops IH]; cbn [flat_map]; [constructor|].
  apply Forall_app. split; [|exact IH].
  unfold access. destruct (opnd_compute_address c rs o); repeat constructor.
Qed.

Lemma accesses_pc i rs :
  Forall (fun r => pc r = instr_get_app_pc i) (accesses c i rs).
Proof.
  unfold accesses. destruct (instr_get_app_pc i =? NULL); [constructor|].
  apply Forall_app. split.
  - destruct (instr_reads_memory i);
      [apply flat_map_access_pc | constructor].
  - destruct (instr_writes_memory i);
      [apply flat_map_access_pc | constructor].
Qed.

Lemma filter_existsb_false (A : Type) (f : A -> bool) (l : list A) :
  existsb f l = false -> filter f l = [].
Proof.
  induction l as [|x l IH]; cbn [existsb filter]; [reflexivity|].
  destruct (f x); [discriminate|]. exact IH.
Qed.

Lemma flat_map_in (A B : Type) (f : A -> list B) (l : list A) (x : A) :
  In x l -> exists l1 l2, flat_map f l = l1 ++ f x ++ l2.
Proof.
  intros H. apply in_split in H. destruct H as (a & b & ->).
  exists (flat_map f a), (flat_map f b).
  rewrite flat_map_app. reflexivity.
Qed.

End Access_facts.

(** C1 (amended).  For an instruction with an application address, the code
    [event_bb_insert] puts in front of it appends, when it runs, one record
    per memory-reference source operand if the instruction reads memory, in
    operand order, and then one per memory-reference destination operand if
    it writes memory, in operand order; every record carries the
    instruction's address.  When the instruction reads (writes) memory
    exactly if it has a memory-reference source (destination), these are as
    many records as it has memory-reference operands. *)
Theorem C1_records_per_instruction c instr n s :
  config_ok c -> instr_ok c instr -> ready c s ->
  instr_get_app_pc instr <> NULL ->
  exists s',
    run c (fst (event_bb_insert c [] instr n)) None s = Some s'
    /\ recorded c s' =
       recorded c s
       ++ (if instr_reads_memory instr
           then flat_map (access c instr (regs s) false) (instr_srcs instr)
           else [])
       ++ (if instr_writes_memory instr
           then flat_map (access c instr (regs s) true) (instr_dsts instr)
           else [])
    /\ Forall (fun r => pc r = instr_get_app_pc instr)
              (accesses c instr (regs s))
    /\ length (accesses c instr (regs s)) =
       ((if instr_reads_memory instr
         then length (filter opnd_is_memory_reference (instr_srcs instr))
         else 0)
        + (if instr_writes_memory instr
           then length (filter opnd_is_memory_reference (instr_dsts instr))
           else 0))%nat
    /\ (instr_reads_memory instr
        = existsb opnd_is_memory_reference (instr_srcs instr) ->
        instr_writes_memory instr
        = existsb opnd_is_memory_reference (instr_dsts instr) ->
        length (accesses c instr (regs s))
        = length (memory_operands instr)).
Proof.
  intros Hc Hi R Hpc.
  destruct (event_bb_insert_run c Hc instr n s Hi R) as (s' & Hr & _ & T).
  exists s'. split; [exact Hr|].
  assert (EA : accesses c instr (regs s) =
               (if instr_reads_memory instr
                then flat_map (access c instr (regs s) false)
                       (instr_srcs instr) else [])
               ++ (if instr_writes_memory instr
                   then flat_map (access c instr (regs s) true)
                          (instr_dsts instr) else [])).
  { unfold accesses. destruct (Z.eqb_spec (instr_get_app_pc instr) NULL);
      [contradiction | reflexivity]. }
  assert (EL : length (accesses c instr (regs s)) =
    ((if instr_reads_memory instr
      then length (filter opnd_is_memory_reference (instr_srcs instr))
      else 0)
     + (if instr_writes_memory instr
        then length (filter opnd_is_memory_reference (instr_dsts instr))
        else 0))%nat).
  { rewrite EA, length_app.
    destruct (instr_reads_memory instr), (instr_writes_memory instr);
      rewrite ?flat_map_access_length; reflexivity. }
  split; [rewrite (tr_recorded c s s' _ T), EA; reflexivity|].
  split; [apply accesses_pc|]. split; [exact EL|].
  intros Er Ew. rewrite EL. unfold memory_operands. rewrite length_app.
  destruct (instr_reads_memory instr), (instr_writes_memory instr);
    rewrite ?(filter_existsb_false _ _ _ (eq_sym Er)),
            ?(filter_existsb_false _ _ _ (eq_sym Ew)); reflexivity.
Qed.

Lemma C1_records_per_instruction_witness :
  config_ok cfg2 /\ instr_ok cfg2 i_three /\ ready cfg2 s_init
  /\ instr_get_app_pc i_three <> NULL
  /\ exists s',
       run cfg2 (fst (event_bb_insert cfg2 [] i_three 0)) None s_init
       = Some s'
       /\ recorded cfg2 s' =
          recorded cfg2 s_init
          ++ (if instr_reads_memory i_three
              then flat_map (access cfg2 i_three (regs s_init) false)
                     (instr_srcs i_three)
              else [])
          ++ (if instr_writes_memory i_three
              then flat_map (access cfg2 i_three (regs s_init) true)
                     (instr_dsts i_three)
              else [])
       /\ Forall (fun r => pc r = instr_get_app_pc i_three)
                 (accesses cfg2 i_three (regs s_init))
       /\ length (accesses cfg2 i_three (regs s_init)) =
          ((if instr_reads_memory i_three
            then length (filter opnd_is_memory_reference
                           (instr_srcs i_three))
            else 0)
           + (if instr_writes_memory i_three
              then length (filter opnd_is_memory_reference
                             (instr_dsts i_three))
              else 0))%nat
       /\ (instr_reads_memory i_three
           = existsb opnd_is_memory_reference (instr_srcs i_three) ->
           instr_writes_memory i_three
           = existsb opnd_is_memory_reference (instr_dsts i_three) ->
           length (accesses cfg2 i_three (regs s_init))
           = length (memory_operands i_three)).
Proof.
  assert (H1 : config_ok cfg2) by exact cfg2_ok.
  assert (H2 : instr_ok cfg2 i_three)
    by (apply mk_instr_ok; lia).
  assert (H3 : ready cfg2 s_init) by exact s_init_ready.
  assert (H4 : instr_get_app_pc i_three <> NULL)
    by (vm_compute; discriminate).
  split; [exact H1|]. split; [exact H2|]. split; [exact H3|].
  split; [exact H4|].
  exact (C1_records_per_instruction cfg2 i_three 0 s_init H1 H2 H3 H4).
Defined.

(** C1 as stated fails: [i_lea] has an application address and one
    memory-reference operand, and nothing is inserted for it, so that no
    record is appended. *)
Lemma C1_counterexample :
  instr_get_app_pc i_lea <> NULL
  /\ length (memory_operands i_lea) = 1%nat
  /\ fst (event_bb_insert cfg2 [] i_lea 0) = []
  /\ option_map (recorded cfg2)
       (run cfg2 (fst (event_bb_insert cfg2 [] i_lea 0)) None s_init)
     = Some (recorded cfg2 s_init).
Proof.
  split; [vm_compute; discriminate|].
  split; [reflexivity|]. split; reflexivity.
Qed.

(** C9.  An instruction whose application address is null is skipped:
    [event_bb_insert] leaves the instruction list as it is, so that running
    what is in front of the instruction changes nothing, and the
    instruction contributes no record, whatever it reads or writes. *)
Theorem C9_null_pc_skipped c bb instr n s rs :
  instr_get_app_pc instr = NULL ->
  event_bb_insert c bb instr n = (bb, n)
  /\ run c (fst (event_bb_insert c [] instr n)) None s = Some s
  /\ accesses c instr rs = [].
Proof.
  intros H. unfold event_bb_insert, accesses. rewrite H.
  cbn [Z.eqb NULL]. repeat split.
Qed.

Lemma C9_null_pc_skipped_witness :
  instr_get_app_pc i_null = NULL
  /\ event_bb_insert cfg2 [] i_null 0 = ([], 0%nat)
  /\ run cfg2 (fst (event_bb_insert cfg2 [] i_null 0)) None s_init
     = Some s_init
  /\ accesses cfg2 i_null (regs s_init) = [].
Proof.
  split; [reflexivity|].
  exact (C9_null_pc_skipped cfg2 [] i_null 0 s_init (regs s_init) eq_refl).
Defined.

(** C10 (amended).  An instruction with an application address that reads
    and writes memory and has the same memory-reference operand among its
    sources and among its destinations appends for it a record with
    [write = false] and later a record with [write = true], with the same
    address, size and pc. *)
Theorem C10_read_write_operand c instr n s o :
  config_ok c -> instr_ok c instr -> ready c s ->
  instr_get_app_pc instr <> NULL ->
  instr_reads_memory instr = true -> instr_writes_memory instr = true ->
  opnd_is_memory_reference o = true ->
  In o (instr_srcs instr) -> In o (instr_dsts instr) ->
  exists s' a l1 l2 l3,
    run c (fst (event_bb_insert c [] instr n)) None s = Some s'
    /\ opnd_compute_address c (regs s) o = Some a
    /\ recorded c s' =
       recorded c s
       ++ l1
       ++ [{| write := false; addr := a;
              size := drutil_opnd_mem_size_in_bytes o instr;
              pc := instr_get_app_pc instr |}]
       ++ l2
       ++ [{| write := true; addr := a;
              size := drutil_opnd_mem_size_in_bytes o instr;
              pc := instr_get_app_pc instr |}]
       ++ l3.
Proof.
  intros Hc Hi R Hpc Hr Hw Hm Hs Hd.
  destruct (event_bb_insert_run c Hc instr n s Hi R) as (s' & Hrun & _ & T).
  destruct (access_memref c instr (regs s) false o Hm) as (a & Ha & Ef).
  destruct (access_memref c instr (regs s) true o Hm) as (a' & Ha' & Et).
  rewrite Ha in Ha'. injection Ha' as <-.
  destruct (flat_map_in _ _ (access c instr (regs s) false) _ o Hs)
    as (l1 & l2 & E1).
  destruct (flat_map_in _ _ (access c instr (regs s) true) _ o Hd)
    as (l3 & l4 & E2).
  exists s', a, l1, (l2 ++ l3), l4.
  split; [exact Hrun|]. split; [exact Ha|].
  rewrite (tr_recorded c s s' _ T). unfold accesses.
  destruct (Z.eqb_spec (instr_get_app_pc instr) NULL); [contradiction|].
  rewrite Hr, Hw, E1, E2, Ef, Et, <- !app_assoc. reflexivity.
Qed.

Lemma C10_read_write_operand_witness :
  exists s' a l1 l2 l3,
    run cfg2 (fst (event_bb_insert cfg2 [] i_add 0)) None s_init = Some s'
    /\ opnd_compute_address cfg2 (regs s_init)
         (opnd_create_base_disp DR_REG_XBX DR_REG_NULL 0 0 OPSZ_4) = Some a
    /\ recorded cfg2 s' =
       recorded cfg2 s_init
       ++ l1
       ++ [{| write := false; addr := a;
              size := drutil_opnd_mem_size_in_bytes
                        (opnd_create_base_disp DR_REG_XBX DR_REG_NULL 0 0
                           OPSZ_4) i_add;
              pc := instr_get_app_pc i_add |}]
       ++ l2
       ++ [{| write := true; addr := a;
              size := drutil_opnd_mem_size_in_bytes
                        (opnd_create_base_disp DR_REG_XBX DR_REG_NULL 0 0
                           OPSZ_4) i_add;
              pc := instr_get_app_pc i_add |}]
       ++ l3.
Proof.
  apply (C10_read_write_operand cfg2 i_add 0 s_init
           (opnd_create_base_disp DR_REG_XBX DR_REG_NULL 0 0 OPSZ_4)).
  - exact cfg2_ok.
  - apply mk_instr_ok; lia.
  - exact s_init_ready.
  - vm_compute; discriminate.
  - reflexivity.
  - reflexivity.
  - reflexivity.
  - simpl; auto.
  - simpl; auto.
Defined.

(** C10 as stated fails: [i_null] reads and writes memory and has the same
    memory-reference operand among its sources and among its destinations,
    and it has no application address: [event_bb_insert] inserts nothing
    for it, and no record is made of either access. *)
Lemma C10_counterexample :
  instr_reads_memory i_null = true
  /\ instr_writes_memory i_null = true
  /\ opnd_is_memory_reference
       (opnd_create_base_disp DR_REG_XBX DR_REG_NULL 0 16 OPSZ_4) = true
  /\ In (opnd_create_base_disp DR_REG_XBX DR_REG_NULL 0 16 OPSZ_4)
        (instr_srcs i_null)
  /\ In (opnd_create_base_disp DR_REG_XBX DR_REG_NULL 0 16 OPSZ_4)
        (instr_dsts i_null)
  /\ fst (event_bb_insert cfg2 [] i_null 0) = []
  /\ recorded cfg2 s_init = []
  /\ option_map (recorded cfg2)
       (run cfg2 (fst (event_bb_insert cfg2 [] i_null 0)) None s_init)
     = Some [].
Proof.
  split; [reflexivity|]. split; [reflexivity|]. split; [reflexivity|].
  split; [left; reflexivity|]. split; [left; reflexivity|].
  split; [reflexivity|]. split; reflexivity.
Qed.

Section Flush_facts.

Variable c : config.
Hypothesis Hc : config_ok c.

Lemma written_emit_fail g f ls rest :
  written g (emit f ls (repeat true (length ls) ++ rest)) = [].
Proof.
  induction ls as [|l ls IH]; [reflexivity|].
  cbn [length repeat app emit hd tl written io_ok io_file io_line negb].
  rewrite andb_false_r. exact IH.
Qed.

Lemma pending_length s k :
  thread_ok c s k -> Z.of_nat (length (pending c s)) = k.
Proof.
  intros OK. rewrite (pending_ok c s k OK), read_refs_length.
  apply Z2Nat.id. apply (ok_count c s k OK).
Qed.

(** Files other than the thread's log are not written by [memtrace]. *)
Lemma memtrace_other_files s k f :
  thread_ok c s k -> f <> get_field c s (tls_field s) log ->
  file_contents (memtrace c s) f = file_contents s f.
Proof.
  intros OK Hf. unfold file_contents.
  destruct (memtrace_io c Hc s k OK) as (EIO & _).
  rewrite EIO, written_app, written_emit_other by exact Hf.
  apply app_nil_r.
Qed.

End Flush_facts.

(** C3 (amended).  When no write fails, a flush prints the format header
    and then exactly the records between [buf_base] and [buf_ptr], oldest
    first, each line carrying pc, direction, size and address; it adds
    their number to the thread's counter and resets the buffer ([buf_ptr]
    back at [buf_base], storage zeroed).  Over a thread's life, the record
    lines of its log, the header lines left out, are in order the memory
    references the thread made. *)
Theorem C3_flush_writes_records c s k s0 prog n t g :
  config_ok c -> thread_ok c s k -> faults s = [] ->
  fresh c s0 -> Forall (instr_ok c) prog -> g_mutex g = None ->
  (thread_log c (memtrace c s) =
   thread_log c s ++ Format_header :: map ref_line (pending c s)
   /\ Z.of_nat (length (pending c s)) = k
   /\ get_field c (memtrace c s) (tls_field s) num_refs
      = to_uint64 (get_field c s (tls_field s) num_refs + k)
   /\ get_field c (memtrace c s) (tls_field s) buf_ptr
      = get_field c s (tls_field s) buf_base
   /\ (forall a,
         get_field c s (tls_field s) buf_base <= a
         < get_field c s (tls_field s) buf_base + MEM_BUF_SIZE c ->
         load (mem (memtrace c s)) a = 0))
  /\ exists s1 g' s2,
       thread_run c prog n (event_thread_init c s0) = Some s1
       /\ event_thread_exit c t g s1 = Some (g', s2)
       /\ log_refs c s2 = run_accesses c prog (regs s0).
Proof.
  intros Hc OK F Fr Hp Hg. split.
  - split; [apply (memtrace_log c Hc s k OK F)|].
    split; [apply (pending_length c s k OK)|].
    split; [apply (memtrace_fields c Hc s k OK num_refs)|].
    split; [apply (memtrace_fields c Hc s k OK buf_ptr)|].
    intros a Ha. apply (memtrace_zeroed c Hc s k a OK Ha).
  - destruct (thread_lifetime c Hc s0 prog n Fr Hp)
      as (s1 & Hr & R & Rec & _).
    exists s1. eexists. exists (memtrace c s1).
    split; [exact Hr|].
    split; [apply (event_thread_exit_free c t g s1 Hg)|].
    destruct (memtrace_final c Hc s1 R) as (EL & _). rewrite EL. exact Rec.
Qed.

Lemma C3_flush_writes_records_witness :
  exists s1 g' s2,
    thread_run cfg2 [i_load; i_store; i_load; i_load; i_store] 0
      (event_thread_init cfg2 s_start) = Some s1
    /\ event_thread_exit cfg2 1 {| g_num_refs := 0; g_mutex := None |} s1
       = Some (g', s2)
    /\ log_refs cfg2 s2 =
       run_accesses cfg2 [i_load; i_store; i_load; i_load; i_store]
         (regs s_start).
Proof.
  apply (C3_flush_writes_records cfg2 s_init 0 s_start
           [i_load; i_store; i_load; i_load; i_store] 0 1
           {| g_num_refs := 0; g_mutex := None |}).
  - exact cfg2_ok.
  - apply (init_ok cfg2 cfg2_ok s_start); [simpl; lia | reflexivity].
  - reflexivity.
  - exact s_start_fresh.
  - repeat (apply Forall_cons; [apply mk_instr_ok; lia|]). apply Forall_nil.
  - reflexivity.
Defined.

(** C3 as stated fails: a flush writes the format header before the
    records, so what reaches the log is not exactly the records, and the
    log of a whole thread is not the sequence of its references: a thread
    that makes three references with a buffer of two records leaves five
    lines. *)
Lemma C3_counterexample :
  pending cfg2 (after_run cfg2 [i_load] s_init)
  = [{| write := false; addr := 2016; size := 4; pc := 400 |}]
  /\ thread_log cfg2 (after_run cfg2 [i_load] s_init) = []
  /\ thread_log cfg2 (memtrace cfg2 (after_run cfg2 [i_load] s_init))
     = [Format_header; Ref_line 400 false 4 2016]
  /\ run_accesses cfg2 [i_load; i_store; i_load] (regs s_start)
     = [{| write := false; addr := 2016; size := 4; pc := 400 |};
        {| write := true; addr := 7000; size := 8; pc := 404 |};
        {| write := false; addr := 2016; size := 4; pc := 400 |}]
  /\ option_map (fun r => thread_log cfg2 (snd r))
       (event_thread_exit cfg2 1 {| g_num_refs := 0; g_mutex := None |}
          (after_run cfg2 [i_load; i_store; i_load] s_init))
     = Some [Format_header;
             Ref_line 400 false 4 2016; Ref_line 404 true 8 7000;
             Format_header;
             Ref_line 400 false 4 2016].
Proof.
  split; [reflexivity|]. split; [reflexivity|]. split; [reflexivity|].
  split; reflexivity.
Qed.

(** C4 (amended).  A flush with nothing pending prints no record line: it
    makes one call of [dr_fprintf], for the format header, and when that
    write succeeds the log grows by the header alone.  It zeroes the
    storage of the buffer; the thread's counter is unchanged and [buf_ptr]
    stays at [buf_base]. *)
Theorem C4_empty_flush c s :
  config_ok c -> thread_ok c s 0 ->
  0 <= get_field c s (tls_field s) num_refs < 2 ^ 64 ->
  log_refs c (memtrace c s) = log_refs c s
  /\ io (memtrace c s) =
     io s
     ++ [{| io_file := get_field c s (tls_field s) log;
            io_line := Format_header;
            io_ok := negb (hd false (faults s)) |}]
  /\ (faults s = [] ->
      thread_log c (memtrace c s) = thread_log c s ++ [Format_header])
  /\ (forall a,
        get_field c s (tls_field s) buf_base <= a
        < get_field c s (tls_field s) buf_base + MEM_BUF_SIZE c ->
        load (mem (memtrace c s)) a = 0)
  /\ get_field c (memtrace c s) (tls_field s) num_refs
     = get_field c s (tls_field s) num_refs
  /\ get_field c (memtrace c s) (tls_field s) buf_ptr
     = get_field c s (tls_field s) buf_ptr
  /\ get_field c (memtrace c s) (tls_field s) buf_ptr
     = get_field c s (tls_field s) buf_base
  /\ pending_count c (memtrace c s) = 0.
Proof.
  intros Hc OK Hn.
  pose proof (memtrace_fields c Hc s 0 OK) as MF.
  destruct (memtrace_io c Hc s 0 OK) as (EIO & _).
  rewrite (pending_nil c s OK) in EIO. cbn [map emit] in EIO.
  split; [|split; [|split; [|split; [|split; [|split; [|split]]]]]].
  - unfold log_refs, thread_log, file_contents.
    destruct (memtrace_frame c s) as (_ & _ & ET & _ & _).
    rewrite ET, (MF log), EIO, written_app, line_refs_app.
    cbn [written io_file io_line io_ok].
    rewrite Z.eqb_refl.
    destruct (negb (hd false (faults s))); cbn [andb line_refs];
      apply app_nil_r.
  - exact EIO.
  - intros F. rewrite (memtrace_log c Hc s 0 OK F), (pending_nil c s OK).
    reflexivity.
  - intros a Ha. apply (memtrace_zeroed c Hc s 0 a OK Ha).
  - rewrite (MF num_refs), Z.add_0_r. apply to_uint64_small. exact Hn.
  - rewrite (MF buf_ptr), (ok_ptr c s 0 OK). lia.
  - apply (MF buf_ptr).
  - apply (pending_count_ok c _ 0 (memtrace_ok c Hc s 0 OK)).
Qed.

Lemma C4_empty_flush_witness :
  log_refs cfg2 (memtrace cfg2 s_init) = log_refs cfg2 s_init
  /\ io (memtrace cfg2 s_init) =
     io s_init
     ++ [{| io_file := get_field cfg2 s_init (tls_field s_init) log;
            io_line := Format_header;
            io_ok := negb (hd false (faults s_init)) |}]
  /\ (faults s_init = [] ->
      thread_log cfg2 (memtrace cfg2 s_init)
      = thread_log cfg2 s_init ++ [Format_header])
  /\ (forall a,
        get_field cfg2 s_init (tls_field s_init) buf_base <= a
        < get_field cfg2 s_init (tls_field s_init) buf_base
          + MEM_BUF_SIZE cfg2 ->
        load (mem (memtrace cfg2 s_init)) a = 0)
  /\ get_field cfg2 (memtrace cfg2 s_init) (tls_field s_init) num_refs
     = get_field cfg2 s_init (tls_field s_init) num_refs
  /\ get_field cfg2 (memtrace cfg2 s_init) (tls_field s_init) buf_ptr
     = get_field cfg2 s_init (tls_field s_init) buf_ptr
  /\ get_field cfg2 (memtrace cfg2 s_init) (tls_field s_init) buf_ptr
     = get_field cfg2 s_init (tls_field s_init) buf_base
  /\ pending_count cfg2 (memtrace cfg2 s_init) = 0.
Proof.
  apply (C4_empty_flush cfg2 s_init).
  - exact cfg2_ok.
  - apply (init_ok cfg2 cfg2_ok s_start); [simpl; lia | reflexivity].
  - vm_compute. split; [discriminate | reflexivity].
Defined.

(** C4 as stated fails: with nothing pending, [memtrace] still prints the
    format header, so the thread's log is not what it was. *)
Lemma C4_counterexample :
  pending cfg2 s_init = []
  /\ thread_log cfg2 s_init = []
  /\ thread_log cfg2 (memtrace cfg2 s_init) = [Format_header].
Proof. repeat split. Qed.

(** The thread [s] with the coming write outcomes [fl]. *)
Definition with_faults (s : thread_t) (fl : list bool) : thread_t :=
  {| regs := regs s; slots := slots s; tls_field := tls_field s;
     mem := mem s; io := io s; faults := fl; heap_next := heap_next s;
     next_file := next_file s |}.

(** A thread with one record pending whose next two writes fail. *)
Definition s_failing : thread_t :=
  with_faults (after_run cfg2 [i_load] s_init) [true; true].

Lemma skipn_repeat_app (A : Type) (x : A) (n : nat) (rest : list A) :
  skipn n (repeat x n ++ rest) = rest.
Proof. induction n as [|n IH]; [reflexivity | exact IH]. Qed.

(** C8 (amended).  When the writes of a flush fail, nothing reaches any
    file: [memtrace] drops what [dr_fprintf] returns and reports nothing.
    The flush goes on all the same: the buffer is reset ([buf_ptr] back at
    [buf_base], storage zeroed) and the records that were lost are still
    added to the thread's counter. *)
Theorem C8_failed_write_flush c s k rest :
  config_ok c -> thread_ok c s k ->
  faults s = repeat true (S (Z.to_nat k)) ++ rest ->
  (forall f, file_contents (memtrace c s) f = file_contents s f)
  /\ faults (memtrace c s) = rest
  /\ thread_ok c (memtrace c s) 0
  /\ get_field c (memtrace c s) (tls_field s) buf_ptr
     = get_field c s (tls_field s) buf_base
  /\ (forall a,
        get_field c s (tls_field s) buf_base <= a
        < get_field c s (tls_field s) buf_base + MEM_BUF_SIZE c ->
        load (mem (memtrace c s)) a = 0)
  /\ get_field c (memtrace c s) (tls_field s) num_refs
     = to_uint64 (get_field c s (tls_field s) num_refs + k).
Proof.
  intros Hc OK F.
  destruct (memtrace_io c Hc s k OK) as (EIO & EF).
  split; [|split; [|split; [|split; [|split]]]].
  - intros f. unfold file_contents. rewrite EIO, written_app, F.
    replace (S (Z.to_nat k))
      with (length (Format_header :: map ref_line (pending c s))).
    + rewrite written_emit_fail. apply app_nil_r.
    + cbn [length]. rewrite length_map, (pending_ok c s k OK).
      rewrite read_refs_length. reflexivity.
  - rewrite EF, F. apply skipn_repeat_app.
  - apply (memtrace_ok c Hc s k OK).
  - apply (memtrace_fields c Hc s k OK buf_ptr).
  - intros a Ha. apply (memtrace_zeroed c Hc s k a OK Ha).
  - apply (memtrace_fields c Hc s k OK num_refs).
Qed.

Lemma s_failing_ok : thread_ok cfg2 s_failing 1.
Proof.
  destruct (thread_run_traced cfg2 cfg2_ok [i_load]
              ltac:(repeat (apply Forall_cons; [apply mk_instr_ok; lia|]);
                    apply Forall_nil)
              0%nat s_init s_init_ready) as (s1 & Hr & T).
  unfold s_failing, after_run. rewrite Hr.
  apply (thread_ok_ext cfg2 s1); [reflexivity | reflexivity |].
  pose proof (rd_ok cfg2 s1 (tr_ready _ _ _ _ T)) as OK.
  rewrite (tr_pending _ _ _ _ T) in OK. exact OK.
Qed.

Lemma C8_failed_write_flush_witness :
  (forall f, file_contents (memtrace cfg2 s_failing) f
             = file_contents s_failing f)
  /\ faults (memtrace cfg2 s_failing) = []
  /\ thread_ok cfg2 (memtrace cfg2 s_failing) 0
  /\ get_field cfg2 (memtrace cfg2 s_failing) (tls_field s_failing) buf_ptr
     = get_field cfg2 s_failing (tls_field s_failing) buf_base
  /\ (forall a,
        get_field cfg2 s_failing (tls_field s_failing) buf_base <= a
        < get_field cfg2 s_failing (tls_field s_failing) buf_base
          + MEM_BUF_SIZE cfg2 ->
        load (mem (memtrace cfg2 s_failing)) a = 0)
  /\ get_field cfg2 (memtrace cfg2 s_failing) (tls_field s_failing) num_refs
     = to_uint64
         (get_field cfg2 s_failing (tls_field s_failing) num_refs + 1).
Proof.
  apply (C8_failed_write_flush cfg2 s_failing 1 []).
  - exact cfg2_ok.
  - exact s_failing_ok.
  - reflexivity.
Defined.

(** C8 as stated fails: the record pending in [s_failing] is lost when both
    writes of the flush fail, and the two failed calls are all [memtrace]
    does towards any file; it returns nothing, so nothing reports the
    failure, and the lost record is counted as if it had been written. *)
Lemma C8_counterexample :
  length (pending cfg2 s_failing) = 1%nat
  /\ map io_ok (io (memtrace cfg2 s_failing)) = [false; false]
  /\ thread_log cfg2 (memtrace cfg2 s_failing) = []
  /\ pending cfg2 (memtrace cfg2 s_failing) = []
  /\ get_field cfg2 (memtrace cfg2 s_failing) (tls_field s_failing) num_refs
     = 1.
Proof. repeat split. Qed.

(** [buf_end] holds the negated address of the end of the buffer. *)
Definition negated_end (c : config) (s : thread_t) : Prop :=
  get_field c s (tls_field s) buf_end =
  wrap c (- (get_field c s (tls_field s) buf_base + MEM_BUF_SIZE c)).

(** C5.  The members of [mem_ref_t] come in the order write, addr, size, pc.
    The inlined code stores them in that order into the record at
    [buf_ptr], then advances the pointer by [sizeof(mem_ref_t)]: once it
    has run up to the overflow test, the record at the old [buf_ptr] is the
    reference, and [buf_ptr] is one record further. *)
Theorem C5_record_fill_order c s k instr pos (w : bool) n ref a :
  config_ok c -> thread_ok c s k -> k < MAX_NUM_MEM_REFS c ->
  instr_ok c instr ->
  ref = (if w then instr_get_dst instr pos else instr_get_src instr pos) ->
  opnd_compute_address c (regs s) ref = Some a ->
  (offsetof_mem_ref_t c f_write = 0
   /\ offsetof_mem_ref_t c f_write < offsetof_mem_ref_t c f_addr
   /\ offsetof_mem_ref_t c f_addr < offsetof_mem_ref_t c f_size
   /\ offsetof_mem_ref_t c f_size < offsetof_mem_ref_t c f_pc
   /\ offsetof_mem_ref_t c f_pc < sizeof_mem_ref_t c)
  /\ firstn 5 (skipn 5 (fst (instrument_mem c [] instr pos w n))) =
     [INSTR_CREATE_mov_imm
        (OPND_CREATE_MEM32 DR_REG_XCX (offsetof_mem_ref_t c f_write))
        (OPND_CREATE_INT32 (Z.b2z w));
      INSTR_CREATE_mov_st
        (OPND_CREATE_MEMPTR DR_REG_XCX (offsetof_mem_ref_t c f_addr))
        (opnd_create_reg DR_REG_XBX);
      INSTR_CREATE_mov_st
        (OPND_CREATE_MEMPTR DR_REG_XCX (offsetof_mem_ref_t c f_size))
        (OPND_CREATE_INT32 (drutil_opnd_mem_size_in_bytes ref instr));
      I_mov_immed_ptrsz (instr_get_app_pc instr)
        (OPND_CREATE_MEMPTR DR_REG_XCX (offsetof_mem_ref_t c f_pc));
      INSTR_CREATE_lea (opnd_create_reg DR_REG_XCX)
        (opnd_create_base_disp DR_REG_XCX DR_REG_NULL 0
           (sizeof_mem_ref_t c) OPSZ_lea)]
  /\ exists sA,
       run c (firstn 14 (fst (instrument_mem c [] instr pos w n))) None s
       = Some sA
       /\ read_mem_ref c sA (get_field c s (tls_field s) buf_ptr) =
          {| write := w; addr := a;
             size := drutil_opnd_mem_size_in_bytes ref instr;
             pc := instr_get_app_pc instr |}
       /\ get_field c sA (tls_field s) buf_ptr
          = get_field c s (tls_field s) buf_ptr + sizeof_mem_ref_t c.
Proof.
  intros Hc OK Hk Hi Href Ha. split; [|split].
  - rewrite !offsetof_mem_ref_t_eq, sizeof_mem_ref_t_eq.
    cbn [mem_ref_index Z.of_nat Pos.of_succ_nat Pos.succ].
    destruct (ptr_bytes_cases c) as [-> | ->]; lia.
  - rewrite Href. reflexivity.
  - destruct (fill_run c s k instr pos w n ref a [] OK Hk Hi Href Ha)
      as (sA & Hrun & _ & _ & _ & _ & ET & _ & _ & _ & _ & EM).
    rewrite app_nil_r in Hrun. exists sA. split; [exact Hrun|].
    pose proof (field_outside_slot c s k buf_ptr OK Hk) as Ho.
    pose proof (offsetof_mem_ref_t_range c f_write).
    pose proof (offsetof_mem_ref_t_range c f_addr).
    pose proof (offsetof_mem_ref_t_range c f_size).
    pose proof (offsetof_mem_ref_t_range c f_pc).
    split.
    + unfold read_mem_ref, get_ref_field. rewrite EM.
      rewrite !load_store_other by lia.
      rewrite !load_write_ref_in. cbn [write addr size pc].
      destruct w; reflexivity.
    + unfold get_field at 1. rewrite EM. apply load_store_same.
Qed.

Lemma C5_record_fill_order_witness :
  exists sA,
    run cfg2 (firstn 14 (fst (instrument_mem cfg2 [] i_store 0 true 0)))
        None s_init = Some sA
    /\ read_mem_ref cfg2 sA (get_field cfg2 s_init (tls_field s_init) buf_ptr)
       = {| write := true; addr := 7000; size := 8; pc := 404 |}
    /\ get_field cfg2 sA (tls_field s_init) buf_ptr
       = get_field cfg2 s_init (tls_field s_init) buf_ptr
         + sizeof_mem_ref_t cfg2.
Proof.
  apply (C5_record_fill_order cfg2 s_init 0 i_store 0 true 0
           (opnd_create_base_disp DR_REG_XCX DR_REG_XAX 4 0 OPSZ_8) 7000).
  - exact cfg2_ok.
  - apply (init_ok cfg2 cfg2_ok s_start); [simpl; lia | reflexivity].
  - reflexivity.
  - apply mk_instr_ok; lia.
  - reflexivity.
  - reflexivity.
Defined.

(** A thread with one record in its buffer of two. *)
Definition s_one : thread_t := after_run cfg2 [i_load] s_init.

Lemma s_one_ok : thread_ok cfg2 s_one 1.
Proof.
  destruct (thread_run_traced cfg2 cfg2_ok [i_load]
              ltac:(repeat (apply Forall_cons; [apply mk_instr_ok; lia|]);
                    apply Forall_nil)
              0%nat s_init s_init_ready) as (s1 & Hr & T).
  unfold s_one, after_run. rewrite Hr.
  pose proof (rd_ok cfg2 s1 (tr_ready _ _ _ _ T)) as OK.
  rewrite (tr_pending _ _ _ _ T) in OK. exact OK.
Qed.

(** C6.  [buf_end] is the negated end address of the buffer from
    [event_thread_init] on: it holds after the initialisation, after a
    flush (which resets the buffer) and after an inlined append, at the
    overflow test and at the end of the sequence.  The test is the three
    instructions that load [buf_end], add it to the new [buf_ptr] with
    [lea] into [XCX], and jump with [jecxz]: when control reaches the
    [jecxz], [XCX] holds that sum, and it is zero exactly when the new
    [buf_ptr] is the end of the buffer.  So the sequence flushes exactly
    then: the buffer is emptied and the header and the records are printed
    when the new record took the last place, and otherwise nothing is
    printed and the record stays in the buffer.  The same sum is zero for
    no other pointer into the buffer. *)
Theorem C6_negated_end_invariant c s0 s k instr pos (w : bool) n ref a p :
  config_ok c ->
  0 <= heap_next s0 ->
  heap_next s0 + sizeof_per_thread_t c + MEM_BUF_SIZE c < ptr_modulus c ->
  thread_ok c s k -> k < MAX_NUM_MEM_REFS c -> instr_ok c instr ->
  ref = (if w then instr_get_dst instr pos else instr_get_src instr pos) ->
  opnd_compute_address c (regs s) ref = Some a ->
  get_field c s (tls_field s) buf_base <= p
  <= get_field c s (tls_field s) buf_base + MEM_BUF_SIZE c ->
  negated_end c (event_thread_init c s0)
  /\ negated_end c (memtrace c s)
  /\ firstn 3 (skipn 12 (fst (instrument_mem c [] instr pos w n))) =
     [INSTR_CREATE_mov_ld (opnd_create_reg DR_REG_XBX)
        (OPND_CREATE_MEMPTR DR_REG_XBX (offsetof_per_thread_t c buf_end));
      INSTR_CREATE_lea (opnd_create_reg DR_REG_XCX)
        (opnd_create_base_disp DR_REG_XBX DR_REG_XCX 1 0 OPSZ_lea);
      INSTR_CREATE_jecxz (opnd_create_instr n)]
  /\ (exists sA,
        run c (firstn 14 (fst (instrument_mem c [] instr pos w n))) None s
        = Some sA
        /\ negated_end c sA
        /\ get_field c sA (tls_field s) buf_ptr
           = get_field c s (tls_field s) buf_ptr + sizeof_mem_ref_t c
        /\ regs sA DR_REG_XCX
           = wrap c (get_field c sA (tls_field s) buf_end
                     + get_field c sA (tls_field s) buf_ptr)
        /\ (regs sA DR_REG_XCX =? 0)
           = (get_field c sA (tls_field s) buf_ptr
              =? get_field c sA (tls_field s) buf_base + MEM_BUF_SIZE c))
  /\ (exists s',
        run c (fst (instrument_mem c [] instr pos w n)) None s = Some s'
        /\ negated_end c s'
        /\ pending_count c s' =
           (if get_field c s (tls_field s) buf_ptr + sizeof_mem_ref_t c
               =? get_field c s (tls_field s) buf_base + MEM_BUF_SIZE c
            then 0 else k + 1)
        /\ io s' =
           io s
           ++ (if get_field c s (tls_field s) buf_ptr + sizeof_mem_ref_t c
                  =? get_field c s (tls_field s) buf_base + MEM_BUF_SIZE c
               then emit (get_field c s (tls_field s) log)
                      (Format_header
                       :: map ref_line
                            (pending c s
                             ++ [{| write := w; addr := a;
                                    size :=
                                      drutil_opnd_mem_size_in_bytes ref instr;
                                    pc := instr_get_app_pc instr |}]))
                      (faults s)
               else []))
  /\ (wrap c (get_field c s (tls_field s) buf_end + p) =? 0)
     = (p =? get_field c s (tls_field s) buf_base + MEM_BUF_SIZE c).
Proof.
  intros Hc H0 H1 OK Hk Hi Href Ha Hp.
  pose proof (sizeof_mem_ref_t_pos c) as Hsz.
  pose proof (slot_in_buffer c s k OK Hk) as [SB1 SB2].
  assert (ET' : (get_field c s (tls_field s) buf_ptr + sizeof_mem_ref_t c
                 =? get_field c s (tls_field s) buf_base + MEM_BUF_SIZE c)
                = (k + 1 =? MAX_NUM_MEM_REFS c)).
  { rewrite (ok_ptr c s k OK). unfold MEM_BUF_SIZE.
    destruct (Z.eqb_spec (k + 1) (MAX_NUM_MEM_REFS c)) as [E|E].
    - apply Z.eqb_eq. rewrite <- E. lia.
    - apply Z.eqb_neq. intros E'. apply E. nia. }
  split; [apply (ok_end c _ 0 (init_ok c Hc s0 H0 H1))|].
  split; [apply (ok_end c _ 0 (memtrace_ok c Hc s k OK))|].
  split; [reflexivity|].
  split; [|split].
  - destruct (fill_run c s k instr pos w n ref a [] OK Hk Hi Href Ha)
      as (sA & Hrun & Hcx & _ & _ & _ & ET & _ & _ & _ & _ & EM).
    rewrite app_nil_r in Hrun. exists sA. split; [exact Hrun|].
    destruct (fill_views c s sA k _ OK Hk ET EM) as (OKA & F & _).
    assert (EP : get_field c sA (tls_field s) buf_ptr
                 = get_field c s (tls_field s) buf_ptr + sizeof_mem_ref_t c)
      by (unfold get_field at 1; rewrite EM; apply load_store_same).
    split; [apply (ok_end c sA _ OKA)|]. split; [exact EP|].
    rewrite (F buf_end), (F buf_base), EP by discriminate.
    split; [exact Hcx|].
    rewrite Hcx, (ok_end c s k OK).
    apply (overflow_test c Hc);
      [apply (ok_base c s k OK) | apply (ok_buf_end c s k OK) | lia].
  - destruct (instrument_mem_run c Hc s k instr pos w n ref a OK Hk Hi
                Href Ha) as (s' & Hr & A).
    exists s'. split; [exact Hr|].
    split; [apply (ok_end c s' _ (ap_ok c s s' _ k A))|].
    rewrite ET'. split.
    + rewrite (pending_count_ok c s' _ (ap_ok c s s' _ k A)). reflexivity.
    + apply (ap_io c s s' _ k A).
  - rewrite (ok_end c s k OK).
    apply (overflow_test c Hc);
      [apply (ok_base c s k OK) | apply (ok_buf_end c s k OK) | exact Hp].
Qed.

Lemma C6_negated_end_invariant_witness :
  negated_end cfg2 (event_thread_init cfg2 s_start)
  /\ negated_end cfg2 (memtrace cfg2 s_one)
  /\ firstn 3 (skipn 12 (fst (instrument_mem cfg2 [] i_store 0 true 0))) =
     [INSTR_CREATE_mov_ld (opnd_create_reg DR_REG_XBX)
        (OPND_CREATE_MEMPTR DR_REG_XBX (offsetof_per_thread_t cfg2 buf_end));
      INSTR_CREATE_lea (opnd_create_reg DR_REG_XCX)
        (opnd_create_base_disp DR_REG_XBX DR_REG_XCX 1 0 OPSZ_lea);
      INSTR_CREATE_jecxz (opnd_create_instr 0%nat)]
  /\ (exists sA,
        run cfg2 (firstn 14 (fst (instrument_mem cfg2 [] i_store 0 true 0)))
          None s_one = Some sA
        /\ negated_end cfg2 sA
        /\ get_field cfg2 sA (tls_field s_one) buf_ptr
           = get_field cfg2 s_one (tls_field s_one) buf_ptr
             + sizeof_mem_ref_t cfg2
        /\ regs sA DR_REG_XCX
           = wrap cfg2 (get_field cfg2 sA (tls_field s_one) buf_end
                        + get_field cfg2 sA (tls_field s_one) buf_ptr)
        /\ (regs sA DR_REG_XCX =? 0)
           = (get_field cfg2 sA (tls_field s_one) buf_ptr
              =? get_field cfg2 sA (tls_field s_one) buf_base
                 + MEM_BUF_SIZE cfg2))
  /\ (exists s',
        run cfg2 (fst (instrument_mem cfg2 [] i_store 0 true 0)) None s_one
        = Some s'
        /\ negated_end cfg2 s'
        /\ pending_count cfg2 s' =
           (if get_field cfg2 s_one (tls_field s_one) buf_ptr
               + sizeof_mem_ref_t cfg2
               =? get_field cfg2 s_one (tls_field s_one) buf_base
                  + MEM_BUF_SIZE cfg2
            then 0 else 1 + 1)
        /\ io s' =
           io s_one
           ++ (if get_field cfg2 s_one (tls_field s_one) buf_ptr
                  + sizeof_mem_ref_t cfg2
                  =? get_field cfg2 s_one (tls_field s_one) buf_base
                     + MEM_BUF_SIZE cfg2
               then emit (get_field cfg2 s_one (tls_field s_one) log)
                      (Format_header
                       :: map ref_line
                            (pending cfg2 s_one
                             ++ [{| write := true; addr := 7000;
                                    size :=
                                      drutil_opnd_mem_size_in_bytes
                                        (instr_get_dst i_store 0) i_store;
                                    pc := instr_get_app_pc i_store |}]))
                      (faults s_one)
               else []))
  /\ (wrap cfg2
        (get_field cfg2 s_one (tls_field s_one) buf_end + 65648) =? 0)
     = (65648
        =? get_field cfg2 s_one (tls_field s_one) buf_base
           + MEM_BUF_SIZE cfg2).
Proof.
  apply (C6_negated_end_invariant cfg2 s_start s_one 1 i_store 0 true 0
           (instr_get_dst i_store 0) 7000).
  - exact cfg2_ok.
  - simpl; lia.
  - reflexivity.
  - exact s_one_ok.
  - reflexivity.
  - apply mk_instr_ok; lia.
  - reflexivity.
  - vm_compute. reflexivity.
  - vm_compute. split; discriminate.
Defined.

(** At [s_one] the new record takes the last place: the test gives zero
    and the sequence flushes both records. *)
Example s_one_overflows :
  option_map (fun sA => regs sA DR_REG_XCX)
    (run cfg2 (firstn 14 (fst (instrument_mem cfg2 [] i_store 0 true 0)))
       None s_one) = Some 0
  /\ option_map (fun s' => (pending_count cfg2 s', thread_log cfg2 s'))
       (run cfg2 (fst (instrument_mem cfg2 [] i_store 0 true 0)) None s_one)
     = Some (0, [Format_header;
                 Ref_line 400 false 4 2016; Ref_line 404 true 8 7000]).
Proof. split; vm_compute; reflexivity. Qed.

(** ** Threads and the global count *)

(** The host starts each thread, lets it run, and calls its exit event.
    Threads share nothing but the global count, which they touch under the
    mutex at exit; the list gives the order in which they get the mutex. *)
Fixpoint session (c : config) (ths : list (nat * thread_t * list instr_t))
  (g : global_t) : option (global_t * list thread_t) :=
  match ths with
  | [] => Some (g, [])
  | (t, s0, prog) :: rest =>
      match thread_run c prog 0 (event_thread_init c s0) with
      | None => None
      | Some s1 =>
          match event_thread_exit c t g s1 with
          | None => None
          | Some (g', s2) =>
              match session c rest g' with
              | None => None
              | Some (g'', fin) => Some (g'', s2 :: fin)
              end
          end
      end
  end.

(** The number of memory references a thread makes. *)
Definition thread_refs (c : config) (th : nat * thread_t * list instr_t)
  : Z :=
  Z.of_nat (length (run_accesses c (snd th) (regs (snd (fst th))))).

Definition total_refs (c : config)
  (ths : list (nat * thread_t * list instr_t)) : Z :=
  fold_right (fun th acc => thread_refs c th + acc) 0 ths.

Definition thread_valid (c : config) (th : nat * thread_t * list instr_t)
  : Prop :=
  fresh c (snd (fst th)) /\ Forall (instr_ok c) (snd th).

Lemma to_uint64_idem_r a b : to_uint64 (a + to_uint64 b) = to_uint64 (a + b).
Proof. unfold to_uint64. apply Z.add_mod_idemp_r. discriminate. Qed.

Section Session.

Variable c : config.
Hypothesis Hc : config_ok c.

(** A thread's exit: the final flush, then the count under the mutex. *)
Lemma thread_exit_total s0 prog n t g :
  fresh c s0 -> Forall (instr_ok c) prog -> g_mutex g = None ->
  exists s1,
    thread_run c prog n (event_thread_init c s0) = Some s1
    /\ Z.of_nat (flush_calls c s1)
       = Z.of_nat (length (run_accesses c prog (regs s0)))
         / MAX_NUM_MEM_REFS c
    /\ pending_count c s1
       = Z.of_nat (length (run_accesses c prog (regs s0)))
         mod MAX_NUM_MEM_REFS c
    /\ event_thread_exit c t g s1 =
       Some ({| g_num_refs :=
                  to_uint64
                    (g_num_refs g
                     + Z.of_nat (length (run_accesses c prog (regs s0))));
                g_mutex := None |},
             memtrace c s1)
    /\ log_refs c (memtrace c s1) = run_accesses c prog (regs s0)
    /\ flush_calls c (memtrace c s1) = S (flush_calls c s1).
Proof.
  intros Fr Hp Hg.
  destruct (thread_lifetime c Hc s0 prog n Fr Hp)
    as (s1 & Hr & R & Rec & FC & PC & NR).
  destruct (memtrace_final c Hc s1 R) as (EL & EF & EN).
  destruct (memtrace_frame c s1) as (_ & _ & ET & _ & _).
  assert (EV : get_field c (memtrace c s1) (tls_field (memtrace c s1))
                 num_refs
               = to_uint64
                   (Z.of_nat (length (run_accesses c prog (regs s0))))).
  { rewrite ET, EN, NR, PC, to_uint64_idem. f_equal.
    symmetry. apply Z.div_mod. pose proof (cap_pos c Hc). lia. }
  exists s1. split; [exact Hr|]. split; [exact FC|]. split; [exact PC|].
  split; [|split; [rewrite EL; exact Rec | exact EF]].
  rewrite (event_thread_exit_free c t g s1 Hg), EV, to_uint64_idem_r.
  reflexivity.
Qed.

Lemma session_total ths :
  Forall (thread_valid c) ths ->
  forall g,
    g_mutex g = None -> 0 <= g_num_refs g < 2 ^ 64 ->
    exists g' fin,
      session c ths g = Some (g', fin)
      /\ g_mutex g' = None
      /\ g_num_refs g' = to_uint64 (g_num_refs g + total_refs c ths)
      /\ Forall2 (fun th s2 =>
                    log_refs c s2
                    = run_accesses c (snd th) (regs (snd (fst th))))
                 ths fin.
Proof.
  induction 1 as [|[[t s0] prog] ths [Fr Hp] _ IH]; intros g Hg Hn.
  - exists g, []. cbn [session total_refs fold_right].
    split; [reflexivity|]. split; [exact Hg|]. split; [|constructor].
    rewrite Z.add_0_r. symmetry. apply to_uint64_small. exact Hn.
  - cbn [fst snd] in Fr, Hp.
    destruct (thread_exit_total s0 prog 0%nat t g Fr Hp Hg)
      as (s1 & Hr & _ & _ & He & EL & _).
    cbn [session]. rewrite Hr, He.
    destruct (IH {| g_num_refs :=
                      to_uint64
                        (g_num_refs g
                         + Z.of_nat
                             (length (run_accesses c prog (regs s0))));
                    g_mutex := None |}
                eq_refl
                ltac:(cbn [g_num_refs]; unfold to_uint64;
                      apply Z.mod_pos_bound; reflexivity))
      as (g' & fin & Hs & Hm & Hv & Hl).
    rewrite Hs. exists g', (memtrace c s1 :: fin).
    split; [reflexivity|]. split; [exact Hm|]. split.
    + rewrite Hv. cbn [g_num_refs total_refs fold_right].
      rewrite to_uint64_idem. unfold thread_refs. cbn [fst snd].
      rewrite Z.add_assoc. reflexivity.
    + constructor; [exact EL | exact Hl].
Qed.

End Session.


(** The five references (r,w,r,r,w) of the sample thread. *)
Definition five_refs : list instr_t :=
  [i_load; i_store; i_load; i_load; i_store].

Definition g_start : global_t := {| g_num_refs := 0; g_mutex := None |}.

Lemma five_refs_ok : Forall (instr_ok cfg2) five_refs.
Proof.
  repeat (apply Forall_cons; [apply mk_instr_ok; lia|]). apply Forall_nil.
Qed.

(** C2 (amended).  A thread that makes [n] memory references with a buffer
    of [c] records calls the flush [n / c] times while it runs, and once
    more at its exit, whether or not records are pending: the flush at exit
    finds [n mod c] of them. *)
Theorem C2_flush_count c s0 prog n t g :
  config_ok c -> fresh c s0 -> Forall (instr_ok c) prog ->
  g_mutex g = None ->
  exists s1 g' s2,
    thread_run c prog n (event_thread_init c s0) = Some s1
    /\ Z.of_nat (flush_calls c s1)
       = Z.of_nat (length (run_accesses c prog (regs s0)))
         / MAX_NUM_MEM_REFS c
    /\ Z.of_nat (length (pending c s1))
       = Z.of_nat (length (run_accesses c prog (regs s0)))
         mod MAX_NUM_MEM_REFS c
    /\ event_thread_exit c t g s1 = Some (g', s2)
    /\ Z.of_nat (flush_calls c s2)
       = Z.of_nat (length (run_accesses c prog (regs s0)))
         / MAX_NUM_MEM_REFS c + 1.
Proof.
  intros Hc Fr Hp Hg.
  destruct (thread_lifetime c Hc s0 prog n Fr Hp)
    as (s1 & Hr & R & _ & FC & PC & _).
  destruct (thread_exit_total c Hc s0 prog n t g Fr Hp Hg)
    as (s1' & Hr' & _ & _ & He & _ & EF).
  rewrite Hr in Hr'. injection Hr' as <-.
  exists s1. eexists. exists (memtrace c s1).
  split; [exact Hr|]. split; [exact FC|].
  split; [rewrite (pending_length c s1 _ (rd_ok c s1 R)); exact PC|].
  split; [exact He|]. rewrite EF, Nat2Z.inj_succ, FC. lia.
Qed.

Lemma C2_flush_count_witness :
  exists s1 g' s2,
    thread_run cfg2 five_refs 0 (event_thread_init cfg2 s_start) = Some s1
    /\ Z.of_nat (flush_calls cfg2 s1)
       = Z.of_nat (length (run_accesses cfg2 five_refs (regs s_start)))
         / MAX_NUM_MEM_REFS cfg2
    /\ Z.of_nat (length (pending cfg2 s1))
       = Z.of_nat (length (run_accesses cfg2 five_refs (regs s_start)))
         mod MAX_NUM_MEM_REFS cfg2
    /\ event_thread_exit cfg2 1 g_start s1 = Some (g', s2)
    /\ Z.of_nat (flush_calls cfg2 s2)
       = Z.of_nat (length (run_accesses cfg2 five_refs (regs s_start)))
         / MAX_NUM_MEM_REFS cfg2 + 1.
Proof.
  exact (C2_flush_count cfg2 s_start five_refs 0 1 g_start
           cfg2_ok s_start_fresh five_refs_ok eq_refl).
Defined.

(** C2 as stated fails: a thread that makes two references with a buffer of
    two records has nothing pending at its exit, and the flush is called
    there all the same: twice in all, not once. *)
Lemma C2_counterexample :
  length (run_accesses cfg2 [i_load; i_store] (regs s_start)) = 2%nat
  /\ 2 mod MAX_NUM_MEM_REFS cfg2 = 0
  /\ flush_calls cfg2 (after_run cfg2 [i_load; i_store] s_init) = 1%nat
  /\ pending cfg2 (after_run cfg2 [i_load; i_store] s_init) = []
  /\ option_map (fun r => flush_calls cfg2 (snd r))
       (event_thread_exit cfg2 1 g_start
          (after_run cfg2 [i_load; i_store] s_init))
     = Some 2%nat.
Proof. repeat split. Qed.



(** The sample thread: five references, a buffer of two records. *)
Example five_refs_scenario :
  option_map (fun r => (g_num_refs (fst r),
                        map (thread_log cfg2) (snd r)))
    (session cfg2 [(1%nat, s_start, five_refs)] g_start)
  = Some (5,
          [[Format_header;
            Ref_line 400 false 4 2016; Ref_line 404 true 8 7000;
            Format_header;
            Ref_line 400 false 4 2016; Ref_line 400 false 4 2016;
            Format_header;
            Ref_line 404 true 8 7000]]).
Proof. reflexivity. Qed.

(** * Further properties of the client *)

(** ** The shape of the inserted code *)

(** The labels placed in a list of instructions, in list order. *)
Definition labels_of (il : list instr) : list nat :=
  flat_map (fun i => match i with INSTR_CREATE_label l => [l] | _ => [] end)
           il.

(** An instruction that may change spill slot [k]: a save to it, or a clean
    call, whose callee is free to do so. *)
Definition touches_slot (k : dr_spill_slot_t) (i : instr) : bool :=
  match i with
  | I_save_reg _ k' => slot_eqb k' k
  | I_clean_call _ => true
  | _ => false
  end.

(** The number of calls of [instrument_mem] that [event_bb_insert] makes for
    one instruction: none without application address, else one for each
    memory-reference source if the instruction reads memory and one for
    each memory-reference destination if it writes memory. *)
Definition instrumented_operands (instr : instr_t) : nat :=
  if instr_get_app_pc instr =? NULL then O
  else
    ((if instr_reads_memory instr
      then length (filter opnd_is_memory_reference (instr_srcs instr))
      else O)
     + (if instr_writes_memory instr
        then length (filter opnd_is_memory_reference (instr_dsts instr))
        else O))%nat.

Lemma labels_of_app a b : labels_of (a ++ b) = labels_of a ++ labels_of b.
Proof. unfold labels_of. apply flat_map_app. Qed.

Lemma instrument_mem_shape c i pos w n :
  length (fst (instrument_mem c [] i pos w n)) = 22%nat
  /\ labels_of (fst (instrument_mem c [] i pos w n)) = [n; S n]
  /\ forallb (fun x => negb (touches_slot SPILL_SLOT_1 x))
             (fst (instrument_mem c [] i pos w n)) = true.
Proof. split; [|split]; reflexivity. Qed.

Lemma loop_shape c w instr :
  forall cnt i0 n,
    (i0 + cnt = length (operands w instr))%nat ->
    exists code,
      (forall il,
         for_loop i0 cnt (loop_body c w instr) (il, n) =
         (il ++ code,
          (n + 2 * length (filter opnd_is_memory_reference
                             (skipn i0 (operands w instr))))%nat))
      /\ length code =
         (22 * length (filter opnd_is_memory_reference
                         (skipn i0 (operands w instr))))%nat
      /\ labels_of code =
         seq n (2 * length (filter opnd_is_memory_reference
                              (skipn i0 (operands w instr))))
      /\ forallb (fun x => negb (touches_slot SPILL_SLOT_1 x)) code = true.
Proof.
  induction cnt as [|cnt IH]; intros i0 n Hlen.
  - exists []. cbn [for_loop]. rewrite skipn_all2 by lia. cbn [filter length].
    rewrite Nat.mul_0_r, Nat.add_0_r.
    split; [intros il; rewrite app_nil_r; reflexivity|]. repeat split.
  - cbn [for_loop].
    rewrite (skipn_nth _ (opnd_create_reg DR_REG_NULL)) by lia.
    assert (EO : nth i0 (operands w instr) (opnd_create_reg DR_REG_NULL)
                 = operand w instr i0)
      by (unfold operands, operand; destruct w; reflexivity).
    rewrite EO. cbn [filter]. unfold loop_body at 2. cbn [fst snd].
    destruct (opnd_is_memory_reference (operand w instr i0)) eqn:EM.
    + destruct (instrument_mem_shape c instr i0 w n) as (L0 & B0 & F0).
      destruct (IH (S i0) (S (S n)) ltac:(lia)) as (code & E & L & Lb & F).
      exists (fst (instrument_mem c [] instr i0 w n) ++ code).
      cbn [length].
      split; [|split; [|split]].
      * intros il. rewrite instrument_mem_app.
        etransitivity; [apply E|]. rewrite <- app_assoc. f_equal. lia.
      * rewrite length_app, L, L0. lia.
      * rewrite labels_of_app, B0, Lb.
        replace (2 * S (length (filter opnd_is_memory_reference
                                  (skipn (S i0) (operands w instr)))))%nat
          with (S (S (2 * length (filter opnd_is_memory_reference
                                    (skipn (S i0) (operands w instr))))))
          by lia.
        reflexivity.
      * rewrite forallb_app, F0, F. reflexivity.
    + destruct (IH (S i0) n ltac:(lia)) as (code & E & L & Lb & F).
      exists code. split; [exact E|]. split; [exact L|].
      split; [exact Lb|exact F].
Qed.

Lemma event_bb_insert_shape c instr n :
  exists code,
    (forall bb,
       event_bb_insert c bb instr n =
       (bb ++ code, (n + 2 * instrumented_operands instr)%nat))
    /\ length code = (22 * instrumented_operands instr)%nat
    /\ labels_of code = seq n (2 * instrumented_operands instr)
    /\ forallb (fun x => negb (touches_slot SPILL_SLOT_1 x)) code = true.
Proof.
  unfold event_bb_insert, instrumented_operands.
  destruct (instr_get_app_pc instr =? NULL).
  { exists []. rewrite Nat.mul_0_r, Nat.add_0_r.
    split; [intros bb; rewrite app_nil_r; reflexivity|]. repeat split. }
  change (fun (i : nat) (st : instrlist_t * nat) =>
            if opnd_is_memory_reference (instr_get_src instr i)
            then instrument_mem c (fst st) instr i false (snd st) else st)
    with (loop_body c false instr).
  change (fun (i : nat) (st : instrlist_t * nat) =>
            if opnd_is_memory_reference (instr_get_dst instr i)
            then instrument_mem c (fst st) instr i true (snd st) else st)
    with (loop_body c true instr).
  change (instr_srcs instr) with (skipn 0 (operands false instr)).
  change (instr_dsts instr) with (skipn 0 (operands true instr)).
  change (instr_num_srcs instr) with (length (operands false instr)).
  change (instr_num_dsts instr) with (length (operands true instr)).
  set (m1 := length (filter opnd_is_memory_reference
                       (skipn 0 (operands false instr)))).
  set (m2 := length (filter opnd_is_memory_reference
                       (skipn 0 (operands true instr)))).
  set (r1 := if instr_reads_memory instr then m1 else O).
  assert (S1 : exists code1,
             (forall bb : instrlist_t,
                (if instr_reads_memory instr
                 then for_loop 0 (length (operands false instr))
                        (loop_body c false instr) (bb, n)
                 else (bb, n)) = (bb ++ code1, (n + 2 * r1)%nat))
             /\ length code1 = (22 * r1)%nat
             /\ labels_of code1 = seq n (2 * r1)
             /\ forallb (fun x => negb (touches_slot SPILL_SLOT_1 x))
                        code1 = true).
  { unfold r1. destruct (instr_reads_memory instr).
    - apply (loop_shape c false instr _ 0%nat n eq_refl).
    - exists []. rewrite Nat.mul_0_r, Nat.add_0_r.
      split; [intros bb; rewrite app_nil_r; reflexivity|]. repeat split. }
  destruct S1 as (code1 & E1 & L1 & B1 & F1).
  destruct (instr_writes_memory instr).
  - destruct (loop_shape c true instr _ 0%nat (n + 2 * r1)%nat eq_refl)
      as (code2 & E2 & L2 & B2 & F2).
    fold m2 in E2, L2, B2.
    exists (code1 ++ code2). split; [|split; [|split]].
    + intros bb. rewrite E1. etransitivity; [apply E2|].
      rewrite <- app_assoc. f_equal. lia.
    + rewrite length_app, L1, L2. lia.
    + rewrite labels_of_app, B1, B2.
      replace (2 * (r1 + m2))%nat with (2 * r1 + 2 * m2)%nat by lia.
      rewrite seq_app. reflexivity.
    + rewrite forallb_app, F1, F2. reflexivity.
  - exists code1. rewrite Nat.add_0_r.
    split; [exact E1|]. split; [exact L1|]. split; [exact B1|exact F1].
Qed.

(** ** What the inserted code leaves alone *)

(** The addresses of the memory the client holds for a thread: its
    [per_thread_t] and its buffer. *)
Definition client_memory (c : config) (s : thread_t) (a : Z) : bool :=
  ((tls_field s <=? a) && (a <? tls_field s + sizeof_per_thread_t c))
  || ((get_field c s (tls_field s) buf_base <=? a)
      && (a <? get_field c s (tls_field s) buf_base + MEM_BUF_SIZE c)).

Lemma client_memory_false c s a :
  client_memory c s a = false ->
  (a < tls_field s \/ tls_field s + sizeof_per_thread_t c <= a)
  /\ (a < get_field c s (tls_field s) buf_base
      \/ get_field c s (tls_field s) buf_base + MEM_BUF_SIZE c <= a).
Proof.
  unfold client_memory. intros H.
  apply orb_false_elim in H. destruct H as [H1 H2].
  apply andb_false_iff in H1. apply andb_false_iff in H2.
  rewrite Z.leb_gt, Z.ltb_ge in H1, H2. lia.
Qed.

Lemma exec_instr_slots c k i s s1 :
  touches_slot k i = false -> exec_instr c i s = Some s1 ->
  slots s1 k = slots s k.
Proof.
  destruct i; cbn [touches_slot exec_instr]; intros T E;
    repeat match type of E with
      | match ?x with _ => _ end = Some _ =>
          destruct x eqn:?; try discriminate E
      end;
    try discriminate; injection E as <-; try reflexivity.
  cbn [slots set_slot]. destruct k, slot; try discriminate T; reflexivity.
Qed.

(** Code that neither saves to a slot nor holds a clean call leaves the slot
    as it was, whichever way control goes, through the code cache too. *)
Lemma run_slots c k :
  forall il t s s',
    forallb (fun x => negb (touches_slot k x)) il = true ->
    run c il t s = Some s' -> slots s' k = slots s k.
Proof.
  induction il as [|i il IH]; intros t s s' F H.
  - destruct t; [discriminate|]. injection H as <-. reflexivity.
  - cbn [forallb] in F. apply andb_prop in F. destruct F as [Fi F].
    apply negb_true_iff in Fi.
    destruct t as [a|].
    + destruct i; cbn [run] in H; try (apply (IH _ _ _ F H)).
      destruct (label_pc c id =? a); apply (IH _ _ _ F H).
    + destruct i; cbn [run] in H;
        repeat match type of H with
          | match ?x with _ => _ end = Some _ =>
              is_var x; destruct x; cbn [run] in H
          end;
        try match type of H with
          | match exec_instr c ?j s with _ => _ end = Some _ =>
              destruct (exec_instr c j s) as [s1|] eqn:E;
              [rewrite (IH _ _ _ F H);
               apply (exec_instr_slots c k _ s s1 Fi E)
              | discriminate H]
          end;
        try (apply (IH _ _ _ F H)).
      * destruct (regs s DR_REG_XCX =? 0); apply (IH _ _ _ F H).
      * destruct (pc0 =? code_cache c); [|discriminate H].
        cbn [code_cache_init dr_insert_clean_call instrlist_meta_preinsert
             app run_code_cache exec_instr] in H.
        rewrite (IH _ _ _ F H). cbn [slots set_regs].
        rewrite clean_call_eq.
        destruct (memtrace_frame c s) as (_ & MS & _). rewrite MS.
        reflexivity.
Qed.

(** The memory outside the client's two blocks holds in [s'] what it held
    in [s]. *)
Definition application_memory_kept (c : config) (s s' : thread_t) : Prop :=
  forall a, client_memory c s a = false -> load (mem s') a = load (mem s) a.

Lemma client_memory_ext c s s' a :
  tls_field s' = tls_field s ->
  get_field c s' (tls_field s) buf_base
  = get_field c s (tls_field s) buf_base ->
  client_memory c s' a = client_memory c s a.
Proof. intros E1 E2. unfold client_memory. rewrite E1, E2. reflexivity. Qed.

Section Frame.

Variable c : config.
Hypothesis Hc : config_ok c.

(** One inlined sequence: the two scratch registers are kept in the second
    and third spill slot, and the memory written is the record, [buf_ptr]
    and, if the buffer fills, what [memtrace] writes. *)
Lemma instrument_mem_frame s k i pos (w : bool) n ref a :
  thread_ok c s k -> k < MAX_NUM_MEM_REFS c -> instr_ok c i ->
  ref = (if w then instr_get_dst i pos else instr_get_src i pos) ->
  opnd_compute_address c (regs s) ref = Some a ->
  exists s',
    run c (fst (instrument_mem c [] i pos w n)) None s = Some s'
    /\ slots s' SPILL_SLOT_2 = regs s DR_REG_XBX
    /\ slots s' SPILL_SLOT_3 = regs s DR_REG_XCX
    /\ application_memory_kept c s s'.
Proof.
  intros H Hk Hi Href Ha.
  set (r := {| write := w; addr := a;
               size := drutil_opnd_mem_size_in_bytes ref i;
               pc := instr_get_app_pc i |}).
  rewrite <- (firstn_skipn 14 (fst (instrument_mem c [] i pos w n))).
  destruct (fill_run c s k i pos w n ref a
              (skipn 14 (fst (instrument_mem c [] i pos w n)))
              H Hk Hi Href Ha)
    as (sA & Hrun & Hcx & H2 & H3 & Hrs & ET & EIO & EF & _ & _ & EM).
  fold r in EM.
  rewrite Hrun, (tail_run c Hc). eexists. split; [reflexivity|].
  destruct (fill_views c s sA k r H Hk ET EM) as (OK & F & PE).
  (* what the fast path leaves alone *)
  assert (KA : forall b, client_memory c s b = false ->
                         load (mem sA) b = load (mem s) b).
  { intros b Hb. apply client_memory_false in Hb. destruct Hb as [Hb1 Hb2].
    pose proof (slot_in_buffer c s k H Hk) as SB.
    pose proof (offsetof_per_thread_t_range c buf_ptr) as OR.
    rewrite EM, load_store_other by lia.
    apply load_write_ref_out. lia. }
  destruct (regs sA DR_REG_XCX =? 0).
  - (* the buffer is full: memtrace runs in the code cache *)
    cbv zeta. rewrite !clean_call_eq.
    assert (HB :
      tls_field (set_reg sA DR_REG_XCX (label_pc c (S n))) = tls_field s
      /\ mem (set_reg sA DR_REG_XCX (label_pc c (S n))) = mem sA
      /\ slots (set_reg sA DR_REG_XCX (label_pc c (S n))) SPILL_SLOT_2
         = regs s DR_REG_XBX
      /\ slots (set_reg sA DR_REG_XCX (label_pc c (S n))) SPILL_SLOT_3
         = regs s DR_REG_XCX).
    { repeat split; assumption. }
    revert HB. generalize (set_reg sA DR_REG_XCX (label_pc c (S n))).
    intros sB (TB & MB & S2 & S3).
    assert (OKB : thread_ok c sB (k + 1)).
    { apply (thread_ok_ext c sA); [rewrite TB; symmetry; exact ET | exact MB
                                  | exact OK]. }
    destruct (memtrace_frame c sB) as (_ & MS & _).
    pose proof (memtrace_mem c Hc sB (k + 1) OKB) as MM.
    rewrite TB in MM.
    rewrite (get_field_ext c sA sB _ _ MB), (F buf_base) in MM
      by discriminate.
    revert MS MM. generalize (memtrace c sB). intros sM MS MM.
    cbn [slots mem set_reg set_regs].
    split; [rewrite MS; exact S2|]. split; [rewrite MS; exact S3|].
    intros b Hb. cbn [mem set_reg set_regs]. rewrite <- (KA b Hb).
    apply client_memory_false in Hb. destruct Hb as [Hb1 Hb2].
    pose proof (offsetof_per_thread_t_range c buf_ptr) as OR1.
    pose proof (offsetof_per_thread_t_range c num_refs) as OR2.
    rewrite MM, !load_store_other by lia.
    rewrite load_memset_out by lia. rewrite MB. reflexivity.
  - cbn [slots mem set_reg].
    split; [exact H2|]. split; [exact H3|exact KA].
Qed.

End Frame.

(** ** Counting references *)

(** What the application does to the registers when it runs without the
    client. *)
Fixpoint app_run (prog : list instr_t) (rs : reg_id_t -> Z) : reg_id_t -> Z :=
  match prog with
  | [] => rs
  | i :: rest => app_run rest (app_effect i rs)
  end.

(** A thread in working order: [buf_ptr] lies a whole number of records
    past [buf_base] and there is room for one more.  Nothing is asked of
    the writes to come. *)
Record steady (c : config) (s : thread_t) : Prop := {
  st_ok : thread_ok c s (pending_count c s);
  st_room : pending_count c s < MAX_NUM_MEM_REFS c
}.

(** From [s] to [s'] the thread has counted [m] more references: the
    counter and the number of records in the buffer have grown by [m]
    together, as far as a [uint64] tells, and the memory outside the
    client's two blocks is as it was. *)
Record counted (c : config) (s s' : thread_t) (m : Z) : Prop := {
  ct_tls : tls_field s' = tls_field s;
  ct_static : forall f, f <> buf_ptr -> f <> num_refs ->
     get_field c s' (tls_field s) f = get_field c s (tls_field s) f;
  ct_steady : steady c s';
  ct_mem : application_memory_kept c s s';
  ct_total :
    to_uint64 (get_field c s' (tls_field s) num_refs + pending_count c s')
    = to_uint64 (get_field c s (tls_field s) num_refs
                 + pending_count c s + m)
}.

Section Counting.

Variable c : config.
Hypothesis Hc : config_ok c.

Lemma counted_refl s : steady c s -> counted c s s 0.
Proof.
  intros S. constructor; try reflexivity; try assumption.
  - intros a _. reflexivity.
  - rewrite Z.add_0_r. reflexivity.
Qed.

Lemma counted_trans s s1 s2 a b :
  counted c s s1 a -> counted c s1 s2 b -> counted c s s2 (a + b).
Proof.
  intros [A1 A2 A3 AM A4] [B1 B2 B3 BM B4]. rewrite A1 in B2, B4.
  constructor.
  - rewrite B1. exact A1.
  - intros f H1 H2. rewrite (B2 f H1 H2). apply (A2 f H1 H2).
  - exact B3.
  - intros x Hx. rewrite <- (AM x Hx). apply BM.
    rewrite <- Hx. apply client_memory_ext; [exact A1|].
    apply A2; discriminate.
  - rewrite B4, <- to_uint64_idem, A4, to_uint64_idem. f_equal. lia.
Qed.

Lemma counted_one s s' r :
  steady c s -> appended c s s' r (pending_count c s) ->
  application_memory_kept c s s' -> counted c s s' 1.
Proof.
  intros [S1 S2] [A1 A2 A3 A4 A5 A6 A7 A8] AM.
  pose proof (cap_pos c Hc) as Hm.
  pose proof (ok_count c s _ S1) as Hk.
  revert A4 A8.
  destruct (Z.eqb_spec (pending_count c s + 1) (MAX_NUM_MEM_REFS c)) as [E|E];
    intros A4 A8; pose proof (pending_count_ok c s' _ A4) as PC.
  - constructor; try assumption.
    + constructor; rewrite PC; [exact A4 | lia].
    + rewrite A8, PC, Z.add_0_r. unfold to_uint64. rewrite Z.mod_mod by lia.
      f_equal. lia.
  - constructor; try assumption.
    + constructor; rewrite PC; [exact A4 | lia].
    + rewrite A8, PC. f_equal. lia.
Qed.

Lemma steady_set_regs s rs : steady c s -> steady c (set_regs s rs).
Proof.
  intros [S1 S2]. constructor; [|exact S2].
  apply (thread_ok_ext c s); [reflexivity | reflexivity | exact S1].
Qed.

Lemma operands_counted instr w :
  instr_ok c instr ->
  forall cnt i0 il n s,
    (i0 + cnt = length (operands w instr))%nat -> steady c s ->
    exists code n',
      for_loop i0 cnt (loop_body c w instr) (il, n) = (il ++ code, n')
      /\ exists s',
           run c code None s = Some s'
           /\ (forall x, regs s' x = regs s x)
           /\ counted c s s'
                (Z.of_nat
                   (length (flat_map (access c instr (regs s) w)
                                     (skipn i0 (operands w instr))))).
Proof.
  intros Hi. induction cnt as [|cnt IH]; intros i0 il n s Hlen R.
  - exists [], n. cbn [for_loop]. rewrite app_nil_r. split; [reflexivity|].
    exists s. rewrite skipn_all2 by lia. cbn [flat_map run length].
    split; [reflexivity|]. split; [reflexivity|].
    apply (counted_refl s R).
  - cbn [for_loop].
    rewrite (skipn_nth _ (opnd_create_reg DR_REG_NULL)) by lia.
    assert (EO : nth i0 (operands w instr) (opnd_create_reg DR_REG_NULL)
                 = operand w instr i0)
      by (unfold operands, operand; destruct w; reflexivity).
    rewrite EO. cbn [flat_map]. unfold loop_body at 2. cbn [fst snd].
    destruct (opnd_is_memory_reference (operand w instr i0)) eqn:EM.
    + destruct (operand w instr i0) as [| |b ix sc d sz| |] eqn:ER;
        try discriminate EM.
      rewrite instrument_mem_app.
      destruct (instrument_mem_run c Hc s (pending_count c s) instr i0 w n
                  (opnd_create_base_disp b ix sc d sz)
                  (wrap c (reg_get (regs s) b + reg_get (regs s) ix * sc + d))
                  (st_ok c s R) (st_room c s R) Hi (eq_sym ER) eq_refl)
        as (s1 & Hrun1 & A).
      destruct (instrument_mem_frame c Hc s (pending_count c s) instr i0 w n
                  (opnd_create_base_disp b ix sc d sz)
                  (wrap c (reg_get (regs s) b + reg_get (regs s) ix * sc + d))
                  (st_ok c s R) (st_room c s R) Hi (eq_sym ER) eq_refl)
        as (s1' & Hrun1' & _ & _ & K1).
      rewrite Hrun1 in Hrun1'. injection Hrun1' as <-.
      pose proof (counted_one s s1 _ R A K1) as T1.
      destruct (IH (S i0) (il ++ fst (instrument_mem c [] instr i0 w n))
                  (S (S n)) s1 ltac:(lia) (ct_steady c s s1 _ T1))
        as (code & n' & Hloop & s2 & Hrun2 & Hregs2 & T2).
      exists (fst (instrument_mem c [] instr i0 w n) ++ code), n'.
      split; [rewrite app_assoc; exact Hloop|].
      exists s2. split; [|split].
      * rewrite (run_app c _ _ _ _ _ Hrun1). exact Hrun2.
      * intros x. rewrite Hregs2. apply (ap_regs c s s1 _ _ A).
      * rewrite (flat_map_access_ext c instr (regs s) (regs s1))
          in T2 by (apply (ap_regs c s s1 _ _ A)).
        unfold access at 1. cbn [opnd_compute_address].
        rewrite length_app, Nat2Z.inj_add.
        apply (counted_trans s s1 s2 _ _ T1 T2).
    + destruct (IH (S i0) il n s ltac:(lia) R)
        as (code & n' & Hloop & s2 & Hrun2 & Hregs2 & T2).
      exists code, n'. split; [exact Hloop|].
      exists s2. split; [exact Hrun2|]. split; [exact Hregs2|].
      unfold access at 1.
      destruct (operand w instr i0); try discriminate EM; exact T2.
Qed.

Lemma event_bb_insert_counted instr n s :
  instr_ok c instr -> steady c s ->
  exists s',
    run c (fst (event_bb_insert c [] instr n)) None s = Some s'
    /\ (forall x, regs s' x = regs s x)
    /\ counted c s s' (Z.of_nat (length (accesses c instr (regs s)))).
Proof.
  intros Hi R. unfold event_bb_insert, accesses.
  destruct (instr_get_app_pc instr =? NULL).
  { exists s. cbn [fst run]. split; [reflexivity|]. split; [reflexivity|].
    apply (counted_refl s R). }
  change (fun (i : nat) (st : instrlist_t * nat) =>
            if opnd_is_memory_reference (instr_get_src instr i)
            then instrument_mem c (fst st) instr i false (snd st) else st)
    with (loop_body c false instr).
  change (fun (i : nat) (st : instrlist_t * nat) =>
            if opnd_is_memory_reference (instr_get_dst instr i)
            then instrument_mem c (fst st) instr i true (snd st) else st)
    with (loop_body c true instr).
  change (instr_srcs instr) with (skipn 0 (operands false instr)).
  change (instr_dsts instr) with (skipn 0 (operands true instr)).
  change (instr_num_srcs instr) with (length (operands false instr)).
  change (instr_num_dsts instr) with (length (operands true instr)).
  rewrite length_app, Nat2Z.inj_add.
  match goal with
  | |- context [for_loop 0 (length (operands true instr)) _ ?st] =>
      assert (S1 : exists code n1 s1,
                 st = (code, n1)
                 /\ run c code None s = Some s1
                 /\ (forall x, regs s1 x = regs s x)
                 /\ counted c s s1
                      (Z.of_nat
                         (length
                            (if instr_reads_memory instr
                             then flat_map (access c instr (regs s) false)
                                    (skipn 0 (operands false instr))
                             else []))))
  end.
  { destruct (instr_reads_memory instr).
    - destruct (operands_counted instr false Hi _ 0%nat [] n s eq_refl R)
        as (code & n1 & E & s1 & Hr & Hg & T).
      exists code, n1, s1. split; [exact E|]. split; [exact Hr|].
      split; [exact Hg|exact T].
    - exists [], n, s. split; [reflexivity|]. split; [reflexivity|].
      split; [reflexivity|]. apply (counted_refl s R). }
  destruct S1 as (code1 & n1 & s1 & E1 & Hr1 & Hg1 & T1). rewrite E1.
  destruct (instr_writes_memory instr).
  - destruct (operands_counted instr true Hi _ 0%nat code1 n1 s1 eq_refl
                (ct_steady c s s1 _ T1))
      as (code & n2 & E & s2 & Hr & Hg & T).
    rewrite E. cbn [fst]. exists s2. split; [|split].
    + rewrite (run_app c _ _ _ _ _ Hr1). exact Hr.
    + intros x. rewrite Hg. apply Hg1.
    + rewrite (flat_map_access_ext c instr (regs s) (regs s1)) in T
        by exact Hg1.
      apply (counted_trans s s1 s2 _ _ T1 T).
  - cbn [fst length]. exists s1. change (Z.of_nat 0) with 0.
    rewrite Z.add_0_r.
    split; [exact Hr1|]. split; [exact Hg1|exact T1].
Qed.

Lemma app_run_ext prog :
  Forall (instr_ok c) prog ->
  forall rs rs',
    (forall x, rs' x = rs x) ->
    forall x, app_run prog rs' x = app_run prog rs x.
Proof.
  induction 1 as [|i prog Hi _ IH]; intros rs rs' H; cbn [app_run];
    [exact H|].
  apply IH. apply (effect_ext c i Hi rs rs' H).
Qed.

Lemma thread_run_counted prog :
  Forall (instr_ok c) prog ->
  forall n s,
    steady c s ->
    exists s',
      thread_run c prog n s = Some s'
      /\ (forall x, regs s' x = app_run prog (regs s) x)
      /\ counted c s s' (Z.of_nat (length (run_accesses c prog (regs s)))).
Proof.
  induction 1 as [|i prog Hi Hp IH]; intros n s R.
  - exists s. split; [reflexivity|]. split; [reflexivity|].
    apply (counted_refl s R).
  - cbn [thread_run run_accesses app_run].
    destruct (event_bb_insert_counted i n s Hi R) as (s1 & Hr & Hg & T1).
    destruct (event_bb_insert c [] i n) as [il n1]. cbn [fst] in Hr.
    rewrite Hr.
    destruct (IH n1 (exec_app i s1)
                (steady_set_regs s1 _ (ct_steady c s s1 _ T1)))
      as (s2 & Hr2 & Hg2 & T2).
    exists s2. split; [exact Hr2|].
    unfold exec_app in Hg2, T2. cbn [regs set_regs] in Hg2, T2.
    split.
    + intros x. rewrite Hg2.
      apply (app_run_ext prog Hp (app_effect i (regs s))
               (app_effect i (regs s1))
               (effect_ext c i Hi (regs s) (regs s1) Hg)).
    + rewrite (run_accesses_ext c prog Hp (app_effect i (regs s))
                 (app_effect i (regs s1))
                 (effect_ext c i Hi (regs s) (regs s1) Hg)) in T2.
      rewrite length_app, Nat2Z.inj_add.
      apply (counted_trans s s1 s2 _ _ T1).
      destruct T2 as [B1 B2 B3 BM B4].
      constructor; assumption.
Qed.

End Counting.

Lemma ready_steady c s : ready c s -> steady c s.
Proof. intros [R1 R2 R3 R4]. constructor; assumption. Qed.

(** Write failures to come do not put a thread out of order. *)
Lemma with_faults_steady c s fl : steady c s -> steady c (with_faults s fl).
Proof.
  intros [S1 S2]. constructor; [|exact S2].
  apply (thread_ok_ext c s); [reflexivity | reflexivity | exact S1].
Qed.

Lemma s_init_steady : steady cfg2 s_init.
Proof. exact (ready_steady cfg2 s_init s_init_ready). Qed.

(** ** Transparency of the inserted code *)

(** X1.  The code that [event_bb_insert] puts in front of an instruction is
    transparent to the application's registers: it runs to its end, through
    the code cache and [memtrace] if the buffer fills and whether or not
    the writes to the log succeed, and every register then holds what it
    held before, the two scratch registers included; the first spill slot
    and the thread's tls field are as they were. *)
Theorem X1_inserted_code_keeps_registers c instr n s :
  config_ok c -> instr_ok c instr -> steady c s ->
  exists s',
    run c (fst (event_bb_insert c [] instr n)) None s = Some s'
    /\ (forall x, regs s' x = regs s x)
    /\ slots s' SPILL_SLOT_1 = slots s SPILL_SLOT_1
    /\ tls_field s' = tls_field s.
Proof.
  intros Hc Hi R.
  destruct (event_bb_insert_counted c Hc instr n s Hi R)
    as (s' & Hr & Hg & T).
  exists s'. split; [exact Hr|]. split; [exact Hg|].
  split; [|apply (ct_tls c s s' _ T)].
  destruct (event_bb_insert_shape c instr n) as (code & E & _ & _ & F).
  rewrite (E []) in Hr. cbn [fst app] in Hr.
  apply (run_slots c SPILL_SLOT_1 code None s s' F Hr).
Qed.

Lemma X1_inserted_code_keeps_registers_witness :
  exists s',
    run cfg2 (fst (event_bb_insert cfg2 [] i_three 0)) None s_init = Some s'
    /\ (forall x, regs s' x = regs s_init x)
    /\ slots s' SPILL_SLOT_1 = slots s_init SPILL_SLOT_1
    /\ tls_field s' = tls_field s_init.
Proof.
  apply (X1_inserted_code_keeps_registers cfg2 i_three 0 s_init).
  - exact cfg2_ok.
  - apply mk_instr_ok; lia.
  - exact s_init_steady.
Defined.

(** X2.  The inserted code writes no memory but the client's own: whatever
    it does for an instruction, the fast path or the flush, an address
    outside the thread's [per_thread_t] and outside its buffer holds
    afterwards what it held before. *)
Theorem X2_inserted_code_keeps_application_memory c instr n s :
  config_ok c -> instr_ok c instr -> steady c s ->
  exists s',
    run c (fst (event_bb_insert c [] instr n)) None s = Some s'
    /\ forall a,
         client_memory c s a = false -> load (mem s') a = load (mem s) a.
Proof.
  intros Hc Hi R.
  destruct (event_bb_insert_counted c Hc instr n s Hi R)
    as (s' & Hr & _ & T).
  exists s'. split; [exact Hr|]. apply (ct_mem c s s' _ T).
Qed.

Lemma X2_inserted_code_keeps_application_memory_witness :
  exists s',
    run cfg2 (fst (event_bb_insert cfg2 [] i_three 0)) None s_init = Some s'
    /\ forall a,
         client_memory cfg2 s_init a = false ->
         load (mem s') a = load (mem s_init) a.
Proof.
  apply (X2_inserted_code_keeps_application_memory cfg2 i_three 0 s_init).
  - exact cfg2_ok.
  - apply mk_instr_ok; lia.
  - exact s_init_steady.
Defined.

(** X3.  One sequence of [instrument_mem] keeps the two scratch registers
    in the second and third spill slot and takes them back from there: when
    it is done these two slots hold the application's [XBX] and [XCX], what
    they held before is lost, and the first slot is not used. *)
Theorem X3_instrument_mem_spill_slots c s k instr pos (w : bool) n ref a :
  config_ok c -> thread_ok c s k -> k < MAX_NUM_MEM_REFS c ->
  instr_ok c instr ->
  ref = (if w then instr_get_dst instr pos else instr_get_src instr pos) ->
  opnd_compute_address c (regs s) ref = Some a ->
  exists s',
    run c (fst (instrument_mem c [] instr pos w n)) None s = Some s'
    /\ slots s' SPILL_SLOT_2 = regs s DR_REG_XBX
    /\ slots s' SPILL_SLOT_3 = regs s DR_REG_XCX
    /\ slots s' SPILL_SLOT_1 = slots s SPILL_SLOT_1.
Proof.
  intros Hc H Hk Hi Href Ha.
  destruct (instrument_mem_frame c Hc s k instr pos w n ref a H Hk Hi Href
              Ha)
    as (s' & Hr & S2 & S3 & _).
  exists s'. split; [exact Hr|]. split; [exact S2|]. split; [exact S3|].
  destruct (instrument_mem_shape c instr pos w n) as (_ & _ & F).
  apply (run_slots c SPILL_SLOT_1 _ None s s' F Hr).
Qed.

Lemma X3_instrument_mem_spill_slots_witness :
  exists s',
    run cfg2 (fst (instrument_mem cfg2 [] i_store 0 true 0)) None s_init
    = Some s'
    /\ slots s' SPILL_SLOT_2 = regs s_init DR_REG_XBX
    /\ slots s' SPILL_SLOT_3 = regs s_init DR_REG_XCX
    /\ slots s' SPILL_SLOT_1 = slots s_init SPILL_SLOT_1.
Proof.
  apply (X3_instrument_mem_spill_slots cfg2 s_init 0 i_store 0%nat true 0%nat
           (instr_get_dst i_store 0) 7000).
  - exact cfg2_ok.
  - exact (rd_ok cfg2 s_init s_init_ready).
  - reflexivity.
  - apply mk_instr_ok; lia.
  - reflexivity.
  - reflexivity.
Defined.

(** X4.  The buffer never overflows.  Between two instructions of a thread
    [buf_ptr] lies a whole number of records past [buf_base] and at least
    one record before the end of the buffer, so the next record fits; the
    buffer itself and [buf_end] never move.  This holds whether or not the
    writes to the log succeed. *)
Theorem X4_buffer_never_overflows c prog n s :
  config_ok c -> Forall (instr_ok c) prog -> steady c s ->
  exists s',
    thread_run c prog n s = Some s'
    /\ tls_field s' = tls_field s
    /\ get_field c s' (tls_field s') buf_base
       = get_field c s (tls_field s) buf_base
    /\ get_field c s' (tls_field s') buf_end
       = get_field c s (tls_field s) buf_end
    /\ get_field c s' (tls_field s') buf_base
       <= get_field c s' (tls_field s') buf_ptr
    /\ get_field c s' (tls_field s') buf_ptr + sizeof_mem_ref_t c
       <= get_field c s' (tls_field s') buf_base + MEM_BUF_SIZE c
    /\ (get_field c s' (tls_field s') buf_ptr
        - get_field c s' (tls_field s') buf_base) mod sizeof_mem_ref_t c = 0.
Proof.
  intros Hc Hp R.
  destruct (thread_run_counted c Hc prog Hp n s R) as (s' & Hr & _ & T).
  exists s'. split; [exact Hr|].
  pose proof (ct_tls c s s' _ T) as ET.
  pose proof (ct_steady c s s' _ T) as R'.
  split; [exact ET|].
  split; [rewrite ET; apply (ct_static c s s' _ T); discriminate|].
  split; [rewrite ET; apply (ct_static c s s' _ T); discriminate|].
  pose proof (slot_in_buffer c s' _ (st_ok c s' R') (st_room c s' R'))
    as [B1 B2].
  split; [exact B1|]. split; [exact B2|].
  rewrite (ok_ptr c s' _ (st_ok c s' R')).
  replace (get_field c s' (tls_field s') buf_base
           + pending_count c s' * sizeof_mem_ref_t c
           - get_field c s' (tls_field s') buf_base)
    with (pending_count c s' * sizeof_mem_ref_t c) by lia.
  apply Z.mod_mul. pose proof (sizeof_mem_ref_t_pos c). lia.
Qed.

Lemma X4_buffer_never_overflows_witness :
  exists s',
    thread_run cfg2 five_refs 0 s_init = Some s'
    /\ tls_field s' = tls_field s_init
    /\ get_field cfg2 s' (tls_field s') buf_base
       = get_field cfg2 s_init (tls_field s_init) buf_base
    /\ get_field cfg2 s' (tls_field s') buf_end
       = get_field cfg2 s_init (tls_field s_init) buf_end
    /\ get_field cfg2 s' (tls_field s') buf_base
       <= get_field cfg2 s' (tls_field s') buf_ptr
    /\ get_field cfg2 s' (tls_field s') buf_ptr + sizeof_mem_ref_t cfg2
       <= get_field cfg2 s' (tls_field s') buf_base + MEM_BUF_SIZE cfg2
    /\ (get_field cfg2 s' (tls_field s') buf_ptr
        - get_field cfg2 s' (tls_field s') buf_base)
       mod sizeof_mem_ref_t cfg2 = 0.
Proof.
  exact (X4_buffer_never_overflows cfg2 five_refs 0 s_init
           cfg2_ok five_refs_ok s_init_steady).
Defined.

(** ** The shape of what [event_bb_insert] inserts *)

(** X5.  [event_bb_insert] only adds in front of the instruction: the list
    it is given comes back with the new code after it, and that code does
    not depend on what the list held.  Each instrumented operand costs 22
    instructions and two labels, and there are as many instrumented
    operands as references recorded when the instruction executes. *)
Theorem X5_event_bb_insert_appends c bb instr n rs :
  event_bb_insert c bb instr n =
  (bb ++ fst (event_bb_insert c [] instr n),
   (n + 2 * instrumented_operands instr)%nat)
  /\ length (fst (event_bb_insert c [] instr n))
     = (22 * instrumented_operands instr)%nat
  /\ length (accesses c instr rs) = instrumented_operands instr.
Proof.
  destruct (event_bb_insert_shape c instr n) as (code & E & L & _ & _).
  rewrite (E bb), (E []). cbn [fst app].
  split; [reflexivity|]. split; [exact L|].
  unfold accesses, instrumented_operands.
  destruct (instr_get_app_pc instr =? NULL); [reflexivity|].
  rewrite length_app.
  destruct (instr_reads_memory instr), (instr_writes_memory instr);
    rewrite ?flat_map_access_length; reflexivity.
Qed.

(** X6.  The labels of the inserted code are new ones and each is placed
    once: they are the labels numbered from the count before
    [event_bb_insert] up to the count after it, in this order, after the
    labels the list already held. *)
Theorem X6_inserted_labels_fresh c bb instr n :
  (n <= snd (event_bb_insert c bb instr n))%nat
  /\ labels_of (fst (event_bb_insert c bb instr n))
     = labels_of bb
       ++ seq n (snd (event_bb_insert c bb instr n) - n)
  /\ NoDup (labels_of (fst (event_bb_insert c [] instr n))).
Proof.
  destruct (event_bb_insert_shape c instr n) as (code & E & _ & B & _).
  rewrite (E bb), (E []). cbn [fst snd app].
  split; [lia|]. split.
  - rewrite labels_of_app, B. f_equal. f_equal. lia.
  - rewrite B. apply seq_NoDup.
Qed.

(** ** More on [memtrace] *)

(** The lines of [ls] that reach the file when the coming writes succeed or
    fail as [fl] says. *)
Fixpoint kept (ls : list line) (fl : list bool) : list line :=
  match ls with
  | [] => []
  | l :: rest =>
      if hd false fl then kept rest (tl fl) else l :: kept rest (tl fl)
  end.

Lemma written_emit f ls fl : written f (emit f ls fl) = kept ls fl.
Proof.
  revert fl; induction ls as [|l ls IH]; intros fl; [reflexivity|].
  cbn [emit written kept io_file io_ok io_line]. rewrite Z.eqb_refl, IH.
  destruct (hd false fl); reflexivity.
Qed.

(** X7.  [memtrace] touches nothing but the buffer, the two members
    [buf_ptr] and [num_refs], and the thread's log: the registers, the
    spill slots and the tls field are as before, nothing is allocated and
    no file is opened, every other file holds what it held, and so does
    every other address. *)
Theorem X7_memtrace_frame c s k :
  config_ok c -> thread_ok c s k ->
  (forall x, regs (memtrace c s) x = regs s x)
  /\ (forall x, slots (memtrace c s) x = slots s x)
  /\ tls_field (memtrace c s) = tls_field s
  /\ heap_next (memtrace c s) = heap_next s
  /\ next_file (memtrace c s) = next_file s
  /\ (forall f, f <> get_field c s (tls_field s) log ->
        file_contents (memtrace c s) f = file_contents s f)
  /\ (forall f, f <> buf_ptr -> f <> num_refs ->
        get_field c (memtrace c s) (tls_field s) f
        = get_field c s (tls_field s) f)
  /\ (forall a,
        a < get_field c s (tls_field s) buf_base
        \/ get_field c s (tls_field s) buf_base + MEM_BUF_SIZE c <= a ->
        a <> tls_field s + offsetof_per_thread_t c buf_ptr ->
        a <> tls_field s + offsetof_per_thread_t c num_refs ->
        load (mem (memtrace c s)) a = load (mem s) a).
Proof.
  intros Hc OK.
  destruct (memtrace_frame c s) as (ER & ES & ET & EH & EN).
  split; [intros x; rewrite ER; reflexivity|].
  split; [intros x; rewrite ES; reflexivity|].
  split; [exact ET|]. split; [exact EH|]. split; [exact EN|].
  split; [intros f Hf; apply (memtrace_other_files c Hc s k f OK Hf)|].
  split.
  - intros f H1 H2. rewrite (memtrace_fields c Hc s k OK f).
    destruct f; congruence.
  - intros a Ha H1 H2. rewrite (memtrace_mem c Hc s k OK).
    rewrite !load_store_other by assumption.
    apply load_memset_out. exact Ha.
Qed.

Lemma X7_memtrace_frame_witness :
  (forall x, regs (memtrace cfg2 s_init) x = regs s_init x)
  /\ (forall x, slots (memtrace cfg2 s_init) x = slots s_init x)
  /\ tls_field (memtrace cfg2 s_init) = tls_field s_init
  /\ heap_next (memtrace cfg2 s_init) = heap_next s_init
  /\ next_file (memtrace cfg2 s_init) = next_file s_init
  /\ (forall f, f <> get_field cfg2 s_init (tls_field s_init) log ->
        file_contents (memtrace cfg2 s_init) f = file_contents s_init f)
  /\ (forall f, f <> buf_ptr -> f <> num_refs ->
        get_field cfg2 (memtrace cfg2 s_init) (tls_field s_init) f
        = get_field cfg2 s_init (tls_field s_init) f)
  /\ (forall a,
        a < get_field cfg2 s_init (tls_field s_init) buf_base
        \/ get_field cfg2 s_init (tls_field s_init) buf_base
           + MEM_BUF_SIZE cfg2 <= a ->
        a <> tls_field s_init + offsetof_per_thread_t cfg2 buf_ptr ->
        a <> tls_field s_init + offsetof_per_thread_t cfg2 num_refs ->
        load (mem (memtrace cfg2 s_init)) a = load (mem s_init) a).
Proof.
  exact (X7_memtrace_frame cfg2 s_init _ cfg2_ok
           (rd_ok cfg2 s_init s_init_ready)).
Defined.

(** X8.  Flushing twice in a row: the second [memtrace] finds the buffer
    empty, prints the header line once more and leaves all of memory, the
    counter included, as the first one left it. *)
Theorem X8_memtrace_twice c s k :
  config_ok c -> thread_ok c s k ->
  (forall a,
     load (mem (memtrace c (memtrace c s))) a = load (mem (memtrace c s)) a)
  /\ io (memtrace c (memtrace c s)) =
     io (memtrace c s)
     ++ [{| io_file := get_field c s (tls_field s) log;
            io_line := Format_header;
            io_ok := negb (hd false (faults (memtrace c s))) |}].
Proof.
  intros Hc OK.
  pose proof (memtrace_ok c Hc s k OK) as OK'.
  destruct (memtrace_frame c s) as (_ & _ & ET & _ & _).
  pose proof (memtrace_fields c Hc s k OK num_refs) as NUM.
  pose proof (memtrace_fields c Hc s k OK buf_base) as BASE.
  pose proof (memtrace_fields c Hc s k OK log) as LOG.
  cbv beta iota in NUM, BASE, LOG.
  assert (ZERO : forall a,
             get_field c s (tls_field s) buf_base <= a
             < get_field c s (tls_field s) buf_base + MEM_BUF_SIZE c ->
             load (mem (memtrace c s)) a = 0)
    by (intros a Ha; apply (memtrace_zeroed c Hc s k a OK Ha)).
  revert OK' ET NUM BASE LOG ZERO. generalize (memtrace c s).
  intros s' OK' ET NUM BASE LOG ZERO.
  split.
  - intros a. rewrite (memtrace_mem c Hc s' 0 OK'), ET, BASE, NUM.
    destruct (Z.eq_dec a (tls_field s + offsetof_per_thread_t c buf_ptr))
      as [->|N1].
    { rewrite load_store_same.
      pose proof (ok_ptr c s' 0 OK') as P. rewrite ET, BASE in P.
      unfold get_field in P at 1. rewrite P. lia. }
    rewrite load_store_other by exact N1.
    destruct (Z.eq_dec a (tls_field s + offsetof_per_thread_t c num_refs))
      as [->|N2].
    { rewrite load_store_same.
      change (load (mem s') (tls_field s + offsetof_per_thread_t c num_refs))
        with (get_field c s' (tls_field s) num_refs).
      rewrite NUM, Z.add_0_r. unfold to_uint64. apply Z.mod_mod.
      discriminate. }
    rewrite load_store_other by exact N2.
    destruct (Z_lt_dec a (get_field c s (tls_field s) buf_base)) as [L|L].
    { apply load_memset_out. left. exact L. }
    destruct (Z_le_dec (get_field c s (tls_field s) buf_base
                        + MEM_BUF_SIZE c) a) as [G|G].
    { apply load_memset_out. right. exact G. }
    rewrite load_memset_in by lia. symmetry. apply ZERO. lia.
  - destruct (memtrace_io c Hc s' 0 OK') as (EIO & _).
    rewrite EIO, (pending_nil c s' OK'), ET, LOG. reflexivity.
Qed.

Lemma X8_memtrace_twice_witness :
  (forall a,
     load (mem (memtrace cfg2 (memtrace cfg2 s_init))) a
     = load (mem (memtrace cfg2 s_init)) a)
  /\ io (memtrace cfg2 (memtrace cfg2 s_init)) =
     io (memtrace cfg2 s_init)
     ++ [{| io_file := get_field cfg2 s_init (tls_field s_init) log;
            io_line := Format_header;
            io_ok := negb (hd false (faults (memtrace cfg2 s_init))) |}].
Proof.
  exact (X8_memtrace_twice cfg2 s_init _ cfg2_ok
           (rd_ok cfg2 s_init s_init_ready)).
Defined.

(** X9.  Whatever writes fail, [memtrace] goes on: the log receives, in
    order, exactly the lines whose write succeeded, one outcome is used up
    for the header and for each record, and the buffer is emptied and the
    counter advanced by the number of records that were in the buffer,
    written or not. *)
Theorem X9_memtrace_partial_failures c s k :
  config_ok c -> thread_ok c s k ->
  thread_log c (memtrace c s) =
  thread_log c s
  ++ kept (Format_header :: map ref_line (pending c s)) (faults s)
  /\ faults (memtrace c s) = skipn (S (Z.to_nat k)) (faults s)
  /\ pending c (memtrace c s) = []
  /\ get_field c (memtrace c s) (tls_field s) num_refs
     = to_uint64 (get_field c s (tls_field s) num_refs + k).
Proof.
  intros Hc OK.
  destruct (memtrace_frame c s) as (_ & _ & ET & _ & _).
  destruct (memtrace_io c Hc s k OK) as (EIO & EF).
  split; [|split; [exact EF|split]].
  - unfold thread_log, file_contents.
    rewrite ET, (memtrace_fields c Hc s k OK log), EIO, written_app.
    rewrite written_emit. reflexivity.
  - apply (pending_nil c _ (memtrace_ok c Hc s k OK)).
  - apply (memtrace_fields c Hc s k OK num_refs).
Qed.

(** A thread with one record pending whose next write fails and the one
    after succeeds. *)
Definition s_partial : thread_t :=
  with_faults (after_run cfg2 [i_load] s_init) [true; false].

Lemma s_partial_ok : thread_ok cfg2 s_partial 1.
Proof.
  destruct (thread_run_traced cfg2 cfg2_ok [i_load]
              ltac:(repeat (apply Forall_cons; [apply mk_instr_ok; lia|]);
                    apply Forall_nil)
              0%nat s_init s_init_ready) as (s1 & Hr & T).
  unfold s_partial, after_run. rewrite Hr.
  apply (thread_ok_ext cfg2 s1); [reflexivity | reflexivity |].
  pose proof (rd_ok cfg2 s1 (tr_ready _ _ _ _ T)) as OK.
  rewrite (tr_pending _ _ _ _ T) in OK. exact OK.
Qed.

Lemma X9_memtrace_partial_failures_witness :
  thread_log cfg2 (memtrace cfg2 s_partial) =
  thread_log cfg2 s_partial
  ++ kept (Format_header :: map ref_line (pending cfg2 s_partial))
          (faults s_partial)
  /\ faults (memtrace cfg2 s_partial)
     = skipn (S (Z.to_nat 1)) (faults s_partial)
  /\ pending cfg2 (memtrace cfg2 s_partial) = []
  /\ get_field cfg2 (memtrace cfg2 s_partial) (tls_field s_partial) num_refs
     = to_uint64
         (get_field cfg2 s_partial (tls_field s_partial) num_refs + 1).
Proof.
  exact (X9_memtrace_partial_failures cfg2 s_partial 1 cfg2_ok s_partial_ok).
Defined.

(** The header is lost and the record is written. *)
Example s_partial_log :
  thread_log cfg2 (memtrace cfg2 s_partial) = [Ref_line 400 false 4 2016].
Proof. reflexivity. Qed.

(** ** A thread's log and buffer while it runs *)

(** X10.  While a thread runs, its log holds whole buffers only: of the
    references made so far, the log has the first ones, as many as fill the
    buffer a whole number of times, and the buffer has the rest; the
    thread's counter is the number of records in its log. *)
Theorem X10_log_holds_whole_buffers c s0 prog n :
  config_ok c -> fresh c s0 -> Forall (instr_ok c) prog ->
  exists s1,
    thread_run c prog n (event_thread_init c s0) = Some s1
    /\ log_refs c s1 =
       firstn (Z.to_nat
                 (MAX_NUM_MEM_REFS c
                  * (Z.of_nat (length (run_accesses c prog (regs s0)))
                     / MAX_NUM_MEM_REFS c)))
              (run_accesses c prog (regs s0))
    /\ pending c s1 =
       skipn (Z.to_nat
                (MAX_NUM_MEM_REFS c
                 * (Z.of_nat (length (run_accesses c prog (regs s0)))
                    / MAX_NUM_MEM_REFS c)))
             (run_accesses c prog (regs s0))
    /\ get_field c s1 (tls_field s1) num_refs
       = to_uint64 (Z.of_nat (length (log_refs c s1))).
Proof.
  intros Hc Fr Hp.
  destruct (thread_lifetime c Hc s0 prog n Fr Hp)
    as (s1 & Hr & R & Rec & _ & PC & NR).
  exists s1. split; [exact Hr|].
  pose proof (pending_length c s1 _ (rd_ok c s1 R)) as PL.
  pose proof (cap_pos c Hc) as Hm.
  assert (LL : length (log_refs c s1) =
               Z.to_nat
                 (MAX_NUM_MEM_REFS c
                  * (Z.of_nat (length (run_accesses c prog (regs s0)))
                     / MAX_NUM_MEM_REFS c))).
  { pose proof (f_equal (@length mem_ref_t) Rec) as E.
    unfold recorded in E. rewrite length_app in E.
    pose proof (Z.div_mod (Z.of_nat (length (run_accesses c prog (regs s0))))
                  (MAX_NUM_MEM_REFS c) ltac:(lia)) as DM.
    lia. }
  rewrite <- LL, <- Rec. unfold recorded.
  split; [|split].
  - rewrite firstn_app, firstn_all, Nat.sub_diag. cbn [firstn].
    rewrite app_nil_r. reflexivity.
  - rewrite skipn_app, skipn_all, Nat.sub_diag. reflexivity.
  - rewrite NR, LL, Z2Nat.id; [reflexivity|].
    apply Z.mul_nonneg_nonneg; [lia|]. apply Z.div_pos; lia.
Qed.

Lemma X10_log_holds_whole_buffers_witness :
  exists s1,
    thread_run cfg2 five_refs 0 (event_thread_init cfg2 s_start) = Some s1
    /\ log_refs cfg2 s1 =
       firstn (Z.to_nat
                 (MAX_NUM_MEM_REFS cfg2
                  * (Z.of_nat
                       (length (run_accesses cfg2 five_refs (regs s_start)))
                     / MAX_NUM_MEM_REFS cfg2)))
              (run_accesses cfg2 five_refs (regs s_start))
    /\ pending cfg2 s1 =
       skipn (Z.to_nat
                (MAX_NUM_MEM_REFS cfg2
                 * (Z.of_nat
                      (length (run_accesses cfg2 five_refs (regs s_start)))
                    / MAX_NUM_MEM_REFS cfg2)))
             (run_accesses cfg2 five_refs (regs s_start))
    /\ get_field cfg2 s1 (tls_field s1) num_refs
       = to_uint64 (Z.of_nat (length (log_refs cfg2 s1))).
Proof.
  exact (X10_log_holds_whole_buffers cfg2 s_start five_refs 0
           cfg2_ok s_start_fresh five_refs_ok).
Defined.

(** ** Threads at exit *)

Lemma total_refs_perm c ths ths' :
  Permutation ths ths' -> total_refs c ths = total_refs c ths'.
Proof.
  induction 1; cbn [total_refs fold_right] in *;
    unfold total_refs in *; cbn [fold_right]; lia.
Qed.

(** X11.  The global count does not depend on the order in which the
    threads exit: the same threads taken in another order leave the same
    count, and the mutex free. *)
Theorem X11_exit_order_irrelevant c ths ths' g :
  config_ok c -> Forall (thread_valid c) ths -> Permutation ths ths' ->
  g_mutex g = None -> 0 <= g_num_refs g < 2 ^ 64 ->
  exists g1 fin1 g2 fin2,
    session c ths g = Some (g1, fin1)
    /\ session c ths' g = Some (g2, fin2)
    /\ g_num_refs g1 = g_num_refs g2
    /\ g_mutex g1 = None /\ g_mutex g2 = None.
Proof.
  intros Hc Hv P Hg Hr.
  destruct (session_total c Hc ths Hv g Hg Hr)
    as (g1 & fin1 & Hs1 & Hm1 & Hn1 & _).
  destruct (session_total c Hc ths' (Permutation_Forall P Hv) g Hg Hr)
    as (g2 & fin2 & Hs2 & Hm2 & Hn2 & _).
  exists g1, fin1, g2, fin2.
  split; [exact Hs1|]. split; [exact Hs2|].
  split; [|split; assumption].
  rewrite Hn1, Hn2, (total_refs_perm c ths ths' P). reflexivity.
Qed.

Lemma X11_exit_order_irrelevant_witness :
  exists g1 fin1 g2 fin2,
    session cfg2 [(1%nat, s_start, five_refs); (2%nat, s_start, [i_add])]
      g_start = Some (g1, fin1)
    /\ session cfg2 [(2%nat, s_start, [i_add]); (1%nat, s_start, five_refs)]
         g_start = Some (g2, fin2)
    /\ g_num_refs g1 = g_num_refs g2
    /\ g_mutex g1 = None /\ g_mutex g2 = None.
Proof.
  apply (X11_exit_order_irrelevant cfg2
           [(1%nat, s_start, five_refs); (2%nat, s_start, [i_add])]
           [(2%nat, s_start, [i_add]); (1%nat, s_start, five_refs)] g_start).
  - exact cfg2_ok.
  - apply Forall_cons; [|apply Forall_cons; [|apply Forall_nil]].
    + split; [exact s_start_fresh | exact five_refs_ok].
    + split; [exact s_start_fresh|].
      apply Forall_cons; [apply mk_instr_ok; lia|apply Forall_nil].
  - apply perm_swap.
  - reflexivity.
  - split; [discriminate | reflexivity].
Defined.

(** ** The code cache *)

Lemma run_to_label c (Hc : config_ok c) l rest :
  forall skipped s,
    ~ In l (labels_of skipped) ->
    run c (skipped ++ INSTR_CREATE_label l :: rest) (Some (label_pc c l)) s
    = run c rest None s.
Proof.
  induction skipped as [|i sk IH]; intros s N.
  - cbn [app run]. rewrite Z.eqb_refl. reflexivity.
  - cbn [app].
    destruct i; cbn [run]; try (apply IH; exact N).
    destruct (Z.eqb_spec (label_pc c id) (label_pc c l)) as [E|E].
    + exfalso. apply N. left. apply (labels_inj c Hc _ _ E).
    + apply IH. intros I. apply N. right. exact I.
Qed.

(** X12.  The way through the code cache and back.  A jump to
    [code_cache] with the address of a label in [XCX] calls [memtrace]
    once, with the registers saved around the call, and goes on after that
    label, passing over what lies before it. *)
Theorem X12_code_cache_round_trip c s l skipped rest :
  config_ok c -> regs s DR_REG_XCX = label_pc c l ->
  ~ In l (labels_of skipped) ->
  run_code_cache c (code_cache_init c) s
  = Some (set_regs (memtrace c s) (regs s), label_pc c l)
  /\ run c (INSTR_CREATE_jmp (opnd_create_pc (code_cache c))
            :: skipped ++ INSTR_CREATE_label l :: rest) None s
     = run c rest None (set_regs (memtrace c s) (regs s)).
Proof.
  intros Hc HX N. split.
  - cbn [code_cache_init dr_insert_clean_call instrlist_meta_preinsert app
         run_code_cache exec_instr regs set_regs].
    rewrite HX. reflexivity.
  - rewrite run_jmp_code_cache, HX, clean_call_eq.
    apply (run_to_label c Hc l rest skipped _ N).
Qed.

Lemma X12_code_cache_round_trip_witness :
  run_code_cache cfg2 (code_cache_init cfg2)
    (set_reg s_init DR_REG_XCX 8193)
  = Some (set_regs (memtrace cfg2 (set_reg s_init DR_REG_XCX 8193))
                   (regs (set_reg s_init DR_REG_XCX 8193)),
          label_pc cfg2 1)
  /\ run cfg2 (INSTR_CREATE_jmp (opnd_create_pc (code_cache cfg2))
               :: [INSTR_CREATE_label 0;
                   I_restore_reg DR_REG_XBX SPILL_SLOT_2]
                  ++ INSTR_CREATE_label 1 :: [])
         None (set_reg s_init DR_REG_XCX 8193)
     = run cfg2 [] None
         (set_regs (memtrace cfg2 (set_reg s_init DR_REG_XCX 8193))
                   (regs (set_reg s_init DR_REG_XCX 8193))).
Proof.
  apply (X12_code_cache_round_trip cfg2 (set_reg s_init DR_REG_XCX 8193)
           1%nat [INSTR_CREATE_label 0; I_restore_reg DR_REG_XBX SPILL_SLOT_2]
           []).
  - exact cfg2_ok.
  - reflexivity.
  - cbn. intros [H|[]]. discriminate H.
Defined.

(** ** A thread at its start *)

Lemma init_mem_frame c s0 a :
  a < heap_next s0 \/ heap_next s0 + sizeof_per_thread_t c <= a ->
  load (mem (event_thread_init c s0)) a = load (mem s0) a.
Proof.
  intros Ha.
  unfold event_thread_init, dr_thread_alloc, log_file_open,
    drmgr_set_tls_field, set_field, get_field.
  cbn [mem set_mem heap_next next_file tls_field].
  pose proof (offsetof_per_thread_t_range c buf_ptr).
  pose proof (offsetof_per_thread_t_range c buf_base).
  pose proof (offsetof_per_thread_t_range c buf_end).
  pose proof (offsetof_per_thread_t_range c num_refs).
  pose proof (offsetof_per_thread_t_range c log).
  rewrite !load_store_other by lia. reflexivity.
Qed.

(** X13.  What [event_thread_init] sets up.  The thread's structure is the
    block the allocator hands out first and the buffer the next one; the
    buffer is empty, the counter is 0, [buf_end] is the negated end of the
    buffer, and the log is a newly opened file with nothing in it.  The
    member [cache] is not written, nor is the buffer or any other address
    outside the structure, and the registers are not touched. *)
Theorem X13_thread_init_state c s0 :
  config_ok c -> fresh c s0 ->
  tls_field (event_thread_init c s0) = heap_next s0
  /\ get_field c (event_thread_init c s0) (heap_next s0) buf_base
     = heap_next s0 + sizeof_per_thread_t c
  /\ heap_next (event_thread_init c s0)
     = heap_next s0 + sizeof_per_thread_t c + MEM_BUF_SIZE c
  /\ thread_ok c (event_thread_init c s0) 0
  /\ pending c (event_thread_init c s0) = []
  /\ get_field c (event_thread_init c s0) (heap_next s0) num_refs = 0
  /\ get_field c (event_thread_init c s0) (heap_next s0) log = next_file s0
  /\ next_file (event_thread_init c s0) = next_file s0 + 1
  /\ thread_log c (event_thread_init c s0) = []
  /\ get_field c (event_thread_init c s0) (heap_next s0) cache
     = get_field c s0 (heap_next s0) cache
  /\ (forall x, regs (event_thread_init c s0) x = regs s0 x)
  /\ (forall a,
        a < heap_next s0 \/ heap_next s0 + sizeof_per_thread_t c <= a ->
        load (mem (event_thread_init c s0)) a = load (mem s0) a).
Proof.
  intros Hc [F1 F2 F3 F4].
  pose proof (init_ok c Hc s0 F1 F2) as OK.
  split; [reflexivity|].
  split; [apply (init_fields c s0 buf_base)|].
  split; [unfold event_thread_init; cbn; lia|].
  split; [exact OK|].
  split; [apply (pending_nil c _ OK)|].
  split; [apply (init_fields c s0 num_refs)|].
  split; [apply (init_fields c s0 log)|].
  split; [reflexivity|].
  split.
  { unfold thread_log, file_contents.
    destruct (init_frame c s0) as (_ & _ & _ & EIO & _).
    rewrite EIO, F3. reflexivity. }
  split; [apply (init_fields c s0 cache)|].
  split; [reflexivity|].
  intros a Ha. apply (init_mem_frame c s0 a Ha).
Qed.

Lemma X13_thread_init_state_witness :
  tls_field (event_thread_init cfg2 s_start) = heap_next s_start
  /\ get_field cfg2 (event_thread_init cfg2 s_start) (heap_next s_start)
       buf_base
     = heap_next s_start + sizeof_per_thread_t cfg2
  /\ heap_next (event_thread_init cfg2 s_start)
     = heap_next s_start + sizeof_per_thread_t cfg2 + MEM_BUF_SIZE cfg2
  /\ thread_ok cfg2 (event_thread_init cfg2 s_start) 0
  /\ pending cfg2 (event_thread_init cfg2 s_start) = []
  /\ get_field cfg2 (event_thread_init cfg2 s_start) (heap_next s_start)
       num_refs = 0
  /\ get_field cfg2 (event_thread_init cfg2 s_start) (heap_next s_start) log
     = next_file s_start
  /\ next_file (event_thread_init cfg2 s_start) = next_file s_start + 1
  /\ thread_log cfg2 (event_thread_init cfg2 s_start) = []
  /\ get_field cfg2 (event_thread_init cfg2 s_start) (heap_next s_start) cache
     = get_field cfg2 s_start (heap_next s_start) cache
  /\ (forall x, regs (event_thread_init cfg2 s_start) x = regs s_start x)
  /\ (forall a,
        a < heap_next s_start
        \/ heap_next s_start + sizeof_per_thread_t cfg2 <= a ->
        load (mem (event_thread_init cfg2 s_start)) a
        = load (mem s_start) a).
Proof.
  exact (X13_thread_init_state cfg2 s_start cfg2_ok s_start_fresh).
Defined.

(** ** The record in memory *)

(** X14.  [instrument_mem] stores the one-byte member [write] with a
    four-byte move.  The store stays inside the record and ends before the
    next member: with either pointer size [addr] lies at least four bytes
    after [write], each of the three pointer-sized members ends inside the
    record, and a record is four pointers long. *)
Theorem X14_write_store_fits c f :
  f <> f_write ->
  offsetof_mem_ref_t c f_write + 4 <= offsetof_mem_ref_t c f
  /\ offsetof_mem_ref_t c f + ptr_bytes c <= sizeof_mem_ref_t c
  /\ sizeof_mem_ref_t c = 4 * ptr_bytes c.
Proof.
  intros Hf. rewrite !offsetof_mem_ref_t_eq, sizeof_mem_ref_t_eq.
  destruct (ptr_bytes_cases c) as [E|E]; rewrite E;
    destruct f; try congruence; cbn; lia.
Qed.

Lemma X14_write_store_fits_witness :
  offsetof_mem_ref_t cfg2 f_write + 4 <= offsetof_mem_ref_t cfg2 f_addr
  /\ offsetof_mem_ref_t cfg2 f_addr + ptr_bytes cfg2 <= sizeof_mem_ref_t cfg2
  /\ sizeof_mem_ref_t cfg2 = 4 * ptr_bytes cfg2.
Proof.
  apply (X14_write_store_fits cfg2 f_addr). discriminate.
Defined.

(** ** The application under the client *)

(** X15.  The application runs as it would without the client, whatever
    becomes of the writes to the log.  From a thread in working order the
    instrumented program runs to its end; the registers then hold what the
    application alone would have left in them; the thread is in working
    order again; and every reference has been counted: the counter and the
    number of records in the buffer have grown, together, by the number of
    references made. *)
Theorem X15_transparent_whatever_writes_fail c prog n s :
  config_ok c -> Forall (instr_ok c) prog -> steady c s ->
  exists s',
    thread_run c prog n s = Some s'
    /\ (forall x, regs s' x = app_run prog (regs s) x)
    /\ steady c s'
    /\ to_uint64 (get_field c s' (tls_field s') num_refs
                  + pending_count c s')
       = to_uint64 (get_field c s (tls_field s) num_refs
                    + pending_count c s
                    + Z.of_nat (length (run_accesses c prog (regs s)))).
Proof.
  intros Hc Hp R.
  destruct (thread_run_counted c Hc prog Hp n s R) as (s' & Hr & Hg & T).
  exists s'. split; [exact Hr|]. split; [exact Hg|].
  split; [apply (ct_steady c s s' _ T)|].
  rewrite (ct_tls c s s' _ T). apply (ct_total c s s' _ T).
Qed.

(** The sample thread, every write of which fails. *)
Definition s_deaf : thread_t := with_faults s_init (repeat true 8).

Lemma X15_transparent_whatever_writes_fail_witness :
  exists s',
    thread_run cfg2 five_refs 0 s_deaf = Some s'
    /\ (forall x, regs s' x = app_run five_refs (regs s_deaf) x)
    /\ steady cfg2 s'
    /\ to_uint64 (get_field cfg2 s' (tls_field s') num_refs
                  + pending_count cfg2 s')
       = to_uint64 (get_field cfg2 s_deaf (tls_field s_deaf) num_refs
                    + pending_count cfg2 s_deaf
                    + Z.of_nat
                        (length (run_accesses cfg2 five_refs
                                   (regs s_deaf)))).
Proof.
  apply (X15_transparent_whatever_writes_fail cfg2 five_refs 0 s_deaf).
  - exact cfg2_ok.
  - exact five_refs_ok.
  - exact (with_faults_steady cfg2 s_init (repeat true 8) s_init_steady).
Defined.

(** With every write failing the thread still counts its five references:
    four flushed and lost, one in the buffer, and nothing in the log. *)
Example s_deaf_run :
  option_map (fun s' => (get_field cfg2 s' (tls_field s') num_refs,
                         pending_count cfg2 s', thread_log cfg2 s'))
    (thread_run cfg2 five_refs 0 s_deaf)
  = Some (4, 1, []).
Proof. vm_compute. reflexivity. Qed.

(** ** When the flush happens *)

(** X16.  The flush happens exactly when the record just written fills the
    buffer.  While there is room after it, one sequence of [instrument_mem]
    adds its record to the buffer and calls nothing: no [dr_fprintf], no
    change of the counter.  When the record takes the last place, the same
    sequence goes on to [memtrace], which prints the header and all
    [MAX_NUM_MEM_REFS] records, the new one last, empties the buffer and
    adds [MAX_NUM_MEM_REFS] to the counter. *)
Theorem X16_flush_exactly_when_full c s k instr pos (w : bool) n ref a :
  config_ok c -> thread_ok c s k -> k < MAX_NUM_MEM_REFS c ->
  instr_ok c instr ->
  ref = (if w then instr_get_dst instr pos else instr_get_src instr pos) ->
  opnd_compute_address c (regs s) ref = Some a ->
  exists s',
    run c (fst (instrument_mem c [] instr pos w n)) None s = Some s'
    /\ (k + 1 < MAX_NUM_MEM_REFS c ->
        io s' = io s
        /\ faults s' = faults s
        /\ pending c s' =
           pending c s
           ++ [{| write := w; addr := a;
                  size := drutil_opnd_mem_size_in_bytes ref instr;
                  pc := instr_get_app_pc instr |}]
        /\ get_field c s' (tls_field s) num_refs
           = get_field c s (tls_field s) num_refs)
    /\ (k + 1 = MAX_NUM_MEM_REFS c ->
        io s' =
        io s
        ++ emit (get_field c s (tls_field s) log)
             (Format_header
              :: map ref_line
                   (pending c s
                    ++ [{| write := w; addr := a;
                           size := drutil_opnd_mem_size_in_bytes ref instr;
                           pc := instr_get_app_pc instr |}]))
             (faults s)
        /\ Z.of_nat
             (length
                (pending c s
                 ++ [{| write := w; addr := a;
                        size := drutil_opnd_mem_size_in_bytes ref instr;
                        pc := instr_get_app_pc instr |}]))
           = MAX_NUM_MEM_REFS c
        /\ pending c s' = []
        /\ get_field c s' (tls_field s) num_refs
           = to_uint64 (get_field c s (tls_field s) num_refs
                        + MAX_NUM_MEM_REFS c)).
Proof.
  intros Hc H Hk Hi Href Ha.
  destruct (instrument_mem_run c Hc s k instr pos w n ref a H Hk Hi Href Ha)
    as (s' & Hr & [A1 A2 A3 A4 A5 A6 A7 A8]).
  exists s'. split; [exact Hr|]. split.
  - intros Hlt.
    assert (E : (k + 1 =? MAX_NUM_MEM_REFS c) = false)
      by (apply Z.eqb_neq; lia).
    rewrite E in A5, A6, A7, A8. rewrite app_nil_r in A5.
    split; [exact A5|]. split; [exact A6|]. split; [exact A7|exact A8].
  - intros Heq.
    assert (E : (k + 1 =? MAX_NUM_MEM_REFS c) = true)
      by (apply Z.eqb_eq; exact Heq).
    rewrite E in A5, A7, A8.
    split; [exact A5|]. split; [|split; [exact A7|]].
    + rewrite length_app, Nat2Z.inj_add, (pending_length c s k H).
      cbn [length]. lia.
    + rewrite A8, Heq. reflexivity.
Qed.

Lemma X16_flush_exactly_when_full_witness :
  exists s',
    run cfg2 (fst (instrument_mem cfg2 [] i_store 0 true 0)) None s_partial
    = Some s'
    /\ (1 + 1 < MAX_NUM_MEM_REFS cfg2 ->
        io s' = io s_partial
        /\ faults s' = faults s_partial
        /\ pending cfg2 s' =
           pending cfg2 s_partial
           ++ [{| write := true; addr := 7000;
                  size := drutil_opnd_mem_size_in_bytes
                            (instr_get_dst i_store 0) i_store;
                  pc := instr_get_app_pc i_store |}]
        /\ get_field cfg2 s' (tls_field s_partial) num_refs
           = get_field cfg2 s_partial (tls_field s_partial) num_refs)
    /\ (1 + 1 = MAX_NUM_MEM_REFS cfg2 ->
        io s' =
        io s_partial
        ++ emit (get_field cfg2 s_partial (tls_field s_partial) log)
             (Format_header
              :: map ref_line
                   (pending cfg2 s_partial
                    ++ [{| write := true; addr := 7000;
                           size := drutil_opnd_mem_size_in_bytes
                                     (instr_get_dst i_store 0) i_store;
                           pc := instr_get_app_pc i_store |}]))
             (faults s_partial)
        /\ Z.of_nat
             (length
                (pending cfg2 s_partial
                 ++ [{| write := true; addr := 7000;
                        size := drutil_opnd_mem_size_in_bytes
                                  (instr_get_dst i_store 0) i_store;
                        pc := instr_get_app_pc i_store |}]))
           = MAX_NUM_MEM_REFS cfg2
        /\ pending cfg2 s' = []
        /\ get_field cfg2 s' (tls_field s_partial) num_refs
           = to_uint64
               (get_field cfg2 s_partial (tls_field s_partial) num_refs
                + MAX_NUM_MEM_REFS cfg2)).
Proof.
  apply (X16_flush_exactly_when_full cfg2 s_partial 1 i_store 0%nat true
           0%nat (instr_get_dst i_store 0) 7000).
  - exact cfg2_ok.
  - exact s_partial_ok.
  - reflexivity.
  - apply mk_instr_ok; lia.
  - reflexivity.
  - vm_compute. reflexivity.
Defined.
